(** * Virtual Serial Data Logger: ingestion service and anomaly detector

    A shallow embedding of [logger_service.py] (the ingestion loop that
    decodes, parses and stores telemetry lines) and of [detector.py] (the
    batch anomaly detection engine), followed by the properties of the
    specification that concern them.

    Layout: Python built-ins the two programs call ([Py]), the logger
    ([Logger]), the detector ([Detector]), and then the theorems. *)

From Stdlib Require Import String Ascii.
From Stdlib Require Import ZArith NArith List Bool Lia.
From Stdlib Require Import Sorted Permutation.
From Stdlib Require Import SpecFloat.
Import ListNotations.

Local Open Scope N_scope.

(* ================================================================== *)
(** * Python built-ins used by the two programs *)
(* ================================================================== *)

Module Py.

(** A Python [str] is a sequence of Unicode code points; [bytes] is a
    sequence of octets. *)
Definition char := N.
Definition str := list char.
Definition bytes := list Byte.byte.

(** A Python [float] is an IEEE 754 binary64 number. *)
Definition float := spec_float.
Definition prec : Z := 53.
Definition emax : Z := 1024.

Definition nan : float := S754_nan.

(** [math.isfinite]. *)
Definition isfinite (x : float) : bool :=
  match x with
  | S754_zero _ | S754_finite _ _ _ => true
  | S754_infinity _ | S754_nan => false
  end.

(** The value of an ASCII literal of the source text. *)
Fixpoint lit (s : string) : str :=
  match s with
  | EmptyString => []
  | String a s' => N_of_ascii a :: lit s'
  end.

Definition str_eqb (a b : str) : bool :=
  if list_eq_dec N.eq_dec a b then true else false.

(** ** [bytes.decode('utf-8')], strict error handling

    [None] stands for [UnicodeDecodeError].  Overlong forms, surrogates
    and code points above U+10FFFF are rejected, as CPython does. *)

Definition continuation (b : N) : bool := (0x80 <=? b) && (b <=? 0xBF).

Definition in_range (lo hi b : N) : bool := (lo <=? b) && (b <=? hi).

(** Admissible second byte of a three-byte sequence, by lead byte. *)
Definition second_of_3 (b0 b1 : N) : bool :=
  if b0 =? 0xE0 then in_range 0xA0 0xBF b1
  else if b0 =? 0xED then in_range 0x80 0x9F b1
  else continuation b1.

(** Admissible second byte of a four-byte sequence, by lead byte. *)
Definition second_of_4 (b0 b1 : N) : bool :=
  if b0 =? 0xF0 then in_range 0x90 0xBF b1
  else if b0 =? 0xF4 then in_range 0x80 0x8F b1
  else continuation b1.

Fixpoint decode_octets (bs : list N) : option str :=
  match bs with
  | [] => Some []
  | b0 :: r0 =>
    if b0 <? 0x80 then option_map (cons b0) (decode_octets r0)
    else if in_range 0xC2 0xDF b0 then
      match r0 with
      | b1 :: r1 =>
        if continuation b1
        then option_map (cons ((b0 - 0xC0) * 64 + (b1 - 0x80)))
                        (decode_octets r1)
        else None
      | _ => None
      end
    else if in_range 0xE0 0xEF b0 then
      match r0 with
      | b1 :: b2 :: r2 =>
        if second_of_3 b0 b1 && continuation b2
        then option_map
               (cons ((b0 - 0xE0) * 4096 + (b1 - 0x80) * 64 + (b2 - 0x80)))
               (decode_octets r2)
        else None
      | _ => None
      end
    else if in_range 0xF0 0xF4 b0 then
      match r0 with
      | b1 :: b2 :: b3 :: r3 =>
        if second_of_4 b0 b1 && continuation b2 && continuation b3
        then option_map
               (cons ((b0 - 0xF0) * 262144 + (b1 - 0x80) * 4096
                      + (b2 - 0x80) * 64 + (b3 - 0x80)))
               (decode_octets r3)
        else None
      | _ => None
      end
    else None
  end.

Definition decode_utf8 (data : bytes) : option str :=
  decode_octets (map Byte.to_N data).

(** ** [str.isspace] on one character, [str.strip()] *)

Definition isspace (c : char) : bool :=
  in_range 0x09 0x0D c || in_range 0x1C 0x20 c
  || (c =? 0x85) || (c =? 0xA0) || (c =? 0x1680)
  || in_range 0x2000 0x200A c || (c =? 0x2028) || (c =? 0x2029)
  || (c =? 0x202F) || (c =? 0x205F) || (c =? 0x3000).

Fixpoint lstrip_with (sp : char -> bool) (s : str) : str :=
  match s with
  | [] => []
  | c :: r => if sp c then lstrip_with sp r else s
  end.

Definition strip_with (sp : char -> bool) (s : str) : str :=
  rev (lstrip_with sp (rev (lstrip_with sp s))).

Definition strip (s : str) : str := strip_with isspace s.

(** ** [str.split(sep)] for a one-character separator, [str.startswith] *)

Fixpoint split (sep : char) (s : str) : list str :=
  match s with
  | [] => [[]]
  | c :: r =>
    if c =? sep then [] :: split sep r
    else match split sep r with
         | p :: ps => (c :: p) :: ps
         | [] => [[c]]
         end
  end.

Fixpoint startswith (s prefix : str) : bool :=
  match prefix, s with
  | [], _ => true
  | _ :: _, [] => false
  | a :: p', b :: s' => (a =? b) && startswith s' p'
  end.

(** ** [float(str)]

    CPython converts a [str] to a [float] in four steps: non-ASCII
    white space and decimal digits are mapped to ASCII, surrounding
    ASCII white space is dropped, underscores between digits are removed,
    and the remaining text must be, in full, a signed [inf], [infinity],
    [nan] (any letter case) or a decimal literal.  [None] stands for
    [ValueError]. *)

(** Code points of the digit zero of every Unicode decimal digit run
    (general category Nd, Unicode 14); the nine code points that follow
    each are the digits one to nine. *)
Definition decimal_zeros : list N :=
  [
   48; 1632; 1776; 1984; 2406; 2534; 2662; 2790;
   2918; 3046; 3174; 3302; 3430; 3558; 3664; 3792;
   3872; 4160; 4240; 6112; 6160; 6470; 6608; 6784;
   6800; 6992; 7088; 7232; 7248; 42528; 43216; 43264;
   43472; 43504; 43600; 44016; 65296; 66720; 68912; 69734;
   69872; 69942; 70096; 70384; 70736; 70864; 71248; 71360;
   71472; 71904; 72016; 72784; 73040; 73120; 92768; 92864;
   93008; 120782; 120792; 120802; 120812; 120822; 123200; 123632;
   125264; 130032 ].

Definition to_decimal (c : char) : option N :=
  match find (fun z => in_range z (z + 9) c) decimal_zeros with
  | Some z => Some (c - z)
  | None => None
  end.

(** [_PyUnicode_TransformDecimalAndSpaceToASCII]: the first character
    that is neither ASCII, white space nor a decimal digit becomes [?]
    and ends the text. *)
Fixpoint transform_decimal_and_space (s : str) : str :=
  match s with
  | [] => []
  | c :: r =>
    if c <? 127 then c :: transform_decimal_and_space r
    else if isspace c then 32 :: transform_decimal_and_space r
    else match to_decimal c with
         | Some d => (48 + d) :: transform_decimal_and_space r
         | None => [63]
         end
  end.

(** [Py_ISSPACE]: the six ASCII white-space characters. *)
Definition ascii_isspace (c : char) : bool := in_range 9 13 c || (c =? 32).

Definition is_digit (c : char) : bool := in_range 48 57 c.

(** Underscores are allowed only between two digits; [prev] is the
    character before [s] (NUL at the start). *)
Fixpoint remove_underscores (prev : char) (s : str) : option str :=
  match s with
  | [] => if prev =? 95 then None else Some []
  | c :: r =>
    if c =? 95 then
      if is_digit prev then remove_underscores c r else None
    else if (prev =? 95) && negb (is_digit c) then None
    else option_map (cons c) (remove_underscores c r)
  end.

Definition lower (c : char) : char := if in_range 65 90 c then c + 32 else c.

(** Leading digits of [s] (as values) and what follows them. *)
Fixpoint span_digits (s : str) : list N * str :=
  match s with
  | [] => ([], [])
  | c :: r =>
    if is_digit c
    then let '(ds, rest) := span_digits r in ((c - 48) :: ds, rest)
    else ([], s)
  end.

(** An optional sign: [true] for minus. *)
Definition parse_sign (s : str) : bool * str :=
  match s with
  | 45 :: r => (true, r)
  | 43 :: r => (false, r)
  | _ => (false, s)
  end.

Definition digits_value (ds : list N) : Z :=
  fold_left (fun acc d => (10 * acc + Z.of_N d)%Z) ds 0%Z.

(** The binary64 number nearest to [num / den] (ties to even), for
    positive integers [num] and [den]. *)
Definition round_ratio (neg : bool) (num den : Z) : float :=
  let '(q, e, l) := SFdiv_core_binary prec emax num 0 den 0 in
  binary_round_aux prec emax neg q e l.

(** The binary64 number nearest to [m * 10 ^ e10], correctly rounded;
    overflow gives an infinity and underflow a zero, without error. *)
Definition decimal_to_float (neg : bool) (m e10 : Z) : float :=
  if (m =? 0)%Z then S754_zero neg
  else if (0 <=? e10)%Z then round_ratio neg (m * 10 ^ e10) 1
  else round_ratio neg m (10 ^ (- e10)).

(** The text after the sign is [inf], [infinity] or [nan]. *)
Definition inf_or_nan (neg : bool) (s : str) : option float :=
  let l := map lower s in
  if str_eqb l (lit "inf") || str_eqb l (lit "infinity")
  then Some (S754_infinity neg)
  else if str_eqb l (lit "nan") then Some S754_nan
  else None.

(** The exponent part: [e] or [E], an optional sign, at least one digit,
    and nothing after. *)
Definition parse_exponent (s : str) : option Z :=
  match s with
  | c :: r =>
    if (c =? 101) || (c =? 69) then
      let '(eneg, r1) := parse_sign r in
      match span_digits r1 with
      | (d :: ds, []) =>
        let v := digits_value (d :: ds) in
        Some (if eneg then (- v)%Z else v)
      | _ => None
      end
    else None
  | [] => Some 0%Z
  end.

(** [PyOS_string_to_double] on text that must be consumed in full. *)
Definition string_to_double (s : str) : option float :=
  let '(neg, s1) := parse_sign s in
  match inf_or_nan neg s1 with
  | Some x => Some x
  | None =>
    let '(ip, s2) := span_digits s1 in
    let '(fp, s3) :=
      match s2 with
      | 46 :: r => span_digits r
      | _ => ([], s2)
      end in
    match ip ++ fp with
    | [] => None
    | ds =>
      match parse_exponent s3 with
      | Some e =>
        Some (decimal_to_float neg (digits_value ds)
                               (e - Z.of_nat (length fp)))
      | None => None
      end
    end
  end.

Definition float_of_str (s : str) : option float :=
  let t := strip_with ascii_isspace (transform_decimal_and_space s) in
  match remove_underscores 0 t with
  | Some u => string_to_double u
  | None => None
  end.

(** A float literal of the source text. *)
Definition float_lit (s : string) : float :=
  match float_of_str (lit s) with
  | Some x => x
  | None => nan
  end.

(** ** [str.encode('utf-8')], strict error handling

    [None] stands for [UnicodeEncodeError]: a lone surrogate cannot be
    encoded.  (A Python [str] holds no code point above U+10FFFF.) *)

Definition encode_char (c : char) : option (list N) :=
  if c <? 0x80 then Some [c]
  else if c <? 0x800 then Some [0xC0 + c / 64; 0x80 + c mod 64]
  else if c <? 0x10000 then
    if in_range 0xD800 0xDFFF c then None
    else Some [0xE0 + c / 4096; 0x80 + (c / 64) mod 64; 0x80 + c mod 64]
  else if c <=? 0x10FFFF then
    Some [0xF0 + c / 262144; 0x80 + (c / 4096) mod 64;
          0x80 + (c / 64) mod 64; 0x80 + c mod 64]
  else None.

Fixpoint encode_octets (s : str) : option (list N) :=
  match s with
  | [] => Some []
  | c :: r =>
    match encode_char c, encode_octets r with
    | Some bs, Some rest => Some (bs ++ rest)
    | _, _ => None
    end
  end.

Fixpoint to_bytes (ns : list N) : option bytes :=
  match ns with
  | [] => Some []
  | n :: r =>
    match Byte.of_N n, to_bytes r with
    | Some b, Some bs => Some (b :: bs)
    | _, _ => None
    end
  end.

Definition encode_utf8 (s : str) : option bytes :=
  match encode_octets s with
  | Some ns => to_bytes ns
  | None => None
  end.

(** A code point a [str] can hold and UTF-8 can carry. *)
Definition scalar (c : char) : bool :=
  (c <=? 0x10FFFF) && negb (in_range 0xD800 0xDFFF c).

End Py.

(* ================================================================== *)
(** * The structured store shared by the two programs *)
(* ================================================================== *)

Module Store.
Import Py.

(** One data row of [structured_metrics.csv].  The timestamp is the
    instant [datetime.now()] returned, counted in nanoseconds (the unit
    in which pandas holds it once the column is parsed as dates). *)
Record row := mkRow {
  timestamp : Z;
  temperature : float;
  voltage : float;
  status_code : str
}.

(** A line of the file: the header row or a data row. *)
Inductive csv_line :=
| Header (columns : list str)
| Row (r : row).

Definition columns_of_store : list str :=
  [lit "timestamp"; lit "temperature"; lit "voltage"; lit "status_code"].

End Store.

(* ================================================================== *)
(** * logger_service.py *)
(* ================================================================== *)

Module Logger.
Import Py Store.

(** ** Exceptions and the error monad *)

(** The text of a [ValueError]: the one the parse branch raises itself,
    and the one [float] raises. *)
Inductive error_message :=
| Malformed_data_structure (line : str)
| Could_not_convert_string_to_float (text : str).

Inductive exn :=
| ValueError (msg : error_message)
| IndexError
| UnicodeDecodeError
| OSError
| SerialException
| KeyboardInterrupt.

Inductive result (A : Type) :=
| Ok (a : A)
| Raise (e : exn).
Arguments Ok {A} a.
Arguments Raise {A} e.

Definition bind {A B : Type} (c : result A) (k : A -> result B) : result B :=
  match c with
  | Ok a => k a
  | Raise e => Raise e
  end.

Notation "x <- c ;; k" := (bind c (fun x => k))
  (at level 61, c at next level, right associativity).

(** [float(s)] and [l[i]] as the statements that may raise. *)
Definition float (s : str) : result Py.float :=
  match float_of_str s with
  | Some x => Ok x
  | None => Raise (ValueError (Could_not_convert_string_to_float s))
  end.

Definition item {A : Type} (l : list A) (i : nat) : result A :=
  match nth_error l i with
  | Some a => Ok a
  | None => Raise IndexError
  end.

Definition chr (a : ascii) : char := N_of_ascii a.

(** ** The three sinks and the console *)

(** A line of [raw.log]: [f"{timestamp} | {line}\n"]. *)
Record raw_entry := mkRaw { raw_timestamp : Z; raw_line : str }.

(** A line of [parser_errors.log]:
    [f"{timestamp} | PARSE_ERROR | {e}\n"]. *)
Record error_entry := mkError { error_timestamp : Z; error_exn : exn }.

(** What the service prints. *)
Inductive output :=
| Csv_created_with_headers
| Error_setting_up_csv_file
| Logger_service_started
| Error_writing_to_raw_log
| Logged (r : row)
| Failed_to_parse (line : str)
| Error_writing_to_error_log
| Could_not_open_port
| Stopped_by_user
| Serial_port_closed.

Record state := mkState {
  raw_log : list raw_entry;
  csv_file : list csv_line;
  error_log : list error_entry;
  console : list output
}.

Definition print (o : output) (st : state) : state :=
  mkState (raw_log st) (csv_file st) (error_log st) (console st ++ [o]).

Definition write_raw (e : raw_entry) (st : state) : state :=
  mkState (raw_log st ++ [e]) (csv_file st) (error_log st) (console st).

Definition write_csv (l : csv_line) (st : state) : state :=
  mkState (raw_log st) (csv_file st ++ [l]) (error_log st) (console st).

Definition write_error (e : error_entry) (st : state) : state :=
  mkState (raw_log st) (csv_file st) (error_log st ++ [e]) (console st).

(** [open(CSV_FILE, 'w')] followed by the header row. *)
Definition create_csv (st : state) : state :=
  mkState (raw_log st) [Header columns_of_store] (error_log st) (console st).

(** Which of the three appends of one iteration fail with an [OSError]
    (the file cannot be opened or written). *)
Record faults := mkFaults {
  raw_fails : bool;
  csv_fails : bool;
  error_fails : bool
}.

Definition no_faults : faults := mkFaults false false false.

(** ** Section 3: prepare the CSV file *)

(** How the [with] block of the set-up goes: it completes; or [open]
    raises, and the file is not touched; or [open] has emptied the file
    and the write of the header row, or the close, raises, with what of
    the header row reached the file ([None]: nothing). *)
Inductive setup_result :=
| Created
| Open_fails
| Write_fails (reached : option (list str)).

(** The file after [open(CSV_FILE, 'w')] and a write that failed. *)
Definition truncate_csv (reached : option (list str)) (st : state) : state :=
  mkState (raw_log st)
          match reached with
          | None => []
          | Some columns => [Header columns]
          end
          (error_log st) (console st).

Definition setup_csv (how : setup_result) (st : state) : state :=
  match how with
  | Created => print Csv_created_with_headers (create_csv st)
  | Open_fails => print Error_setting_up_csv_file st
  | Write_fails reached =>
    print Error_setting_up_csv_file (truncate_csv reached st)
  end.

(** ** Section 4: the body of the main loop *)

(** Task 1: the raw log, guarded by [except Exception]. *)
Definition log_raw (now : Z) (io : faults) (line : str) (st : state) : state :=
  if raw_fails io then print Error_writing_to_raw_log st
  else write_raw (mkRaw now line) st.

(** Task 2, the conversions of the [try] block: lines 55 to 64 and the
    [raise] of line 75. *)
Definition parse_fields (line : str) : result (Py.float * Py.float * str) :=
  let parts := split (chr ",") line in
  if (length parts =? 3)%nat
     && startswith (nth 0 parts []) (lit "T:")
     && startswith (nth 1 parts []) (lit "V:")
     && startswith (nth 2 parts []) (lit "S:")
  then
    temp_str <- item (split (chr ":") (nth 0 parts [])) 1 ;;
    volt_str <- item (split (chr ":") (nth 1 parts [])) 1 ;;
    status <- item (split (chr ":") (nth 2 parts [])) 1 ;;
    temp_float <- float temp_str ;;
    volt_float <- float volt_str ;;
    Ok (temp_float, volt_float, status)
  else Raise (ValueError (Malformed_data_structure line)).

(** The whole [try] block: the conversions, then the append to the CSV
    file and the acknowledgement. *)
Definition try_block (now : Z) (io : faults) (line : str) (st : state)
  : result state :=
  f <- parse_fields line ;;
  let '(temp_float, volt_float, status) := f in
  let r := mkRow now temp_float volt_float status in
  if csv_fails io then Raise OSError
  else Ok (print (Logged r) (write_csv (Row r) st)).

(** The handler of [except (ValueError, IndexError) as e]. *)
Definition parse_error_handler (now : Z) (io : faults) (line : str)
  (e : exn) (st : state) : state :=
  let st1 := print (Failed_to_parse line) st in
  if error_fails io then print Error_writing_to_error_log st1
  else write_error (mkError now e) st1.

(** Task 2 with its handler; an exception the handler does not name
    leaves the loop body. *)
Definition parse_and_store (now : Z) (io : faults) (line : str) (st : state)
  : state * option exn :=
  match try_block now io line st with
  | Ok st' => (st', None)
  | Raise (ValueError m) =>
    (parse_error_handler now io line (ValueError m) st, None)
  | Raise IndexError => (parse_error_handler now io line IndexError st, None)
  | Raise e => (st, Some e)
  end.

(** What one pass of [while True] meets: [ser.readline()] returns some
    bytes (none on the one-second timeout) at clock reading [now], or
    raises [SerialException], or is interrupted by Ctrl-C.  [Ctrl_C] is
    the interrupt that arrives while the service waits in [readline] or
    sleeps; one that arrives in the middle of a pass is not modelled. *)
Inductive event :=
| Readline (data : bytes) (now : Z) (io : faults)
| Link_lost
| Ctrl_C.

(** One pass of the loop: the new state and the exception that leaves
    the loop, if any. *)
Definition iteration (ev : event) (st : state) : state * option exn :=
  match ev with
  | Link_lost => (st, Some SerialException)
  | Ctrl_C => (st, Some KeyboardInterrupt)
  | Readline data now io =>
    match decode_utf8 data with
    | None => (st, Some UnicodeDecodeError)
    | Some text =>
      let line := strip text in
      match line with
      | [] => (st, None)
      | _ :: _ => parse_and_store now io line (log_raw now io line st)
      end
    end
  end.

(** [while True] over the events of a session; [None] when the events
    are used up and the loop is still waiting for the next one. *)
Fixpoint loop (evs : list event) (st : state) : state * option exn :=
  match evs with
  | [] => (st, None)
  | ev :: rest =>
    match iteration ev st with
    | (st', None) => loop rest st'
    | (st', Some e) => (st', Some e)
    end
  end.

(** How the service ends. *)
Inductive status :=
| RUNNING
| STOPPED
| FAILED
| UNCAUGHT (e : exn).

(** The [except] clauses and the [finally] of the outer [try]; the port
    was opened, so [finally] closes it. *)
Definition outer_handlers (r : option exn) (st : state) : state * status :=
  match r with
  | None => (st, RUNNING)
  | Some SerialException =>
    (print Serial_port_closed (print Could_not_open_port st), FAILED)
  | Some KeyboardInterrupt =>
    (print Serial_port_closed (print Stopped_by_user st), STOPPED)
  | Some e => (print Serial_port_closed st, UNCAUGHT e)
  end.

(** A run of the program: how the CSV set-up goes, whether the serial
    port opens, and what the loop then meets. *)
Record session := mkSession {
  setup : setup_result;
  port_opens : bool;
  events : list event
}.

Definition main (s : session) (st : state) : state * status :=
  let st1 := print Logger_service_started (setup_csv (setup s) st) in
  if port_opens s then
    let '(st2, r) := loop (events s) st1 in outer_handlers r st2
  else (print Could_not_open_port st1, FAILED).

(** Encoding of an ASCII line as the bytes the device sends. *)
Fixpoint encode_ascii (s : string) : bytes :=
  match s with
  | EmptyString => []
  | String a s' => byte_of_ascii a :: encode_ascii s'
  end.

(** ** The parser as the specification words it

    Section 4.2 of the specification: the whole remainder of each field
    after its two-character prefix is the field's value. *)
Definition remainder (field : str) : str := skipn 2 field.

Definition parse_as_specified (line : str) : option (Py.float * Py.float * str) :=
  match split (chr ",") line with
  | [f1; f2; f3] =>
    if startswith f1 (lit "T:") && startswith f2 (lit "V:")
       && startswith f3 (lit "S:")
    then match float_of_str (remainder f1), float_of_str (remainder f2) with
         | Some t, Some v => Some (t, v, remainder f3)
         | _, _ => None
         end
    else None
  | _ => None
  end.

(** The value the code takes from a field: the remainder after the
    prefix, up to the next colon or the end of the field. *)
Fixpoint until_colon (s : str) : str :=
  match s with
  | [] => []
  | c :: r => if c =? chr ":" then [] else c :: until_colon r
  end.

Definition value_of (field : str) : str := until_colon (remainder field).

Definition well_shaped (line : str) : bool :=
  match split (chr ",") line with
  | [f1; f2; f3] =>
    startswith f1 (lit "T:") && startswith f2 (lit "V:")
    && startswith f3 (lit "S:")
  | _ => false
  end.

Definition field (i : nat) (line : str) : str :=
  nth i (split (chr ",") line) [].

Definition parse_as_coded (line : str) : option (Py.float * Py.float * str) :=
  if well_shaped line then
    match float_of_str (value_of (field 0 line)),
          float_of_str (value_of (field 1 line)) with
    | Some t, Some v => Some (t, v, value_of (field 2 line))
    | _, _ => None
    end
  else None.

(** A rejected line: no row, no exception out of the loop body, the
    failure printed and, the error log permitting, recorded. *)
Definition rejected (now : Z) (io : faults) (line : str) (st : state) : Prop :=
  csv_file (fst (parse_and_store now io line st)) = csv_file st
  /\ snd (parse_and_store now io line st) = None
  /\ In (Failed_to_parse line)
        (console (fst (parse_and_store now io line st)))
  /\ (error_fails io = false ->
      exists m,
        error_log (fst (parse_and_store now io line st))
        = error_log st ++ [mkError now (ValueError m)]).

(** ** Sample inputs *)

Definition newline : bytes := [Byte.x0a].

(** The reading [T:50.0,V:5.0,S:OK] as the device sends it. *)
Definition good_reading : bytes := encode_ascii "T:50.0,V:5.0,S:OK" ++ newline.

(** A line that is not UTF-8: the lone byte 0xFF. *)
Definition undecodable : bytes := [Byte.xff] ++ newline.

(** No file exists yet and nothing was printed. *)
Definition fresh : state := mkState [] [] [] [].

(** A store left by an earlier session: the header and one record. *)
Definition earlier_record : row :=
  mkRow 1 (float_lit "48.13") (float_lit "5.04") (lit "NORMAL").

Definition after_earlier_session : state :=
  mkState [] [Header columns_of_store; Row earlier_record] [] [].

(** ** Reading a session *)

(** No sink fails during the event, and no interrupt ends it. *)
Definition quiet (ev : event) : bool :=
  match ev with
  | Readline _ _ io =>
    negb (raw_fails io) && negb (csv_fails io) && negb (error_fails io)
  | Link_lost => true
  | Ctrl_C => false
  end.

(** The lines a session hears, each with its arrival time: the stripped
    texts, when not empty, of the chunks read before the first chunk
    that does not decode or the loss of the link. *)
Fixpoint heard (evs : list event) : list (Z * str) :=
  match evs with
  | Readline data now _ :: rest =>
    match decode_utf8 data with
    | Some text =>
      match strip text with
      | [] => heard rest
      | c :: l => (now, c :: l) :: heard rest
      end
    | None => []
    end
  | _ => []
  end.

(** What a line heard leaves in each of the three files. *)
Definition raw_of (h : Z * str) : raw_entry := mkRaw (fst h) (snd h).

Definition record_of (h : Z * str) : list csv_line :=
  match parse_fields (snd h) with
  | Ok (t, v, s) => [Row (mkRow (fst h) t v s)]
  | Raise _ => []
  end.

Definition parse_error_of (h : Z * str) : list error_entry :=
  match parse_fields (snd h) with
  | Ok _ => []
  | Raise e => [mkError (fst h) e]
  end.

(** The clock readings of the chunks read. *)
Definition clock (ev : event) : list Z :=
  match ev with
  | Readline _ now _ => [now]
  | _ => []
  end.


(** How often the console reports the port closed. *)
Definition closings (out : list output) : nat :=
  length (filter (fun o => match o with
                           | Serial_port_closed => true
                           | _ => false
                           end) out).

(** [l] when [b] holds, nothing otherwise. *)
Definition only_if {A : Type} (b : bool) (l : list A) : list A :=
  if b then l else [].

End Logger.

(* ================================================================== *)
(** * detector.py *)
(* ================================================================== *)

Module Detector.
Import Py Store.

Local Open Scope Z_scope.

(** ** Section 2: configuration *)

Definition TEMP_THRESHOLD : float := Eval vm_compute in float_lit "80.0".
Definition VOLTAGE_THRESHOLD_HIGH : float := Eval vm_compute in float_lit "5.5".
Definition VOLTAGE_THRESHOLD_LOW : float := Eval vm_compute in float_lit "4.5".
Definition TEMP_RATE_OF_CHANGE_THRESHOLD : float :=
  Eval vm_compute in float_lit "15.0".
Definition HEARTBEAT_TIMEOUT_SECONDS : Z := 4.

(** [str(TEMP_THRESHOLD)], as the f-string of the first detector
    renders the constant. *)
Definition TEMP_THRESHOLD_text : str := lit "80.0".

(** [timedelta(seconds=s)] in the nanoseconds of a pandas time
    difference. *)
Definition timedelta (seconds : Z) : Z := seconds * 1000000000.

(** ** Float operators: every comparison with a NaN is false *)

Definition gt (x y : float) : bool := SFltb y x.
Definition lt (x y : float) : bool := SFltb x y.
Definition sub (x y : float) : float := SFsub prec emax x y.
Definition abs (x : float) : float := SFabs x.

(** ** Anomalies *)

Inductive kind :=
| THRESHOLD_BREACH_TEMP
| THRESHOLD_BREACH_VOLTAGE
| RAPID_CHANGE_TEMP
| HEARTBEAT_LOSS.

Inductive severity := WARNING | CRITICAL.

(** The dictionary [anomaly_details]. *)
Record anomaly := mkAnomaly {
  anomaly_timestamp : Z;
  anomaly_type : kind;
  anomaly_severity : severity;
  anomaly_description : str
}.

(** The position of a detector in the program text. *)
Definition detector_order (k : kind) : nat :=
  match k with
  | THRESHOLD_BREACH_TEMP => 0
  | THRESHOLD_BREACH_VOLTAGE => 1
  | RAPID_CHANGE_TEMP => 2
  | HEARTBEAT_LOSS => 3
  end%nat.

(** Detector [a] comes no later than detector [b] in the program
    text. *)
Definition by_detector (a b : anomaly) : Prop :=
  (detector_order (anomaly_type a) <= detector_order (anomaly_type b))%nat.

(** ** Stable insertion sort

    [list.sort(key=...)] is stable, and the stable ascending arrangement
    of a list is unique: [isort key Z.leb] is that arrangement.  With
    [Z.ltb] the same scheme sorts as well but puts equal keys in the
    reverse of their original order. *)
Section Insertion.
Context {A : Type}.
Variable key : A -> Z.
Variable before : Z -> Z -> bool.

Fixpoint insert (a : A) (l : list A) : list A :=
  match l with
  | [] => [a]
  | b :: r => if before (key a) (key b) then a :: l else b :: insert a r
  end.

Fixpoint isort (l : list A) : list A :=
  match l with
  | [] => []
  | a :: r => insert a (isort r)
  end.

End Insertion.

(** ** The [diff] of a column: NaN (or NaT) first, then each value minus
    the one before it *)

Fixpoint diff_from (prev : float) (l : list float) : list float :=
  match l with
  | [] => []
  | x :: r => sub x prev :: diff_from x r
  end.

Definition diff (l : list float) : list float :=
  match l with
  | [] => []
  | x :: r => nan :: diff_from x r
  end.

Fixpoint time_diff_from (prev : Z) (l : list Z) : list (option Z) :=
  match l with
  | [] => []
  | x :: r => Some (x - prev) :: time_diff_from x r
  end.

Definition time_diff (l : list Z) : list (option Z) :=
  match l with
  | [] => []
  | x :: r => None :: time_diff_from x r
  end.

(** [pd.read_csv]: the first line of the file is the header, the others
    are the records; [None] when the file has no header line.  The file
    is held as typed rows: the text of the stamps and of the numbers and
    its parsing by pandas are not modelled, so this is the read in which
    every stamp and number parses back to the value written. *)
Definition data_rows (lines : list csv_line) : list row :=
  flat_map (fun l => match l with Row r => [r] | Header _ => [] end) lines.

Definition read_csv (file : list csv_line) : option (list row) :=
  match file with
  | Header _ :: rest => Some (data_rows rest)
  | _ => None
  end.

(** [df.take(indexer)]. *)
Definition take (df : list row) (indexer : list nat) : list row :=
  flat_map (fun i => match nth_error df i with
                     | Some r => [r]
                     | None => []
                     end) indexer.

(** ** A scan over adjacent pairs

    What a detector emits when it walks the frame once, keeping the
    previous row, and [f prev cur] is what a pair contributes. *)
Fixpoint adjacent {B : Type} (f : row -> row -> list B) (prev : row)
  (rest : list row) : list B :=
  match rest with
  | [] => []
  | cur :: r => f prev cur ++ adjacent f cur r
  end.

(** The same by position: pair [i] is rows [i-1] and [i]. *)
Definition at_pair {B : Type} (f : row -> row -> list B) (df : list row)
  (i : nat) : list B :=
  match nth_error df (i - 1), nth_error df i with
  | Some p, Some c => f p c
  | _, _ => []
  end.

Section Engine.

(** [format(x, spec)] of a float, as the f-strings use it. *)
Variable format_float : string -> float -> str.

(** [Timedelta.total_seconds()] of a difference given in nanoseconds. *)
Variable total_seconds : Z -> float.

(** The index order numpy's [argsort] returns for the keys, with the
    sort kind ['quicksort'] that [sort_values] uses when none is given. *)
Variable argsort : list Z -> list nat.

(** [df.sort_values(by='timestamp').reset_index(drop=True)]. *)
Definition sort_values (df : list row) : list row :=
  take df (argsort (map timestamp df)).

Definition degree_sign : str := [176%N].

(** *** Detection method 1: threshold breaches *)

Definition temp_anomalies (df : list row) : list row :=
  filter (fun r => gt (temperature r) TEMP_THRESHOLD) df.

Definition temp_details (r : row) : anomaly :=
  mkAnomaly (timestamp r) THRESHOLD_BREACH_TEMP CRITICAL
    (lit "Temperature " ++ format_float ".2f" (temperature r)
     ++ degree_sign ++ lit "C exceeded threshold of "
     ++ TEMP_THRESHOLD_text ++ degree_sign ++ lit "C.").

Definition voltage_anomalies (df : list row) : list row :=
  filter (fun r => gt (voltage r) VOLTAGE_THRESHOLD_HIGH
                   || lt (voltage r) VOLTAGE_THRESHOLD_LOW) df.

Definition voltage_details (r : row) : anomaly :=
  mkAnomaly (timestamp r) THRESHOLD_BREACH_VOLTAGE CRITICAL
    (lit "Voltage " ++ format_float ".2f" (voltage r)
     ++ lit "V was outside the normal range.").

(** *** Detection method 2: rate of change *)

(** The frame with its new column [temp_change]. *)
Definition with_temp_change (df : list row) : list (row * float) :=
  combine df (diff (map temperature df)).

Definition roc_anomalies (df : list row) : list (row * float) :=
  filter (fun rc => gt (abs (snd rc)) TEMP_RATE_OF_CHANGE_THRESHOLD)
         (with_temp_change df).

Definition roc_description (temp_change : float) : str :=
  lit "Temperature changed by " ++ format_float ".2f" temp_change
  ++ degree_sign ++ lit "C, exceeding the rate-of-change threshold.".

Definition roc_details (rc : row * float) : anomaly :=
  mkAnomaly (timestamp (fst rc)) RAPID_CHANGE_TEMP WARNING
    (roc_description (snd rc)).

(** *** Detection method 3: heartbeat loss *)

(** The frame with its new column [time_diff]; [None] is NaT. *)
Definition with_time_diff (df : list row) : list (row * option Z) :=
  combine df (time_diff (map timestamp df)).

Definition exceeds_timeout (d : option Z) : bool :=
  match d with
  | Some gap => timedelta HEARTBEAT_TIMEOUT_SECONDS <? gap
  | None => false
  end.

Definition heartbeat_anomalies (df : list row) : list (row * option Z) :=
  filter (fun rd => exceeds_timeout (snd rd)) (with_time_diff df).

Definition heartbeat_description (gap : Z) : str :=
  lit "No data received for " ++ format_float ".1f" (total_seconds gap)
  ++ lit " seconds. Device may be offline.".

Definition heartbeat_details (rd : row * option Z) : anomaly :=
  mkAnomaly (timestamp (fst rd)) HEARTBEAT_LOSS CRITICAL
    (match snd rd with
     | Some gap => heartbeat_description gap
     | None => []
     end).

(** *** The four loops that fill [anomalies_found] *)

Definition temp_detector (df : list row) : list anomaly :=
  map temp_details (temp_anomalies df).

Definition voltage_detector (df : list row) : list anomaly :=
  map voltage_details (voltage_anomalies df).

Definition roc_detector (df : list row) : list anomaly :=
  map roc_details (roc_anomalies df).

Definition heartbeat_detector (df : list row) : list anomaly :=
  map heartbeat_details (heartbeat_anomalies df).

Definition anomalies_found (df : list row) : list anomaly :=
  temp_detector df ++ voltage_detector df
  ++ roc_detector df ++ heartbeat_detector df.

(** *** Section 4: the report

    [anomalies_found.sort(key=lambda x: x['timestamp'])], done only when
    the list is not empty; the result is what the console report and the
    JSON document list, in this order. *)
Definition sort_by_timestamp (l : list anomaly) : list anomaly :=
  isort anomaly_timestamp Z.leb l.

Definition report (found : list anomaly) : list anomaly :=
  match found with
  | [] => []
  | _ :: _ => sort_by_timestamp found
  end.

(** The program: [None] when the store cannot be read. *)
Definition main (file : list csv_line) : option (list anomaly) :=
  match read_csv file with
  | Some df => Some (report (anomalies_found (sort_values df)))
  | None => None
  end.

(** *** The pairwise detectors as the specification words them

    Section 4.5: for every adjacent pair (i-1, i) with i >= 1, compute
    the difference and emit when it exceeds the threshold. *)
Definition roc_between (p c : row) : list anomaly :=
  let delta := sub (temperature c) (temperature p) in
  if gt (abs delta) TEMP_RATE_OF_CHANGE_THRESHOLD
  then [mkAnomaly (timestamp c) RAPID_CHANGE_TEMP WARNING
                  (roc_description delta)]
  else [].

Definition roc_of_pair (df : list row) (i : nat) : list anomaly :=
  at_pair roc_between df i.

Definition roc_as_specified (df : list row) : list anomaly :=
  flat_map (roc_of_pair df) (seq 1 (length df - 1)).

Definition heartbeat_between (p c : row) : list anomaly :=
  let gap := timestamp c - timestamp p in
  if timedelta HEARTBEAT_TIMEOUT_SECONDS <? gap
  then [mkAnomaly (timestamp c) HEARTBEAT_LOSS CRITICAL
                  (heartbeat_description gap)]
  else [].

Definition heartbeat_of_pair (df : list row) (i : nat) : list anomaly :=
  at_pair heartbeat_between df i.

Definition heartbeat_as_specified (df : list row) : list anomaly :=
  flat_map (heartbeat_of_pair df) (seq 1 (length df - 1)).

End Engine.

(** ** What [argsort] promises, and what the specification asks of the
    read view *)

(** The indices returned are a rearrangement of [0 .. n-1] that lists the
    keys in ascending order.  pandas documents ['quicksort'] as not
    stable: nothing more is promised on equal keys. *)
Definition argsort_contract (argsort : list Z -> list nat) : Prop :=
  forall keys,
    Permutation (argsort keys) (seq 0 (length keys))
    /\ StronglySorted Z.le (map (fun i => nth i keys 0) (argsort keys)).

Definition ascending (df : list row) : Prop :=
  StronglySorted (fun a b => timestamp a <= timestamp b) df.

(** Records with equal timestamps appear in [read] in the order they
    have in [stored]. *)
Definition ties_in_insertion_order (stored read : list row) : Prop :=
  forall t,
    filter (fun r => timestamp r =? t) read
    = filter (fun r => timestamp r =? t) stored.

(** An [argsort] that meets the contract and lists equal keys last
    first. *)
Definition argsort_ties_reversed (keys : list Z) : list nat :=
  map snd (isort fst Z.ltb (combine keys (seq 0 (length keys)))).

(** The stable one, for comparison. *)
Definition argsort_stable (keys : list Z) : list nat :=
  map snd (isort fst Z.leb (combine keys (seq 0 (length keys)))).

(** ** The default sort of numpy

    [sort_values] is called without [kind], so the positions come from
    numpy's [argsort] of kind ['quicksort'] on the datetime column
    ([aquicksort] in npysort/quicksort.cpp): an introsort.  A segment of
    more than 17 elements is split around the median of its first,
    middle and last element; a shorter one is sorted by insertion; a
    segment taken from the stack after the depth limit is used up is
    sorted by heapsort.  The functions below give the segments as lists
    and return what the C loops leave in the array. *)
Section Quicksort.
Context {A : Type}.
Variable key : A -> Z.

Definition less (a b : A) : bool := key a <? key b.

(** The insertion sort of a short segment, left to right; [sorted] is
    the part already in order, its last element first: the new element
    moves left past the elements that are greater. *)
Fixpoint shift (x : A) (sorted : list A) : list A :=
  match sorted with
  | [] => [x]
  | y :: r => if less x y then y :: shift x r else x :: sorted
  end.

Definition insertion (seg : list A) : list A :=
  rev (fold_left (fun sorted x => shift x sorted) seg []).

(** The three conditional swaps that put the median in the middle. *)
Definition in_order (a b : A) : A * A := if less b a then (b, a) else (a, b).

Definition median3 (x0 xm xl : A) : A * A * A :=
  let '(x0, xm) := in_order x0 xm in
  let '(xm, xl) := in_order xm xl in
  let '(x0, xm) := in_order x0 xm in
  (x0, xm, xl).

Fixpoint span (p : A -> bool) (l : list A) : list A * list A :=
  match l with
  | [] => ([], [])
  | x :: r => if p x then let '(a, b) := span p r in (x :: a, b) else ([], l)
  end.

(** The two scans that meet: [ldone] is what lies at or before the left
    index, [rdone] what lies at or after the right one (before the
    pivot, which waits in the last place but one), [mid] what is between
    them.  The result is what ends up before and after the pivot once it
    is swapped into the place where the scans met. *)
Fixpoint hoare (fuel : nat) (vp : Z) (ldone mid rdone : list A)
  : list A * list A :=
  match fuel with
  | O => (ldone ++ mid, rdone)
  | S fuel' =>
    let '(small, rest) := span (fun x => key x <? vp) mid in
    match rest with
    | [] => (ldone ++ mid,
             match rdone with
             | [] => []
             | g :: rd => rd ++ [g]
             end)
    | e :: r =>
      let '(big, inner) := span (fun x => vp <? key x) (rev r) in
      match inner with
      | [] => (ldone ++ small, r ++ rdone ++ [e])
      | f :: inner' =>
        hoare fuel' vp (ldone ++ small ++ [f]) (rev inner')
              (e :: rev big ++ rdone)
      end
    end
  end.

(** One partition of the segment [x0 :: rest]: what comes before the
    pivot, the pivot, what comes after it. *)
Definition split_at_pivot (x0 : A) (rest : list A) : list A * A * list A :=
  let pm := (length rest / 2)%nat in
  let before := firstn (pm - 1) rest in
  let xm := nth (pm - 1) rest x0 in
  let after := removelast (skipn pm rest) in
  let xl := last rest x0 in
  let '(x0, xm, xl) := median3 x0 xm xl in
  let mid := before ++ match after with
                       | [] => []
                       | _ :: _ => last after x0 :: removelast after
                       end in
  let '(l, r) := hoare (length mid) (key xm) [] mid [] in
  (x0 :: l, xm, r ++ [xl]).

(** Heapsort, the heap held as a list: [sift] lets the element at [i]
    sink below its larger child as long as that child is greater. *)
Fixpoint upd (i : nat) (x : A) (a : list A) : list A :=
  match a, i with
  | [], _ => []
  | _ :: r, O => x :: r
  | y :: r, S i' => y :: upd i' x r
  end.

Fixpoint sift (fuel : nat) (h : list A) (i : nat) : list A :=
  match fuel with
  | O => h
  | S fuel' =>
    match nth_error h i, nth_error h (2 * i + 1) with
    | Some x, Some c1 =>
      let '(j, c) :=
        match nth_error h (2 * i + 2) with
        | Some c2 => if less c1 c2 then ((2 * i + 2)%nat, c2)
                     else ((2 * i + 1)%nat, c1)
        | None => ((2 * i + 1)%nat, c1)
        end in
      if less x c then sift fuel' (upd j x (upd i c h)) j else h
    | _, _ => h
    end
  end.

Fixpoint heapify (k : nat) (h : list A) : list A :=
  match k with
  | O => h
  | S k' => heapify k' (sift (length h) h k')
  end.

(** The second loop: the root goes to the end, the last element of the
    heap takes its place and sinks. *)
Fixpoint unload (fuel : nat) (h done : list A) : list A :=
  match fuel with
  | O => h ++ done
  | S fuel' =>
    match h with
    | [] => done
    | [x] => x :: done
    | root :: t =>
      unload fuel' (sift (length t) (last t root :: removelast t) 0)
             (root :: done)
    end
  end.

Definition heapsort (seg : list A) : list A :=
  unload (length seg) (heapify (length seg / 2) seg) [].

(** The outer loop.  [popped]: the segment was taken from the stack,
    where the depth limit is tested; the smaller part of a partition is
    continued at once, without the test, and the larger one is pushed. *)
Fixpoint introsort (fuel : nat) (popped : bool) (cdepth : Z) (seg : list A)
  : list A :=
  match fuel with
  | O => seg
  | S fuel' =>
    if popped && (cdepth <? 0) then heapsort seg
    else
      match seg with
      | [] => []
      | x0 :: rest =>
        if (16 <? length rest)%nat then
          let '(l, p, r) := split_at_pivot x0 rest in
          if (length l <? length r)%nat
          then introsort fuel' false (cdepth - 1) l
               ++ p :: introsort fuel' true (cdepth - 1) r
          else introsort fuel' true (cdepth - 1) l
               ++ p :: introsort fuel' false (cdepth - 1) r
        else insertion seg
      end
  end.

Definition aquicksort (seg : list A) : list A :=
  introsort (S (length seg)) true (2 * Z.log2 (Z.of_nat (length seg))) seg.

(** *** What the proofs say of a heap *)

Definition by_key (a b : A) : Prop := key a <= key b.

Definition kat (h : list A) (i : nat) : Z :=
  match nth_error h i with
  | Some x => key x
  | None => 0
  end.

Definition child (k c : nat) : Prop :=
  c = (2 * k + 1)%nat \/ c = (2 * k + 2)%nat.

Definition heap_at (h : list A) (k : nat) : Prop :=
  forall c, child k c -> (c < length h)%nat -> kat h c <= kat h k.

Definition heap_from (h : list A) (lo : nat) : Prop :=
  forall k, (lo <= k)%nat -> (k < length h)%nat -> heap_at h k.

Definition ok_except (h : list A) (lo i : nat) : Prop :=
  forall k, (lo <= k)%nat -> (k < length h)%nat -> k <> i -> heap_at h k.

Definition grand (h : list A) (lo i : nat) : Prop :=
  forall p c, (lo <= p)%nat -> child p i -> child i c ->
              (c < length h)%nat -> kat h c <= kat h p.

End Quicksort.

(** [argsort] of the keys: the array of positions, sorted by key. *)
Definition numpy_argsort (keys : list Z) : list nat :=
  map snd (aquicksort fst (combine keys (seq 0 (length keys)))).

(** ** Reference instances of the three library functions

    [format(x, ".Nf")] of CPython: the exact binary value of [x] rounded
    half-to-even to [N] decimals.  [total_seconds] as the quotient of the
    nanosecond count by [1e9].  They serve the examples below; the
    theorems on the detectors hold for every choice. *)

Fixpoint digits_of (fuel : nat) (n : Z) (acc : str) : str :=
  match fuel with
  | O => acc
  | S f =>
    let acc' := (48 + Z.to_N (n mod 10))%N :: acc in
    if n <? 10 then acc' else digits_of f (n / 10) acc'
  end.

Definition decimal_digits (n : Z) : str :=
  digits_of (S (Z.to_nat (Z.log2 n))) n [].

Definition round_half_even (num den : Z) : Z :=
  let q := num / den in
  match 2 * (num mod den) ?= den with
  | Lt => q
  | Gt => q + 1
  | Eq => if Z.even q then q else q + 1
  end.

(** The digits of [q], read as a count of [10 ^ -d], with the point. *)
Definition place_point (d : nat) (q : Z) : str :=
  let ds := decimal_digits q in
  let ds := repeat 48%N (S d - length ds) ++ ds in
  let k := (length ds - d)%nat in
  firstn k ds ++ match d with
                 | O => []
                 | S _ => 46%N :: skipn k ds
                 end.

Definition minus (s : bool) : str := if s then lit "-" else [].

Definition format_fixed (d : nat) (x : float) : str :=
  match x with
  | S754_nan => lit "nan"
  | S754_infinity s => minus s ++ lit "inf"
  | S754_zero s => minus s ++ place_point d 0
  | S754_finite s m e =>
    minus s ++
    place_point d
      (if 0 <=? e then Z.pos m * 2 ^ e * 10 ^ Z.of_nat d
       else round_half_even (Z.pos m * 10 ^ Z.of_nat d) (2 ^ (- e)))
  end.

Definition python_format (spec : string) (x : float) : str :=
  if String.eqb spec ".1f" then format_fixed 1 x
  else if String.eqb spec ".2f" then format_fixed 2 x
  else [].

Definition seconds_by_division (nanoseconds : Z) : float :=
  SFdiv prec emax (binary_normalize prec emax nanoseconds 0 false)
        (float_lit "1e9").

(** ** Sample frames *)

Definition seconds (n : Z) : Z := n * 1000000000.

Definition reading (at_second : Z) (temp volt : string) : row :=
  mkRow (seconds at_second) (float_lit temp) (float_lit volt) (lit "X").

(** The end-to-end sequence of the specification: four readings one
    second apart, then one five seconds later. *)
Definition forced_failures : list row :=
  [reading 0 "50.00" "5.00"; reading 1 "95.50" "5.00";
   reading 2 "60.00" "6.10"; reading 3 "25.00" "5.00";
   reading 8 "55.00" "5.00"].

(** Two readings five seconds apart, and two four seconds apart. *)
Definition gap_of_five : list row :=
  [reading 0 "50.0" "5.0"; reading 5 "50.0" "5.0"].

Definition gap_of_four : list row :=
  [reading 0 "50.0" "5.0"; reading 4 "50.0" "5.0"].

(** Two readings four seconds and one nanosecond apart. *)
Definition gap_just_over_four : list row :=
  [reading 0 "50.0" "5.0";
   mkRow (seconds 4 + 1) (float_lit "50.0") (float_lit "5.0") (lit "X")].

(** A rise of exactly 15.0 degrees, and a drop of 70.5 degrees. *)
Definition rise_of_fifteen : list row :=
  [reading 0 "50.0" "5.0"; reading 1 "65.0" "5.0"].

Definition drop_of_seventy : list row :=
  [reading 0 "95.5" "5.0"; reading 1 "25.0" "5.0"].

(** Two stored records with the same timestamp. *)
Definition tied_rows : list row :=
  [reading 1 "50.0" "5.0"; reading 1 "60.0" "5.0"].

(** Eighteen records stored at the same instant, with status tokens
    [A] to [R]. *)
Definition eighteen_tied : list row :=
  map (fun n => mkRow (seconds 1) (float_lit "50.0") (float_lit "5.0")
                      [(65 + N.of_nat n)%N])
      (seq 0 18).

(** A reading at second 1 that breaches the temperature threshold, the
    voltage band and, after its predecessor, the rate of change. *)
Definition all_at_once : list row :=
  [reading 0 "20.0" "5.0"; reading 1 "95.5" "6.1"].

(** ** Order by key, then by a second criterion *)
Definition lex {A : Type} (key : A -> Z) (second : A -> A -> Prop)
  (a b : A) : Prop :=
  key a < key b \/ (key a = key b /\ second a b).

(** ** Section 4 with its files, and the whole program

    The files the engine meets: [structured_metrics.csv] (absent:
    [None]) and [anomaly_report.json] (absent: [None]); and what it
    prints. *)

(** An object of the JSON report. *)
Record json_object := mkJson {
  json_timestamp : str;
  json_type : kind;
  json_severity : severity;
  json_description : str
}.

Inductive printed :=
| Engine_started
| Successfully_loaded (records : nat)
| Anomaly_report_console
| Report_line (ts : str) (s : severity) (k : kind) (description : str)
| Successfully_generated_json
| Could_not_write_json_report
| No_anomalies_detected
| Could_not_find_the_file
| An_unexpected_error_occurred.

(** What [anomaly_report.json] holds: a report, or what is left of one
    by a write that failed after [open] had emptied the file. *)
Inductive json_file :=
| Report (objects : list json_object)
| Torn.

Record world := mkWorld {
  metrics_csv : option (list csv_line);
  report_json : option json_file;
  printed_lines : list printed
}.

Definition say (p : printed) (w : world) : world :=
  mkWorld (metrics_csv w) (report_json w) (printed_lines w ++ [p]).

(** How the [with] block that writes the report goes: it completes; or
    [open] raises, and the file is not touched; or [open] has emptied
    the file and [json.dump], or the close, raises. *)
Inductive json_result :=
| Dumped
| Json_open_fails
| Dump_fails.

(** [open('anomaly_report.json', 'w')] and [json.dump]. *)
Definition dump (data : list json_object) (w : world) : world :=
  mkWorld (metrics_csv w) (Some (Report data)) (printed_lines w).

(** The same when the write fails after the file was emptied. *)
Definition tear (w : world) : world :=
  mkWorld (metrics_csv w) (Some Torn) (printed_lines w).

Section Reporting.
Variable format_float : string -> float -> str.
Variable total_seconds : Z -> float.
Variable argsort : list Z -> list nat.

(** [Timestamp.isoformat()]. *)
Variable isoformat : Z -> str.

Definition report_line_of (a : anomaly) : printed :=
  Report_line (isoformat (anomaly_timestamp a)) (anomaly_severity a)
              (anomaly_type a) (anomaly_description a).

Definition json_of (a : anomaly) : json_object :=
  mkJson (isoformat (anomaly_timestamp a)) (anomaly_type a)
         (anomaly_severity a) (anomaly_description a).

(** The console loop of the report. *)
Fixpoint print_report (l : list anomaly) (w : world) : world :=
  match l with
  | [] => w
  | a :: r => print_report r (say (report_line_of a) w)
  end.

(** Section 4. *)
Definition generate_reports (how : json_result) (found : list anomaly)
  (w : world) : world :=
  let w1 := say Anomaly_report_console w in
  match found with
  | [] => say No_anomalies_detected w1
  | _ :: _ =>
    let sorted := sort_by_timestamp found in
    let w2 := print_report sorted w1 in
    let json_report_data := map json_of sorted in
    match how with
    | Dumped => say Successfully_generated_json (dump json_report_data w2)
    | Json_open_fails => say Could_not_write_json_report w2
    | Dump_fails => say Could_not_write_json_report (tear w2)
    end
  end.

(** The program with its two outer handlers. *)
Definition engine (how : json_result) (w : world) : world :=
  let w0 := say Engine_started w in
  match metrics_csv w with
  | None => say Could_not_find_the_file w0
  | Some file =>
    match read_csv file with
    | None => say An_unexpected_error_occurred w0
    | Some stored =>
      let df := sort_values argsort stored in
      generate_reports how
        (anomalies_found format_float total_seconds df)
        (say (Successfully_loaded (length df)) w0)
    end
  end.

End Reporting.

(** The report lines among what was printed, as JSON objects. *)
Definition lines_as_json (out : list printed) : list json_object :=
  flat_map (fun p => match p with
                     | Report_line ts s k d => [mkJson ts k s d]
                     | _ => []
                     end) out.

(** The readings of a row the detectors may look at. *)
Definition readings (r : row) : Z * float * float :=
  (timestamp r, temperature r, voltage r).

Definition leq (x y : float) : bool := SFleb x y.

(** The severity each detector gives its anomalies. *)
Definition severity_of (k : kind) : severity :=
  match k with
  | RAPID_CHANGE_TEMP => WARNING
  | _ => CRITICAL
  end.

(** A reading no threshold detector objects to: at most 80.0 degrees
    and between 4.5 and 5.5 volts, bounds included. *)
Definition in_band (r : row) : bool :=
  leq (temperature r) TEMP_THRESHOLD
  && leq VOLTAGE_THRESHOLD_LOW (voltage r)
  && leq (voltage r) VOLTAGE_THRESHOLD_HIGH.

(** When an anomaly was raised and by which detector. *)
Definition occurrence (a : anomaly) : Z * kind :=
  (anomaly_timestamp a, anomaly_type a).

End Detector.

(* ================================================================== *)
(** * emulator.py *)
(* ================================================================== *)

Module Emulator.
Import Py.

(** What the emulator does, in order. *)
Inductive action :=
| Print_started
| Print_attempting
| Print_connected
| Print_running_sequence
| Print_forcing (what : str)
| Write (data : bytes)
| Print_sent (text : str)
| Sleep (seconds : Z)
| Print_sequence_complete
| Print_could_not_open_port
| Print_exception
| Print_port_closed.

(** [f"{x:.2f}"]. *)
Definition format_2f (x : float) : str := Detector.format_fixed 2 x.

(** [f"T:{temp:.2f},V:{voltage:.2f},S:{status}\n"]. *)
Definition data_string (temp voltage : float) (status : str) : str :=
  lit "T:" ++ format_2f temp ++ lit ",V:" ++ format_2f voltage
  ++ lit ",S:" ++ status ++ [10%N].

(** The helper [send_data]; [None] stands for the exception that
    [encode] raises. *)
Definition send_data (temp voltage : float) (status : str)
  : option (list action) :=
  match encode_utf8 (data_string temp voltage status) with
  | Some data =>
    Some [Write data; Print_sent (strip (data_string temp voltage status));
          Sleep 1]
  | None => None
  end.

(** The steps of the forced failure sequence, each either a call of
    [send_data] or plain actions. *)
Inductive step :=
| Send (temp voltage : string) (status : string)
| Do (a : action).

Definition forced_failure_sequence : list step :=
  [Do Print_running_sequence;
   Send "50.0" "5.0" "NORMAL";
   Send "52.0" "5.1" "NORMAL";
   Do (Print_forcing (lit "Temperature"));
   Send "95.5" "5.0" "FORCED_TEMP_HIGH";
   Do (Print_forcing (lit "Voltage"));
   Send "60.0" "6.1" "FORCED_VOLTAGE_SPIKE";
   Do (Print_forcing (lit "Rate of Change"));
   Send "25.0" "5.0" "FORCED_ROC_DROP";
   Do (Print_forcing (lit "Heartbeat Loss"));
   Do (Sleep 5);
   Send "55.0" "5.0" "RECONNECTED";
   Do Print_sequence_complete].

(** The body of the [try] after the port is open: the actions done, and
    whether an exception cut them short. *)
Fixpoint run (steps : list step) : list action * bool :=
  match steps with
  | [] => ([], false)
  | Do a :: rest => let '(done, raised) := run rest in (a :: done, raised)
  | Send t v s :: rest =>
    match send_data (float_lit t) (float_lit v) (lit s) with
    | Some acts => let '(done, raised) := run rest in (acts ++ done, raised)
    | None => ([], true)
    end
  end.

(** The program, for a port that takes every write and with no
    interrupt from the keyboard: the handler of [except Exception] prints
    the port message and the exception, whatever was raised; [finally]
    closes the port if it was opened. *)
Definition main (port_opens : bool) : list action :=
  [Print_started; Print_attempting] ++
  if port_opens then
    let '(done, raised) := run forced_failure_sequence in
    [Print_connected] ++ done
    ++ (if raised then [Print_could_not_open_port; Print_exception] else [])
    ++ [Print_port_closed]
  else [Print_could_not_open_port; Print_exception].

(** The chunks written to the port. *)
Definition written (acts : list action) : list bytes :=
  flat_map (fun a => match a with Write data => [data] | _ => [] end) acts.

(** A status token that survives the wire: no comma, colon or line
    feed, encodable, and not ending in white space. *)
Definition plain (c : char) : bool :=
  scalar c && negb (c =? 44) && negb (c =? 58) && negb (c =? 10).

Definition clean_status (status : str) : bool :=
  forallb plain status
  && match rev status with
     | [] => true
     | c :: _ => negb (isspace c)
     end.

(** The values of a run of digit characters. *)
Definition digit_values (s : str) : list N := map (fun c => c - 48) s.

(** The count of hundredths nearest to a finite value [m * 2 ^ e],
    ties to even. *)
Definition hundredths (m : positive) (e : Z) : Z :=
  if (0 <=? e)%Z then (Z.pos m * 2 ^ e * 10 ^ 2)%Z
  else Detector.round_half_even (Z.pos m * 10 ^ 2) (2 ^ (- e)).

(** A float after the trip through [f"{x:.2f}"] and [float]: the
    binary64 number nearest to the value rounded to two decimals;
    zeros, infinities and NaN come back as they are. *)
Definition two_decimals (x : float) : float :=
  match x with
  | S754_finite s m e => decimal_to_float s (hundredths m e) (-2)
  | _ => x
  end.

(** The line of a reading, without its line feed. *)
Definition line_of (temp voltage : float) (status : str) : str :=
  lit "T:" ++ format_2f temp ++ lit ",V:" ++ format_2f voltage
  ++ lit ",S:" ++ status.

(** The last character of [s], if any, is not one that [sp] strips. *)
Definition ends_well (sp : char -> bool) (s : str) : Prop :=
  match rev s with
  | [] => True
  | c :: _ => sp c = false
  end.

(** The characters of a formatted number: a sign, digits, a point, or
    the letters of [inf] and [nan]. *)
Definition numeric (c : char) : Prop :=
  (45 <= c <= 57 \/ 97 <= c <= 110)%N.

(** The chunks of a run as the logger reads them, one per clock
    reading, with no sink failing. *)
Definition received (chunks : list bytes) (clock : list Z)
  : list Logger.event :=
  map (fun dc => Logger.Readline (fst dc) (snd dc) Logger.no_faults)
      (combine chunks clock).

(** The readings the sequence sends, as the calls give them. *)
Definition readings_sent : list (float * float * str) :=
  flat_map (fun st => match st with
                      | Send t v s => [(float_lit t, float_lit v, lit s)]
                      | Do _ => []
                      end) forced_failure_sequence.

(** A reading stamped with its arrival time. *)
Definition stamped (cr : Z * (float * float * str)) : Store.row :=
  let '(now, (t, v, s)) := cr in Store.mkRow now t v s.

(** What the logger makes of a chunk up to the parse: nothing when the
    chunk does not decode or strips to the empty line, else the result of
    the parse. *)
Definition outcome (data : bytes)
  : option (Logger.result (float * float * str)) :=
  match decode_utf8 data with
  | Some text =>
    match strip text with
    | [] => None
    | c :: l => Some (Logger.parse_fields (c :: l))
    end
  | None => None
  end.

(** The logger decodes the chunk to a non-empty line that parses to the
    reading. *)
Definition accepted (data : bytes) (reading : float * float * str) : Prop :=
  outcome data = Some (Logger.Ok reading).

End Emulator.

(* ================================================================== *)
(** * Properties of the logger *)
(* ================================================================== *)

Module LoggerProperties.
Import Py Store Logger.

(** ** Splitting and field values *)

Lemma split_head (s : str) :
  exists rest, split (chr ":") s = until_colon s :: rest.
Proof.
  induction s as [|c r [rest IH]]; simpl.
  - now exists [].
  - simpl in IH. destruct (c =? _).
    + eexists; reflexivity.
    + rewrite IH. eexists; reflexivity.
Qed.

(** After a two-character prefix that ends in a colon, index 1 of the
    colon split is the text up to the next colon. *)
Lemma item_1_of_prefixed (a : char) (f : str) :
  a <> chr ":" ->
  startswith f [a; chr ":"] = true ->
  item (split (chr ":") f) 1 = Ok (value_of f).
Proof.
  intros Ha H.
  destruct f as [|x [|y r]]; cbn [startswith] in H;
    try (rewrite ?andb_false_r in H; discriminate).
  apply andb_true_iff in H as [Hx H].
  apply andb_true_iff in H as [Hy _].
  apply N.eqb_eq in Hx, Hy. subst x y.
  unfold value_of, remainder. cbn [skipn split].
  destruct (a =? chr ":") eqn:E; [apply N.eqb_eq in E; contradiction|].
  rewrite N.eqb_refl.
  destruct (split_head r) as [rest Hr]. rewrite Hr.
  reflexivity.
Qed.

Lemma well_shaped_fields (line : str) :
  well_shaped line = true ->
  length (split (chr ",") line) = 3%nat
  /\ startswith (field 0 line) (lit "T:") = true
  /\ startswith (field 1 line) (lit "V:") = true
  /\ startswith (field 2 line) (lit "S:") = true.
Proof.
  unfold well_shaped, field.
  destruct (split (chr ",") line) as [|f1 [|f2 [|f3 [|f4 r]]]];
    try discriminate.
  intros H. apply andb_true_iff in H as [H H3].
  apply andb_true_iff in H as [H1 H2]. now simpl.
Qed.

Lemma not_well_shaped_raises (line : str) :
  well_shaped line = false ->
  parse_fields line = Raise (ValueError (Malformed_data_structure line)).
Proof.
  unfold well_shaped, parse_fields.
  destruct (split (chr ",") line) as [|f1 [|f2 [|f3 [|f4 r]]]];
    try reflexivity.
  intros H. cbn [length nth Nat.eqb andb]. now rewrite H.
Qed.

(** The conversions of the [try] block, in closed form. *)
Lemma parse_fields_well_shaped (line : str) :
  well_shaped line = true ->
  parse_fields line =
    (temp_float <- float (value_of (field 0 line)) ;;
     volt_float <- float (value_of (field 1 line)) ;;
     Ok (temp_float, volt_float, value_of (field 2 line))).
Proof.
  intros W. destruct (well_shaped_fields line W) as (L & H0 & H1 & H2).
  unfold parse_fields. fold (field 0 line) (field 1 line) (field 2 line).
  rewrite L, H0, H1, H2. simpl andb. cbv iota.
  rewrite (item_1_of_prefixed (chr "T") (field 0 line)); [|discriminate|exact H0].
  rewrite (item_1_of_prefixed (chr "V") (field 1 line)); [|discriminate|exact H1].
  rewrite (item_1_of_prefixed (chr "S") (field 2 line)); [|discriminate|exact H2].
  reflexivity.
Qed.

(** The conversions never raise anything but a [ValueError], and succeed
    exactly where [parse_as_coded] yields a record. *)
Lemma parse_fields_coded (line : str) :
  match parse_as_coded line with
  | Some r => parse_fields line = Ok r
  | None => exists m, parse_fields line = Raise (ValueError m)
  end.
Proof.
  unfold parse_as_coded.
  destruct (well_shaped line) eqn:W.
  - rewrite (parse_fields_well_shaped line W). unfold float.
    destruct (float_of_str (value_of (field 0 line))); simpl.
    + destruct (float_of_str (value_of (field 1 line))); simpl; eauto.
    + eauto.
  - rewrite (not_well_shaped_raises line W). eauto.
Qed.

(** ** The wire grammar *)

Lemma parse_fields_characterised :
  forall line : str,
    (forall t v s,
        parse_fields line = Ok (t, v, s) <->
        (well_shaped line = true
         /\ float_of_str (value_of (field 0 line)) = Some t
         /\ float_of_str (value_of (field 1 line)) = Some v
         /\ s = value_of (field 2 line)))
    /\ ((exists r, parse_fields line = Ok r)
        \/ (exists m, parse_fields line = Raise (ValueError m))).
Proof.
  intros line. pose proof (parse_fields_coded line) as P.
  unfold parse_as_coded in P. split.
  - intros t v s. destruct (well_shaped line).
    + destruct (float_of_str (value_of (field 0 line))) as [t'|].
      * destruct (float_of_str (value_of (field 1 line))) as [v'|].
        -- rewrite P. split.
           ++ intros [= <- <- <-]. auto.
           ++ intros (_ & [= ->] & [= ->] & ->). reflexivity.
        -- destruct P as [m P]. rewrite P. split; [discriminate|].
           intros (_ & _ & H & _). discriminate.
      * destruct P as [m P]. rewrite P. split; [discriminate|].
        intros (_ & H & _). discriminate.
    + destruct P as [m P]. rewrite P. split; [discriminate|].
      intros (H & _). discriminate.
  - destruct (well_shaped line);
      [destruct (float_of_str (value_of (field 0 line)));
       [destruct (float_of_str (value_of (field 1 line)))|]|]; eauto.
Qed.

(** C2, as amended.  Parsing succeeds exactly when the line splits on
    commas into three fields with the prefixes [T:], [V:] and [S:] and
    [float] accepts, for fields 1 and 2, the text between the prefix and
    the next colon (or the end of the field); the status token is then the
    text of field 3 between [S:] and the next colon (or the end of the
    field).  In every other case the conversions raise a [ValueError]. *)
Theorem parse_succeeds_iff_coded_grammar :
  forall line : str,
    (forall t v s,
        parse_fields line = Ok (t, v, s) <->
        (well_shaped line = true
         /\ float_of_str (value_of (field 0 line)) = Some t
         /\ float_of_str (value_of (field 1 line)) = Some v
         /\ s = value_of (field 2 line)))
    /\ ((exists r, parse_fields line = Ok r)
        \/ (exists m, parse_fields line = Raise (ValueError m))).
Proof.
  exact parse_fields_characterised.
Qed.

(** C2 fails as stated.  In [T:1:x,V:2,S:a:b] the remainder [1:x] of
    field 1 is no number, yet the line parses, and the status token is [a],
    not the remainder [a:b]; in [T:1,V:2,S:a:b] both readings accept the
    line and disagree on the status token. *)
Lemma parse_takes_text_up_to_next_colon :
  (exists t v, parse_fields (lit "T:1:x,V:2,S:a:b") = Ok (t, v, lit "a"))
  /\ parse_as_specified (lit "T:1:x,V:2,S:a:b") = None
  /\ (exists t v,
         parse_fields (lit "T:1,V:2,S:a:b") = Ok (t, v, lit "a")
         /\ parse_as_specified (lit "T:1,V:2,S:a:b") = Some (t, v, lit "a:b"))
  /\ lit "a" <> lit "a:b".
Proof.
  split; [|split; [|split]].
  - do 2 eexists. vm_compute. reflexivity.
  - vm_compute. reflexivity.
  - do 2 eexists. split; vm_compute; reflexivity.
  - discriminate.
Qed.

(** ** One line through the [try] block and its handler *)

Lemma parse_and_store_ok now io line st t v s :
  parse_fields line = Ok (t, v, s) ->
  parse_and_store now io line st =
    if csv_fails io then (st, Some OSError)
    else (print (Logged (mkRow now t v s))
                (write_csv (Row (mkRow now t v s)) st), None).
Proof.
  intros H. unfold parse_and_store, try_block. rewrite H. simpl.
  now destruct (csv_fails io).
Qed.

Lemma parse_and_store_value_error now io line st m :
  parse_fields line = Raise (ValueError m) ->
  parse_and_store now io line st =
    (parse_error_handler now io line (ValueError m) st, None).
Proof.
  intros H. unfold parse_and_store, try_block. now rewrite H.
Qed.

Lemma parse_error_handler_csv now io line e st :
  csv_file (parse_error_handler now io line e st) = csv_file st.
Proof.
  unfold parse_error_handler. now destruct (error_fails io).
Qed.

Lemma parse_error_handler_console now io line e st :
  In (Failed_to_parse line) (console (parse_error_handler now io line e st)).
Proof.
  unfold parse_error_handler.
  destruct (error_fails io); simpl; rewrite ?in_app_iff; simpl; auto.
Qed.

Lemma parse_error_handler_log now io line e st :
  error_fails io = false ->
  error_log (parse_error_handler now io line e st)
  = error_log st ++ [mkError now e].
Proof.
  unfold parse_error_handler. now intros ->.
Qed.

Lemma value_error_rejected now io line st m :
  parse_fields line = Raise (ValueError m) -> rejected now io line st.
Proof.
  intros H. unfold rejected.
  rewrite (parse_and_store_value_error now io line st m H). simpl.
  repeat split.
  - apply parse_error_handler_csv.
  - apply parse_error_handler_console.
  - intros E. exists m. now apply parse_error_handler_log.
Qed.

(** C3, as amended.  A line adds at most one record to the store, and the
    temperature and voltage of that record are exactly what [float]
    returns for the two fields (finite or not); a line whose temperature
    or voltage text [float] rejects is recorded as a parse error and adds
    no record. *)
Theorem stored_values_are_float_results :
  forall (now : Z) (io : faults) (line : str) (st : state),
    (csv_file (fst (parse_and_store now io line st)) = csv_file st
     \/ exists t v,
         float_of_str (value_of (field 0 line)) = Some t
         /\ float_of_str (value_of (field 1 line)) = Some v
         /\ csv_file (fst (parse_and_store now io line st))
            = csv_file st ++ [Row (mkRow now t v (value_of (field 2 line)))])
    /\ (float_of_str (value_of (field 0 line)) = None
        \/ float_of_str (value_of (field 1 line)) = None ->
        rejected now io line st).
Proof.
  intros now io line st.
  destruct (parse_fields_characterised line) as [Hiff Htot].
  split.
  - destruct Htot as [[[[t v] s] Hok]|[m Hm]].
    + rewrite (parse_and_store_ok now io line st t v s Hok).
      apply Hiff in Hok as (_ & Ht & Hv & ->).
      destruct (csv_fails io); simpl; [now left|].
      right. exists t, v. auto.
    + left. rewrite (parse_and_store_value_error now io line st m Hm).
      apply parse_error_handler_csv.
  - intros Hnone.
    destruct Htot as [[[[t v] s] Hok]|[m Hm]].
    + apply Hiff in Hok as (_ & Ht & Hv & _).
      destruct Hnone as [H|H]; congruence.
    + now apply value_error_rejected with m.
Qed.

Lemma stored_values_are_float_results_witness :
  float_of_str (value_of (field 0 (lit "T:abc,V:5.0,S:X"))) = None
  /\ rejected 7 no_faults (lit "T:abc,V:5.0,S:X") fresh.
Proof.
  split.
  - vm_compute. reflexivity.
  - apply (stored_values_are_float_results 7 no_faults
             (lit "T:abc,V:5.0,S:X") fresh).
    left. vm_compute. reflexivity.
Defined.

(** C3 fails as stated.  The line [T:inf,V:5.0,S:X] is stored as a
    record whose temperature is infinite, and [T:1e999,V:nan,S:X] as one
    whose temperature and voltage are both non-finite. *)
Lemma non_finite_values_are_stored :
  (exists r,
      fst (iteration (Readline (encode_ascii "T:inf,V:5.0,S:X" ++ newline)
                               7 no_faults) fresh)
      = mkState [mkRaw 7 (lit "T:inf,V:5.0,S:X")] [Row r] [] [Logged r]
      /\ isfinite (temperature r) = false)
  /\ (exists r,
      csv_file (fst (iteration
                       (Readline (encode_ascii "T:1e999,V:nan,S:X" ++ newline)
                                 7 no_faults) fresh))
      = [Row r]
      /\ isfinite (temperature r) = false /\ isfinite (voltage r) = false).
Proof.
  split; eexists; (split; [vm_compute; reflexivity|]); simpl; auto.
Qed.

(** C10.  When a piece of the comma split other than the first begins
    with a white-space character (a comma followed by white space), the
    line is rejected as malformed, whatever the fields hold: no record
    is stored and a parse error is recorded. *)
Theorem space_after_comma_rejected :
  forall (now : Z) (io : faults) (line : str) (st : state)
         (i : nat) (c : char) (rest : str),
    (1 <= i)%nat ->
    nth_error (split (chr ",") line) i = Some (c :: rest) ->
    isspace c = true ->
    parse_fields line = Raise (ValueError (Malformed_data_structure line))
    /\ rejected now io line st.
Proof.
  intros now io line st i c rest Hi Hnth Hsp.
  assert (W : well_shaped line = false).
  { unfold well_shaped.
    destruct (split (chr ",") line) as [|f1 [|f2 [|f3 [|f4 r]]]];
      try reflexivity.
    destruct i as [|[|[|i]]]; simpl in Hnth; try lia.
    - injection Hnth as ->.
      destruct (startswith (c :: rest) (lit "V:")) eqn:E;
        [|now rewrite andb_false_r].
      cbn [startswith lit] in E. apply andb_true_iff in E as [E _].
      apply N.eqb_eq in E. subst c. discriminate Hsp.
    - injection Hnth as ->.
      destruct (startswith (c :: rest) (lit "S:")) eqn:E;
        [|now rewrite andb_false_r].
      cbn [startswith lit] in E. apply andb_true_iff in E as [E _].
      apply N.eqb_eq in E. subst c. discriminate Hsp.
    - destruct i; discriminate. }
  pose proof (not_well_shaped_raises line W) as H.
  split; [exact H|]. now apply value_error_rejected with (1 := H).
Qed.

Lemma space_after_comma_rejected_witness :
  parse_fields (lit "T:50.0, V:5.0,S:OK")
  = Raise (ValueError (Malformed_data_structure (lit "T:50.0, V:5.0,S:OK")))
  /\ rejected 7 no_faults (lit "T:50.0, V:5.0,S:OK") fresh.
Proof.
  apply (space_after_comma_rejected 7 no_faults (lit "T:50.0, V:5.0,S:OK")
           fresh 1 (chr " ") (lit "V:5.0")).
  - lia.
  - vm_compute. reflexivity.
  - vm_compute. reflexivity.
Defined.

(** ** The loop *)

Lemma undecodable_leaves_loop data now io rest st :
  decode_utf8 data = None ->
  loop (Readline data now io :: rest) st = (st, Some UnicodeDecodeError).
Proof.
  intros H. simpl. now rewrite H.
Qed.

(** A failing raw log or error log never ends the loop: without a fault
    on the CSV file, a decodable line always lets the loop go on. *)
Lemma guarded_sinks_recover data now io st :
  decode_utf8 data <> None ->
  csv_fails io = false ->
  snd (iteration (Readline data now io) st) = None.
Proof.
  intros Hd Hc. simpl.
  destruct (decode_utf8 data) as [text|]; [|contradiction].
  destruct (strip text) as [|c r] eqn:E; [reflexivity|].
  destruct (parse_fields_characterised (c :: r)) as [_ [[[[t v] s] H]|[m H]]].
  - rewrite (parse_and_store_ok _ _ _ _ _ _ _ H), Hc. reflexivity.
  - now rewrite (parse_and_store_value_error _ _ _ _ _ H).
Qed.

(** C1: the claim is right and the code is wrong.  A line that is not
    UTF-8 raises [UnicodeDecodeError] outside the inner [try]; neither
    outer handler names it, so the service ends: no parse error is
    recorded and the valid reading that follows is never processed. *)
Theorem decode_failure_ends_service :
  main (mkSession Created true
          [Readline undecodable 10 no_faults;
           Readline good_reading 20 no_faults]) fresh
  = (mkState [] [Header columns_of_store] []
       [Csv_created_with_headers; Logger_service_started;
        Serial_port_closed],
     UNCAUGHT UnicodeDecodeError).
Proof.
  vm_compute. reflexivity.
Qed.

(** C4: the claim is right and the code is wrong.  The appends to the
    raw log and to the error log are guarded by [except Exception], the
    append to the CSV file is not: its [OSError] passes the handler of
    [(ValueError, IndexError)] and both outer handlers, so the service
    ends and the next reading is never processed. *)
Theorem csv_failure_ends_service :
  main (mkSession Created true
          [Readline good_reading 10 (mkFaults false true false);
           Readline good_reading 20 no_faults]) fresh
  = (mkState [mkRaw 10 (lit "T:50.0,V:5.0,S:OK")]
       [Header columns_of_store] []
       [Csv_created_with_headers; Logger_service_started;
        Serial_port_closed],
     UNCAUGHT OSError).
Proof.
  vm_compute. reflexivity.
Qed.

(** The same session with the faults on the two guarded sinks instead:
    the service keeps running and stores the second reading. *)
Lemma raw_and_error_log_failures_recovered :
  exists st,
    main (mkSession Created true
            [Readline (encode_ascii "garbage" ++ newline) 10
                      (mkFaults true false true);
             Readline good_reading 20 no_faults]) fresh
    = (st, RUNNING)
    /\ csv_file st
       = [Header columns_of_store;
          Row (mkRow 20 (float_lit "50.0") (float_lit "5.0") (lit "OK"))]
    /\ In Error_writing_to_raw_log (console st)
    /\ In Error_writing_to_error_log (console st).
Proof.
  eexists. split; [vm_compute; reflexivity|].
  split; [vm_compute; reflexivity|]. simpl. intuition.
Qed.

(** ** The structured store *)






End LoggerProperties.

(* ================================================================== *)
(** * Properties of the detector *)
(* ================================================================== *)

Module DetectorProperties.
Import Py Store Detector.

Local Open Scope Z_scope.

(** ** Insertion sort *)

Section InsertionFacts.
Context {A : Type}.
Variable key : A -> Z.
Variable before : Z -> Z -> bool.

Lemma insert_perm (a : A) (l : list A) :
  Permutation (insert key before a l) (a :: l).
Proof.
  induction l as [|b r IH]; simpl; [reflexivity|].
  destruct (before (key a) (key b)); [reflexivity|].
  rewrite IH. apply perm_swap.
Qed.

Lemma isort_perm (l : list A) : Permutation (isort key before l) l.
Proof.
  induction l as [|a r IH]; simpl; [reflexivity|].
  rewrite insert_perm. now constructor.
Qed.

Hypothesis before_true : forall x y, before x y = true -> x <= y.
Hypothesis before_false : forall x y, before x y = false -> y <= x.

Lemma insert_sorted (a : A) (l : list A) :
  StronglySorted (fun a b => key a <= key b) l -> StronglySorted (fun a b => key a <= key b) (insert key before a l).
Proof.
  induction 1 as [|b r Hs IH Hb]; simpl.
  - repeat constructor.
  - destruct (before (key a) (key b)) eqn:E.
    + apply before_true in E.
      constructor; [now constructor|].
      constructor; [exact E|].
      eapply Forall_impl; [|exact Hb]. cbv beta. intros; lia.
    + apply before_false in E.
      constructor; [exact IH|].
      eapply Permutation_Forall; [symmetry; apply insert_perm|].
      constructor; [exact E|exact Hb].
Qed.

Lemma isort_sorted (l : list A) : StronglySorted (fun a b => key a <= key b) (isort key before l).
Proof.
  induction l as [|a r IH]; simpl; [constructor|].
  now apply insert_sorted.
Qed.

End InsertionFacts.

(** With [<=] as the test the sort is stable: the elements of any one
    key keep their order. *)
Lemma insert_leb_filter {A : Type} (key : A -> Z) (t : Z) (a : A) (l : list A) :
  filter (fun x => key x =? t) (insert key Z.leb a l)
  = filter (fun x => key x =? t) (a :: l).
Proof.
  induction l as [|b r IH]; [reflexivity|].
  cbn [insert]. destruct (key a <=? key b) eqn:E; [reflexivity|].
  apply Z.leb_gt in E.
  cbn [filter] in *. rewrite IH.
  destruct (key a =? t) eqn:Ea, (key b =? t) eqn:Eb; try reflexivity.
  apply Z.eqb_eq in Ea, Eb. lia.
Qed.

Lemma isort_leb_stable {A : Type} (key : A -> Z) (t : Z) (l : list A) :
  filter (fun x => key x =? t) (isort key Z.leb l)
  = filter (fun x => key x =? t) l.
Proof.
  induction l as [|a r IH]; [reflexivity|].
  cbn [isort]. rewrite insert_leb_filter. cbn [filter]. now rewrite IH.
Qed.

(** Stable sorting of a list already ordered by a second criterion
    yields the lexicographic order of key, then criterion. *)
Section Lexicographic.
Context {A : Type}.
Variable key : A -> Z.
Variable second : A -> A -> Prop.

Lemma lex_key (a b : A) : lex key second a b -> key a <= key b.
Proof. unfold lex. lia. Qed.

Lemma insert_lex (a : A) (l : list A) :
  StronglySorted (lex key second) l -> Forall (second a) l ->
  StronglySorted (lex key second) (insert key Z.leb a l).
Proof.
  induction 1 as [|b r Hs IH Hb]; intros Ha; simpl.
  - repeat constructor.
  - inversion Ha as [|? ? Hab Har]; subst.
    destruct (key a <=? key b) eqn:E.
    + apply Z.leb_le in E.
      constructor; [now constructor|].
      constructor.
      * unfold lex. destruct (Z.eq_dec (key a) (key b)); [right|left];
          auto; lia.
      * rewrite Forall_forall in *. intros x Hx.
        specialize (Hb x Hx). apply lex_key in Hb. specialize (Har x Hx).
        unfold lex. destruct (Z.eq_dec (key a) (key x)); [right|left];
          auto; lia.
    + apply Z.leb_gt in E.
      constructor; [now apply IH|].
      eapply Permutation_Forall; [symmetry; apply insert_perm|].
      constructor; [left; exact E|exact Hb].
Qed.

Lemma isort_lex (l : list A) :
  StronglySorted second l -> StronglySorted (lex key second) (isort key Z.leb l).
Proof.
  induction 1 as [|a r Hs IH Ha]; simpl; [constructor|].
  apply insert_lex; [exact IH|].
  eapply Permutation_Forall; [symmetry; apply isort_perm|exact Ha].
Qed.

End Lexicographic.

Lemma StronglySorted_nth {A : Type} (R : A -> A -> Prop) (l : list A) :
  StronglySorted R l ->
  forall i j a b, (i < j)%nat ->
    nth_error l i = Some a -> nth_error l j = Some b -> R a b.
Proof.
  induction 1 as [|x r Hs IH Hx]; intros i j a b Hij Hi Hj.
  - destruct i; discriminate.
  - destruct j as [|j]; [lia|]. simpl in Hj.
    destruct i as [|i]; simpl in Hi.
    + injection Hi as ->. apply nth_error_In in Hj.
      rewrite Forall_forall in Hx. now apply Hx.
    + apply (IH i j); auto. lia.
Qed.

Lemma StronglySorted_weaken {A : Type} (R S : A -> A -> Prop) (l : list A) :
  (forall a b, R a b -> S a b) -> StronglySorted R l -> StronglySorted S l.
Proof.
  intros H. induction 1 as [|x r Hs IH Hx]; constructor; auto.
  eapply Forall_impl; [|exact Hx]. auto.
Qed.

Lemma StronglySorted_app {A : Type} (R : A -> A -> Prop) (l1 l2 : list A) :
  StronglySorted R l1 -> StronglySorted R l2 ->
  (forall a b, In a l1 -> In b l2 -> R a b) ->
  StronglySorted R (l1 ++ l2).
Proof.
  induction 1 as [|x r Hs IH Hx]; intros H2 H12; simpl; [exact H2|].
  constructor.
  - apply IH; [exact H2|]. intros a b Ha Hb. apply H12; simpl; auto.
  - apply Forall_app. split; [exact Hx|].
    rewrite Forall_forall. intros b Hb. apply H12; simpl; auto.
Qed.

(** ** Scans over adjacent pairs *)

Lemma flat_map_seq_shift {B : Type} (g h : nat -> list B) (n : nat) :
  forall a, (forall i, (a <= i)%nat -> g (S i) = h i) ->
            flat_map g (seq (S a) n) = flat_map h (seq a n).
Proof.
  induction n as [|n IH]; intros a H; [reflexivity|].
  cbn [seq flat_map]. rewrite H by lia. f_equal.
  apply IH. intros i Hi. apply H. lia.
Qed.

Lemma at_pair_cons {B : Type} (f : row -> row -> list B) p l i :
  (1 <= i)%nat -> at_pair f (p :: l) (S i) = at_pair f l i.
Proof.
  intros Hi. unfold at_pair. destruct i as [|j]; [lia|].
  cbn [Nat.sub nth_error]. now rewrite Nat.sub_0_r.
Qed.

Lemma adjacent_at_pair {B : Type} (f : row -> row -> list B) rest :
  forall p,
    adjacent f p rest
    = flat_map (at_pair f (p :: rest)) (seq 1 (length rest)).
Proof.
  induction rest as [|c r IH]; intros p; [reflexivity|].
  cbn [adjacent length seq flat_map]. f_equal.
  rewrite IH. symmetry. apply flat_map_seq_shift.
  intros i Hi. now apply at_pair_cons.
Qed.

Section Pairwise.
Variable format_float : string -> float -> str.
Variable total_seconds : Z -> float.

Lemma roc_scan rest :
  forall p,
    map (roc_details format_float)
        (filter (fun rc => gt (abs (snd rc)) TEMP_RATE_OF_CHANGE_THRESHOLD)
                (combine rest (diff_from (temperature p)
                                         (map temperature rest))))
    = adjacent (roc_between format_float) p rest.
Proof.
  induction rest as [|c r IH]; intros p; [reflexivity|].
  cbn [map diff_from combine filter adjacent snd].
  unfold roc_between at 1. cbv zeta.
  destruct (gt (abs (sub (temperature c) (temperature p))) _).
  - cbn [map app]. now rewrite IH.
  - now rewrite IH.
Qed.

Lemma roc_detector_specified df :
  roc_detector format_float df = roc_as_specified format_float df.
Proof.
  unfold roc_detector, roc_anomalies, with_temp_change, roc_as_specified.
  destruct df as [|r0 rest]; [reflexivity|].
  cbn [map diff combine filter snd].
  replace (gt (abs nan) TEMP_RATE_OF_CHANGE_THRESHOLD) with false
    by reflexivity.
  rewrite roc_scan, adjacent_at_pair.
  replace (length (r0 :: rest) - 1)%nat with (length rest)
    by (cbn [length]; lia).
  reflexivity.
Qed.

Lemma heartbeat_scan rest :
  forall p,
    map (heartbeat_details format_float total_seconds)
        (filter (fun rd => exceeds_timeout (snd rd))
                (combine rest (time_diff_from (timestamp p)
                                              (map timestamp rest))))
    = adjacent (heartbeat_between format_float total_seconds) p rest.
Proof.
  induction rest as [|c r IH]; intros p; [reflexivity|].
  cbn [map time_diff_from combine filter adjacent snd exceeds_timeout].
  unfold heartbeat_between at 1. cbv zeta.
  destruct (timedelta HEARTBEAT_TIMEOUT_SECONDS <? timestamp c - timestamp p).
  - cbn [map app]. now rewrite IH.
  - now rewrite IH.
Qed.

Lemma heartbeat_detector_specified df :
  heartbeat_detector format_float total_seconds df
  = heartbeat_as_specified format_float total_seconds df.
Proof.
  unfold heartbeat_detector, heartbeat_anomalies, with_time_diff,
    heartbeat_as_specified.
  destruct df as [|r0 rest]; [reflexivity|].
  cbn [map time_diff combine filter snd exceeds_timeout].
  rewrite heartbeat_scan, adjacent_at_pair.
  replace (length (r0 :: rest) - 1)%nat with (length rest)
    by (cbn [length]; lia).
  reflexivity.
Qed.

End Pairwise.

(** C7.  The heartbeat detector emits, pair by pair in frame order, what
    the adjacent pairs (i-1, i), i >= 1, contribute; a pair contributes
    exactly one CRITICAL HEARTBEAT_LOSS anomaly, stamped with
    [timestamp i] and describing the gap in seconds to one decimal,
    exactly when the gap is strictly greater than four seconds (the
    timestamps count nanoseconds), and nothing otherwise.  So a gap of
    exactly four seconds stays silent, one nanosecond more is reported,
    and a gap of five seconds is reported as 5.0 seconds. *)
Theorem heartbeat_fires_iff_gap_exceeds_timeout :
  (forall (format_float : string -> float -> str)
          (total_seconds : Z -> float) (df : list row),
      heartbeat_detector format_float total_seconds df
      = flat_map (heartbeat_of_pair format_float total_seconds df)
                 (seq 1 (length df - 1))
      /\ forall (i : nat) (p c : row),
          (1 <= i)%nat ->
          nth_error df (i - 1) = Some p ->
          nth_error df i = Some c ->
          (heartbeat_of_pair format_float total_seconds df i
           = [mkAnomaly (timestamp c) HEARTBEAT_LOSS CRITICAL
                (lit "No data received for "
                 ++ format_float ".1f"%string
                      (total_seconds (timestamp c - timestamp p))
                 ++ lit " seconds. Device may be offline.")]
           <-> 4 * 1000000000 < timestamp c - timestamp p)
          /\ (heartbeat_of_pair format_float total_seconds df i = []
              <-> timestamp c - timestamp p <= 4 * 1000000000))
  /\ heartbeat_detector python_format seconds_by_division gap_of_four = []
  /\ heartbeat_detector python_format seconds_by_division gap_just_over_four
     = [mkAnomaly (4 * 1000000000 + 1) HEARTBEAT_LOSS CRITICAL
          (lit "No data received for 4.0 seconds. Device may be offline.")]
  /\ heartbeat_detector python_format seconds_by_division gap_of_five
     = [mkAnomaly (5 * 1000000000) HEARTBEAT_LOSS CRITICAL
          (lit "No data received for 5.0 seconds. Device may be offline.")].
Proof.
  split; [|repeat split; vm_compute; reflexivity].
  intros format_float total_seconds df. split.
  - apply heartbeat_detector_specified.
  - intros i p c _ Hp Hc.
    unfold heartbeat_of_pair, at_pair. rewrite Hp, Hc.
    unfold heartbeat_between, heartbeat_description, timedelta,
      HEARTBEAT_TIMEOUT_SECONDS. cbv zeta.
    destruct (4 * 1000000000 <? timestamp c - timestamp p) eqn:E.
    + apply Z.ltb_lt in E. repeat split; auto; try discriminate; lia.
    + apply Z.ltb_ge in E. repeat split; auto; try discriminate; lia.
Qed.

Lemma heartbeat_fires_iff_gap_exceeds_timeout_witness :
  heartbeat_of_pair python_format seconds_by_division gap_of_five 1
  = [mkAnomaly (seconds 5) HEARTBEAT_LOSS CRITICAL
       (lit "No data received for "
        ++ python_format ".1f"%string (seconds_by_division (seconds 5 - seconds 0))
        ++ lit " seconds. Device may be offline.")].
Proof.
  apply (proj2 (proj1 heartbeat_fires_iff_gap_exceeds_timeout
                  python_format seconds_by_division gap_of_five)
               1%nat (reading 0 "50.0" "5.0") (reading 5 "50.0" "5.0")).
  - lia.
  - reflexivity.
  - reflexivity.
  - vm_compute. reflexivity.
Defined.

(** C8.  The rate-of-change detector emits, pair by pair in frame order,
    what the adjacent pairs (i-1, i), i >= 1, contribute; a pair
    contributes one WARNING RAPID_CHANGE_TEMP anomaly, stamped with
    [timestamp i] and describing the signed difference to two decimals,
    exactly when the absolute value of the binary64 difference of the
    two temperatures is strictly greater than 15.0, and nothing
    otherwise.  A frame of one record yields nothing: the first record
    has no predecessor.  So a rise of exactly 15.0 degrees stays silent,
    and the drop from 95.5 to 25.0 is reported as -70.50 degrees. *)
Theorem roc_fires_iff_change_exceeds_threshold :
  (forall (format_float : string -> float -> str) (df : list row),
      roc_detector format_float df
      = flat_map (roc_of_pair format_float df) (seq 1 (length df - 1))
      /\ (forall first : row, roc_detector format_float [first] = [])
      /\ forall (i : nat) (p c : row),
          (1 <= i)%nat ->
          nth_error df (i - 1) = Some p ->
          nth_error df i = Some c ->
          let delta := SFsub 53 1024 (temperature c) (temperature p) in
          (roc_of_pair format_float df i
           = [mkAnomaly (timestamp c) RAPID_CHANGE_TEMP WARNING
                (lit "Temperature changed by " ++ format_float ".2f"%string delta
                 ++ [176%N]
                 ++ lit "C, exceeding the rate-of-change threshold.")]
           <-> SFltb (float_lit "15.0") (SFabs delta) = true)
          /\ (roc_of_pair format_float df i = []
              <-> SFltb (float_lit "15.0") (SFabs delta) = false))
  /\ roc_detector python_format rise_of_fifteen = []
  /\ roc_detector python_format drop_of_seventy
     = [mkAnomaly (1 * 1000000000) RAPID_CHANGE_TEMP WARNING
          (lit "Temperature changed by -70.50" ++ [176%N]
           ++ lit "C, exceeding the rate-of-change threshold.")].
Proof.
  split; [|repeat split; vm_compute; reflexivity].
  intros format_float df. split; [|split].
  - apply roc_detector_specified.
  - reflexivity.
  - intros i p c _ Hp Hc delta.
    unfold roc_of_pair, at_pair. rewrite Hp, Hc.
    unfold roc_between, roc_description, degree_sign, gt, abs, sub.
    cbv zeta.
    change TEMP_RATE_OF_CHANGE_THRESHOLD with (float_lit "15.0").
    change prec with 53. change emax with 1024. fold delta.
    destruct (SFltb (float_lit "15.0") (SFabs delta));
      repeat split; auto; discriminate.
Qed.

Lemma roc_fires_iff_change_exceeds_threshold_witness :
  roc_of_pair python_format drop_of_seventy 1
  = [mkAnomaly (seconds 1) RAPID_CHANGE_TEMP WARNING
       (lit "Temperature changed by "
        ++ python_format ".2f"%string
             (SFsub 53 1024 (float_lit "25.0") (float_lit "95.5"))
        ++ [176%N] ++ lit "C, exceeding the rate-of-change threshold.")].
Proof.
  apply (proj2 (proj2 (proj1 roc_fires_iff_change_exceeds_threshold
                         python_format drop_of_seventy))
               1%nat (reading 0 "95.5" "5.0") (reading 1 "25.0" "5.0")).
  - lia.
  - reflexivity.
  - reflexivity.
  - vm_compute. reflexivity.
Defined.

(** ** The merged report *)

Lemma one_detector_sorted (k : kind) (l : list anomaly) :
  Forall (fun a => anomaly_type a = k) l -> StronglySorted by_detector l.
Proof.
  induction 1 as [|a r Ha Hr IH]; constructor; [exact IH|].
  eapply Forall_impl; [|exact Hr].
  intros b Hb. unfold by_detector. now rewrite Ha, Hb.
Qed.

Lemma map_kind {B : Type} (f : B -> anomaly) (k : kind) (l : list B) :
  (forall x, anomaly_type (f x) = k) ->
  Forall (fun a => anomaly_type a = k) (map f l).
Proof.
  intros H. induction l; constructor; auto.
Qed.

Section Report.
Variable format_float : string -> float -> str.
Variable total_seconds : Z -> float.

Lemma anomalies_found_by_detector (df : list row) :
  StronglySorted by_detector (anomalies_found format_float total_seconds df).
Proof.
  unfold anomalies_found.
  pose proof (map_kind (temp_details format_float) THRESHOLD_BREACH_TEMP
                (temp_anomalies df) (fun _ => eq_refl)) as H1.
  pose proof (map_kind (voltage_details format_float)
                THRESHOLD_BREACH_VOLTAGE
                (voltage_anomalies df) (fun _ => eq_refl)) as H2.
  pose proof (map_kind (roc_details format_float) RAPID_CHANGE_TEMP
                (roc_anomalies df) (fun _ => eq_refl)) as H3.
  pose proof (map_kind (heartbeat_details format_float total_seconds)
                HEARTBEAT_LOSS
                (heartbeat_anomalies df) (fun _ => eq_refl)) as H4.
  fold (temp_detector format_float df) in H1.
  fold (voltage_detector format_float df) in H2.
  fold (roc_detector format_float df) in H3.
  fold (heartbeat_detector format_float total_seconds df) in H4.
  rewrite Forall_forall in H1, H2, H3, H4.
  repeat apply StronglySorted_app;
    try (eapply one_detector_sorted; rewrite Forall_forall; eassumption);
    intros a b Ha Hb; unfold by_detector;
    rewrite ?in_app_iff in Hb;
    repeat match goal with
           | H : _ \/ _ |- _ => destruct H
           | H : In ?x _, H' : forall y, In y _ -> _ |- _ =>
             rewrite (H' x H); clear H
           end; simpl; lia.
Qed.

Lemma report_is_stable_sort (found : list anomaly) :
  report found = isort anomaly_timestamp Z.leb found.
Proof.
  now destruct found.
Qed.

Lemma report_lex (df : list row) :
  StronglySorted (lex anomaly_timestamp by_detector)
    (report (anomalies_found format_float total_seconds df)).
Proof.
  rewrite report_is_stable_sort. apply isort_lex.
  apply anomalies_found_by_detector.
Qed.

End Report.

(** C9.  Whatever the order of the stored records, and whatever order
    the sort of the frame gives them, the reported anomalies are those
    found, in ascending order of timestamp, and of two anomalies with the
    same timestamp the one of the earlier detector (temperature
    threshold, voltage threshold, rate of change, heartbeat) is reported
    first. *)
Theorem report_sorted_ties_in_detector_order :
  forall (format_float : string -> float -> str)
         (total_seconds : Z -> float)
         (argsort : list Z -> list nat) (records : list row),
    let found :=
      anomalies_found format_float total_seconds
                      (sort_values argsort records) in
    Permutation (report found) found
    /\ StronglySorted
         (fun a b => anomaly_timestamp a <= anomaly_timestamp b)
         (report found)
    /\ forall (i j : nat) (a b : anomaly),
        (i < j)%nat ->
        nth_error (report found) i = Some a ->
        nth_error (report found) j = Some b ->
        anomaly_timestamp a = anomaly_timestamp b ->
        (detector_order (anomaly_type a)
         <= detector_order (anomaly_type b))%nat.
Proof.
  intros format_float total_seconds argsort records found.
  pose proof (report_lex format_float total_seconds
                (sort_values argsort records)) as L.
  fold found in L. split; [|split].
  - rewrite report_is_stable_sort. apply isort_perm.
  - eapply StronglySorted_weaken; [|exact L].
    intros a b. apply lex_key.
  - intros i j a b Hij Hi Hj Heq.
    pose proof (StronglySorted_nth _ _ L i j a b Hij Hi Hj) as [H|[_ H]].
    + lia.
    + exact H.
Qed.

Lemma report_sorted_ties_in_detector_order_witness :
  let out :=
    report (anomalies_found python_format seconds_by_division
              (sort_values argsort_stable all_at_once)) in
  let a := temp_details python_format (reading 1 "95.5" "6.1") in
  let b := voltage_details python_format (reading 1 "95.5" "6.1") in
  nth_error out 0 = Some a
  /\ nth_error out 1 = Some b
  /\ anomaly_timestamp a = anomaly_timestamp b
  /\ (detector_order (anomaly_type a) <= detector_order (anomaly_type b))%nat.
Proof.
  intros out a b.
  assert (Ha : nth_error out 0 = Some a) by (vm_compute; reflexivity).
  assert (Hb : nth_error out 1 = Some b) by (vm_compute; reflexivity).
  assert (Hab : anomaly_timestamp a = anomaly_timestamp b) by reflexivity.
  repeat split; auto.
  apply (proj2 (proj2 (report_sorted_ties_in_detector_order
                         python_format seconds_by_division argsort_stable
                         all_at_once))
               0%nat 1%nat a b); auto.
Defined.

(** The report of a frame whose second record trips three detectors at
    once: the three anomalies share a timestamp and come out in detector
    order. *)
Lemma report_example :
  map anomaly_type
      (report (anomalies_found python_format seconds_by_division
                 (sort_values argsort_stable all_at_once)))
  = [THRESHOLD_BREACH_TEMP; THRESHOLD_BREACH_VOLTAGE; RAPID_CHANGE_TEMP].
Proof.
  vm_compute. reflexivity.
Qed.

(** ** The sorted read view *)

Lemma take_all_from (df : list row) :
  forall pre,
    flat_map (fun i => match nth_error (pre ++ df) i with
                       | Some r => [r]
                       | None => []
                       end) (seq (length pre) (length df))
    = df.
Proof.
  induction df as [|r rest IH]; intros pre; [reflexivity|].
  cbn [length seq flat_map].
  rewrite nth_error_app2, Nat.sub_diag by lia. cbn [nth_error app].
  f_equal.
  specialize (IH (pre ++ [r])).
  rewrite <- app_assoc, length_app in IH. cbn [app length] in IH.
  rewrite Nat.add_1_r in IH. exact IH.
Qed.

Lemma take_all (df : list row) : take df (seq 0 (length df)) = df.
Proof.
  exact (take_all_from df []).
Qed.

Lemma take_timestamps (df : list row) (indexer : list nat) :
  Forall (fun i => (i < length df)%nat) indexer ->
  map timestamp (take df indexer)
  = map (fun i => nth i (map timestamp df) 0) indexer.
Proof.
  induction 1 as [|i r Hi Hr IH]; [reflexivity|].
  unfold take in *. cbn [flat_map map]. rewrite map_app, IH.
  destruct (nth_error df i) as [x|] eqn:E.
  - cbn [map app]. f_equal.
    rewrite (nth_error_nth (map timestamp df) i 0 (x := timestamp x));
      [reflexivity|].
    now rewrite nth_error_map, E.
  - apply nth_error_None in E. lia.
Qed.

Lemma StronglySorted_map {A B : Type} (f : A -> B) (R : B -> B -> Prop)
  (l : list A) :
  StronglySorted R (map f l) <-> StronglySorted (fun a b => R (f a) (f b)) l.
Proof.
  induction l as [|a r IH]; cbn [map].
  - split; constructor.
  - split; intros H; inversion H as [|? ? Hs Ha]; subst; constructor;
      try (apply IH; exact Hs).
    + now rewrite Forall_map in Ha.
    + now rewrite Forall_map.
Qed.

(** What the contract gives: the sorted frame holds the stored records,
    each once, in ascending order of timestamp. *)
Lemma sort_values_sorted_permutation (argsort : list Z -> list nat) :
  argsort_contract argsort ->
  forall df,
    Permutation (sort_values argsort df) df
    /\ ascending (sort_values argsort df).
Proof.
  intros C df. destruct (C (map timestamp df)) as [P S].
  rewrite length_map in P. unfold sort_values. split.
  - transitivity (take df (seq 0 (length df))).
    + unfold take. now apply Permutation_flat_map.
    + now rewrite take_all.
  - unfold ascending.
    apply (StronglySorted_map timestamp Z.le).
    rewrite take_timestamps; [exact S|].
    eapply Permutation_Forall; [symmetry; exact P|].
    rewrite Forall_forall. intros i Hi. apply in_seq in Hi. lia.
Qed.

(** Insertion of the (key, position) pairs meets the contract, with
    either test. *)
Lemma snd_combine_seq (keys : list Z) :
  forall a, map snd (combine keys (seq a (length keys))) = seq a (length keys).
Proof.
  induction keys as [|k r IH]; intros a; [reflexivity|].
  cbn [length seq combine map snd]. now rewrite IH.
Qed.

Lemma in_combine_seq (keys : list Z) :
  forall a k i,
    In (k, i) (combine keys (seq a (length keys))) ->
    (a <= i)%nat /\ nth (i - a) keys 0 = k.
Proof.
  induction keys as [|k0 r IH]; intros a k i H; [contradiction|].
  cbn [length seq combine] in H. destruct H as [[= -> ->]|H].
  - rewrite Nat.sub_diag. split; [lia|reflexivity].
  - apply IH in H as [Ha Hn]. split; [lia|].
    replace (i - a)%nat with (S (i - S a)) by lia. exact Hn.
Qed.

Lemma isort_argsort_contract (before : Z -> Z -> bool) :
  (forall x y, before x y = true -> x <= y) ->
  (forall x y, before x y = false -> y <= x) ->
  argsort_contract
    (fun keys =>
       map snd (isort fst before (combine keys (seq 0 (length keys))))).
Proof.
  intros Ht Hf keys.
  set (pairs := combine keys (seq 0 (length keys))).
  pose proof (isort_perm fst before pairs) as P.
  split.
  - rewrite <- (snd_combine_seq keys 0). fold pairs.
    now apply Permutation_map.
  - rewrite map_map.
    rewrite (map_ext_in _ fst).
    + apply StronglySorted_map. now apply isort_sorted.
    + intros [k i] Hin. cbn [snd fst].
      apply (Permutation_in _ P) in Hin.
      apply in_combine_seq in Hin as [_ Hn].
      now rewrite Nat.sub_0_r in Hn.
Qed.

Lemma argsort_ties_reversed_contract : argsort_contract argsort_ties_reversed.
Proof.
  apply isort_argsort_contract; intros x y H.
  - apply Z.ltb_lt in H. lia.
  - now apply Z.ltb_ge in H.
Qed.

Lemma argsort_stable_contract : argsort_contract argsort_stable.
Proof.
  apply isort_argsort_contract; intros x y H.
  - now apply Z.leb_le in H.
  - apply Z.leb_gt in H. lia.
Qed.

(** ** The default sort of numpy is a sort *)

Section NumpySort.
Context {A : Type}.
Variable key : A -> Z.

(** *** Insertion *)


(** ** Insertion *)

Lemma shift_perm (x : A) (s : list A) : Permutation (shift key x s) (x :: s).
Proof.
  induction s as [|y r IH]; cbn [shift]; [reflexivity|].
  destruct (less key x y); [|reflexivity].
  rewrite IH. apply perm_swap.
Qed.

Lemma shift_sorted (x : A) (s : list A) :
  StronglySorted (fun a b => key b <= key a) s ->
  StronglySorted (fun a b => key b <= key a) (shift key x s).
Proof.
  induction 1 as [|y r Hs IH Hy]; cbn [shift].
  - repeat constructor.
  - unfold less. destruct (key x <? key y) eqn:E.
    + apply Z.ltb_lt in E. constructor; [exact IH|].
      eapply Permutation_Forall; [symmetry; apply shift_perm|].
      constructor; [lia|exact Hy].
    + apply Z.ltb_ge in E. constructor; [now constructor|].
      constructor; [exact E|].
      eapply Forall_impl; [|exact Hy]. cbv beta. intros; lia.
Qed.

Lemma shift_filter (t : Z) (x : A) (s : list A) :
  filter (fun a => key a =? t) (shift key x s)
  = filter (fun a => key a =? t) (x :: s).
Proof.
  induction s as [|y r IH]; cbn [shift]; [reflexivity|].
  unfold less. destruct (key x <? key y) eqn:E; [|reflexivity].
  apply Z.ltb_lt in E. cbn [filter] in *. rewrite IH.
  destruct (key y =? t) eqn:Ey, (key x =? t) eqn:Ex; try reflexivity.
  apply Z.eqb_eq in Ey, Ex. lia.
Qed.

Lemma insertion_fold (seg : list A) :
  forall acc,
    Permutation (fold_left (fun s x => shift key x s) seg acc) (seg ++ acc)
    /\ (StronglySorted (fun a b => key b <= key a) acc ->
        StronglySorted (fun a b => key b <= key a)
                       (fold_left (fun s x => shift key x s) seg acc))
    /\ forall t,
        filter (fun a => key a =? t)
               (rev (fold_left (fun s x => shift key x s) seg acc))
        = filter (fun a => key a =? t) (rev acc)
          ++ filter (fun a => key a =? t) seg.
Proof.
  induction seg as [|x r IH]; intros acc; cbn [fold_left app].
  - repeat split; auto. intros t. cbn. now rewrite app_nil_r.
  - destruct (IH (shift key x acc)) as (P & S & F). split; [|split].
    + rewrite P. rewrite shift_perm. symmetry. apply Permutation_middle.
    + intros H. apply S. now apply shift_sorted.
    + intros t. rewrite F, !filter_rev, shift_filter.
      cbn [filter]. destruct (key x =? t); [|reflexivity].
      cbn [rev]. now rewrite <- app_assoc.
Qed.

Lemma sorted_snoc (l : list A) (a : A) :
  StronglySorted (by_key key) l -> Forall (fun b => key b <= key a) l ->
  StronglySorted (by_key key) (l ++ [a]).
Proof.
  induction 1 as [|b r Hs IH Hb]; intros F; cbn [app].
  - repeat constructor.
  - inversion F as [|? ? Fb Fr]; subst. constructor; [now apply IH|].
    apply Forall_app. split; [exact Hb|]. now repeat constructor.
Qed.

Lemma sorted_rev (l : list A) :
  StronglySorted (fun a b => key b <= key a) l ->
  StronglySorted (by_key key) (rev l).
Proof.
  induction 1 as [|a r Hs IH Ha]; cbn [rev]; [constructor|].
  apply sorted_snoc; [exact IH|]. now apply Forall_rev.
Qed.

Lemma insertion_perm (seg : list A) : Permutation (insertion key seg) seg.
Proof.
  unfold insertion. rewrite <- Permutation_rev.
  destruct (insertion_fold seg []) as (P & _). now rewrite P, app_nil_r.
Qed.

Lemma insertion_sorted (seg : list A) :
  StronglySorted (by_key key) (insertion key seg).
Proof.
  unfold insertion. apply sorted_rev.
  destruct (insertion_fold seg []) as (_ & S & _). apply S. constructor.
Qed.

Lemma insertion_stable (seg : list A) (t : Z) :
  filter (fun a => key a =? t) (insertion key seg)
  = filter (fun a => key a =? t) seg.
Proof.
  unfold insertion. destruct (insertion_fold seg []) as (_ & _ & F).
  now rewrite F.
Qed.

(** ** Partition *)

Lemma span_spec (p : A -> bool) (l : list A) :
  l = fst (span p l) ++ snd (span p l)
  /\ Forall (fun x => p x = true) (fst (span p l))
  /\ match snd (span p l) with
     | [] => True
     | x :: _ => p x = false
     end.
Proof.
  induction l as [|x r IH]; cbn [span].
  - repeat split. constructor.
  - destruct (p x) eqn:E.
    + destruct (span p r) as [a b]. cbn [fst snd app] in *.
      destruct IH as (H1 & H2 & H3). repeat split; auto.
      now rewrite <- H1.
    + cbn [fst snd app]. repeat split; auto.
Qed.

Lemma median3_spec (a b c : A) :
  let '(a', b', c') := median3 key a b c in
  Permutation [a'; b'; c'] [a; b; c] /\ key a' <= key b' <= key c'.
Proof.
  unfold median3, in_order, less.
  destruct (key b <? key a) eqn:E1;
    [apply Z.ltb_lt in E1|apply Z.ltb_ge in E1].
  - destruct (key c <? key a) eqn:E2;
      [apply Z.ltb_lt in E2|apply Z.ltb_ge in E2].
    + destruct (key c <? key b) eqn:E3;
        [apply Z.ltb_lt in E3|apply Z.ltb_ge in E3].
      * split; [|lia].
        apply Permutation_sym, (perm_trans (perm_swap b a [c])).
        apply (perm_trans (perm_skip b (perm_swap c a []))).
        apply perm_swap.
      * split; [|lia].
        apply Permutation_sym, (perm_trans (perm_swap b a [c])).
        apply perm_skip, perm_swap.
    + rewrite (proj2 (Z.ltb_ge (key a) (key b))) by lia.
      split; [apply perm_swap|lia].
  - destruct (key c <? key b) eqn:E2;
      [apply Z.ltb_lt in E2|apply Z.ltb_ge in E2].
    + destruct (key c <? key a) eqn:E3;
        [apply Z.ltb_lt in E3|apply Z.ltb_ge in E3].
      * split; [|lia].
        apply Permutation_sym, (perm_trans (perm_skip a (perm_swap c b []))).
        apply perm_swap.
      * split; [|lia]. apply perm_skip, perm_swap.
    + rewrite (proj2 (Z.ltb_ge (key b) (key a))) by lia.
      split; [reflexivity|lia].
Qed.

Lemma perm_exchange (x y : A) (X Y : list A) :
  Permutation (x :: X ++ y :: Y) (y :: X ++ x :: Y).
Proof.
  transitivity (x :: y :: X ++ Y).
  - apply perm_skip. symmetry. apply Permutation_middle.
  - rewrite perm_swap. apply perm_skip. apply Permutation_middle.
Qed.

Lemma hoare_spec (fuel : nat) (vp : Z) :
  forall ldone mid rdone,
    (length mid <= fuel)%nat ->
    Forall (fun x => key x <= vp) ldone ->
    Forall (fun x => vp <= key x) rdone ->
    Permutation (fst (hoare key fuel vp ldone mid rdone)
                 ++ snd (hoare key fuel vp ldone mid rdone))
                (ldone ++ mid ++ rdone)
    /\ Forall (fun x => key x <= vp) (fst (hoare key fuel vp ldone mid rdone))
    /\ Forall (fun x => vp <= key x) (snd (hoare key fuel vp ldone mid rdone)).
Proof.
  induction fuel as [|fuel IH]; intros ldone mid rdone L Hl Hr.
  - destruct mid; [|cbn in L; lia]. cbn [hoare fst snd app].
    rewrite app_nil_r. auto.
  - cbn [hoare].
    destruct (span_spec (fun x => key x <? vp) mid) as (E1 & S1 & N1).
    destruct (span (fun x => key x <? vp) mid) as [small rest].
    cbn [fst snd] in E1, S1, N1.
    assert (S1' : Forall (fun x => key x <= vp) small).
    { eapply Forall_impl; [|exact S1]. cbv beta. intros a H.
      apply Z.ltb_lt in H. lia. }
    destruct rest as [|e r].
    + cbn [fst snd]. rewrite app_nil_r in E1. subst mid. split; [|split].
      * rewrite <- !app_assoc. do 2 apply Permutation_app_head.
        destruct rdone as [|g rd]; [reflexivity|].
        symmetry. apply Permutation_cons_append.
      * apply Forall_app. auto.
      * destruct rdone as [|g rd]; [constructor|].
        inversion Hr; subst. apply Forall_app. auto.
    + apply Z.ltb_ge in N1.
      destruct (span_spec (fun x => vp <? key x) (rev r)) as (E2 & S2 & N2).
      destruct (span (fun x => vp <? key x) (rev r)) as [big inner].
      cbn [fst snd] in E2, S2, N2.
      assert (S2' : Forall (fun x => vp <= key x) (rev big)).
      { apply Forall_rev. eapply Forall_impl; [|exact S2]. cbv beta.
        intros a H. apply Z.ltb_lt in H. lia. }
      assert (Er : r = rev inner ++ rev big).
      { rewrite <- rev_app_distr, <- E2. now rewrite rev_involutive. }
      destruct inner as [|f inner'].
      * cbn [fst snd]. cbn [rev app] in Er. subst mid. split; [|split].
        -- rewrite <- !app_assoc. do 2 apply Permutation_app_head.
           cbn [app]. symmetry. rewrite (app_assoc r rdone [e]).
           apply Permutation_cons_append.
        -- apply Forall_app. auto.
        -- rewrite Er. apply Forall_app. split; [exact S2'|].
           apply Forall_app. split; [exact Hr|]. now repeat constructor.
      * apply Z.ltb_ge in N2. cbn [rev] in Er.
        assert (L' : (length (rev inner') <= fuel)%nat).
        { subst mid r. rewrite !length_app in L. cbn [length] in L.
          rewrite !length_app in L. cbn [length] in L. lia. }
        destruct (IH (ldone ++ small ++ [f]) (rev inner')
                     (e :: rev big ++ rdone) L') as (P & F1 & F2).
        { apply Forall_app. split; [exact Hl|].
          apply Forall_app. split; [exact S1'|]. now repeat constructor. }
        { constructor; [exact N1|]. apply Forall_app. auto. }
        split; [|auto]. rewrite P. subst mid r.
        rewrite <- !app_assoc. do 2 apply Permutation_app_head.
        cbn [app]. rewrite <- !app_assoc. cbn [app].
        apply perm_exchange.
Qed.

Lemma skipn_nth (d : A) (l : list A) :
  forall n, (n < length l)%nat -> skipn n l = nth n l d :: skipn (S n) l.
Proof.
  induction l as [|a r IH]; intros n H; [cbn in H; lia|].
  destruct n as [|n]; [reflexivity|].
  cbn [skipn nth]. apply IH. cbn in H. lia.
Qed.

Lemma pivot_parts (x0 : A) (rest : list A) :
  (2 <= length rest)%nat ->
  exists before xm after xl,
    rest = before ++ xm :: after ++ [xl]
    /\ firstn (length rest / 2 - 1) rest = before
    /\ nth (length rest / 2 - 1) rest x0 = xm
    /\ removelast (skipn (length rest / 2) rest) = after
    /\ last rest x0 = xl.
Proof.
  intros L.
  assert (Hpm : (1 <= length rest / 2 < length rest)%nat).
  { pose proof (Nat.div_mod_eq (length rest) 2) as D.
    pose proof (Nat.mod_upper_bound (length rest) 2) as U. lia. }
  remember (length rest / 2)%nat as pm eqn:Epm. clear Epm.
  assert (Hs : skipn pm rest <> []).
  { intros E. apply (f_equal (@length A)) in E.
    rewrite length_skipn in E. cbn [length] in E. lia. }
  pose proof (app_removelast_last x0 Hs) as Ea.
  assert (Eb : skipn (pm - 1) rest
               = nth (pm - 1) rest x0 :: skipn pm rest).
  { rewrite (skipn_nth x0) by lia. do 2 f_equal. lia. }
  exists (firstn (pm - 1) rest), (nth (pm - 1) rest x0),
    (removelast (skipn pm rest)), (last (skipn pm rest) x0).
  split; [|repeat split].
  - rewrite <- Ea, <- Eb. symmetry. apply firstn_skipn.
  - rewrite <- (firstn_skipn pm rest) at 1. rewrite Ea at 1.
    rewrite app_assoc. apply last_last.
Qed.

Lemma split_at_pivot_spec (x0 : A) (rest : list A) :
  (2 <= length rest)%nat ->
  let '(l, p, r) := split_at_pivot key x0 rest in
  Permutation (l ++ p :: r) (x0 :: rest)
  /\ Forall (fun x => key x <= key p) l
  /\ Forall (fun x => key p <= key x) r.
Proof.
  intros L.
  destruct (pivot_parts x0 rest L)
    as (before & xm & after & xl & E & E1 & E2 & E3 & E4).
  unfold split_at_pivot. rewrite E1, E2, E3, E4.
  pose proof (median3_spec x0 xm xl) as M.
  destruct (median3 key x0 xm xl) as [[a b] c]. destruct M as (PM & Ha & Hc).
  set (mid := before ++ match after with
                        | [] => []
                        | _ :: _ => last after a :: removelast after
                        end).
  assert (Pm : Permutation mid (before ++ after)).
  { subst mid. apply Permutation_app_head.
    destruct after as [|y after']; [reflexivity|].
    assert (N : y :: after' <> []) by discriminate.
    transitivity (removelast (y :: after') ++ [last (y :: after') a]).
    - apply Permutation_cons_append.
    - now rewrite <- (app_removelast_last a N). }
  destruct (hoare_spec (length mid) (key b) [] mid [] (le_n _))
    as (P & F1 & F2); [constructor|constructor|].
  destruct (hoare key (length mid) (key b) [] mid []) as [l r].
  cbn [fst snd app] in P, F1, F2. rewrite app_nil_r in P.
  split; [|split].
  - rewrite E.
    transitivity (a :: b :: c :: l ++ r).
    + cbn [app]. apply perm_skip.
      rewrite <- Permutation_middle. apply perm_skip.
      rewrite app_assoc. rewrite <- Permutation_cons_append. reflexivity.
    + transitivity (x0 :: xm :: xl :: before ++ after).
      * rewrite P, Pm.
        apply (Permutation_app_tail (before ++ after)) in PM. exact PM.
      * apply perm_skip. rewrite <- Permutation_middle. apply perm_skip.
        rewrite app_assoc. rewrite <- Permutation_cons_append. reflexivity.
  - constructor; [lia|exact F1].
  - apply Forall_app. split; [exact F2|]. repeat constructor. lia.
Qed.

(** ** Arrays *)

Lemma length_upd (i : nat) (x : A) (a : list A) :
  length (upd i x a) = length a.
Proof.
  revert i. induction a as [|y r IH]; intros [|i]; cbn [upd length]; auto.
Qed.

Lemma nth_error_upd (a : list A) :
  forall i x k,
    (i < length a)%nat ->
    nth_error (upd i x a) k = if (k =? i)%nat then Some x else nth_error a k.
Proof.
  induction a as [|y r IH]; intros i x k H; [cbn in H; lia|].
  destruct i as [|i], k as [|k]; cbn [upd nth_error Nat.eqb]; auto.
  apply IH. cbn in H. lia.
Qed.

Lemma upd_perm (a : list A) :
  forall i x y,
    nth_error a i = Some x -> Permutation (y :: a) (x :: upd i y a).
Proof.
  induction a as [|z r IH]; intros [|i] x y H; cbn in H; try discriminate.
  - injection H as ->. cbn [upd]. apply perm_swap.
  - cbn [upd]. rewrite perm_swap. rewrite (IH i x y H). apply perm_swap.
Qed.

Lemma exchange_perm (h : list A) (i j : nat) (x c : A) :
  nth_error h i = Some x -> nth_error h j = Some c -> i <> j ->
  Permutation (upd j x (upd i c h)) h.
Proof.
  intros Hi Hj N.
  assert (Li : (i < length h)%nat) by (apply nth_error_Some; congruence).
  apply (Permutation_cons_inv (a := c)).
  rewrite (upd_perm h i x c Hi).
  symmetry. apply upd_perm.
  rewrite nth_error_upd by exact Li.
  destruct (j =? i)%nat eqn:E; [apply Nat.eqb_eq in E; lia|exact Hj].
Qed.

(** ** Heaps *)

Lemma kat_exchange (h : list A) (i j : nat) (x c : A) (m : nat) :
  (i < length h)%nat -> (j < length h)%nat ->
  kat key (upd j x (upd i c h)) m
  = if (m =? j)%nat then key x
    else if (m =? i)%nat then key c else kat key h m.
Proof.
  intros Li Lj. unfold kat.
  rewrite nth_error_upd by now rewrite length_upd.
  destruct (m =? j)%nat; [reflexivity|].
  rewrite nth_error_upd by exact Li.
  now destruct (m =? i)%nat.
Qed.

Lemma sift_spec (fuel : nat) :
  forall h i lo,
    (length h - i <= fuel)%nat -> (lo <= i)%nat ->
    ok_except key h lo i -> grand key h lo i ->
    Permutation (sift key fuel h i) h /\ heap_from key (sift key fuel h i) lo.
Proof.
  induction fuel as [|fuel IH]; intros h i lo F L O G.
  - cbn [sift]. split; [reflexivity|].
    intros k Hk Hl. apply O; auto. lia.
  - cbn [sift].
    destruct (nth_error h i) as [x|] eqn:Ei.
    2:{ split; [reflexivity|]. intros k Hk Hl. apply O; auto.
        apply nth_error_None in Ei. lia. }
    assert (Li : (i < length h)%nat) by (apply nth_error_Some; congruence).
    destruct (nth_error h (2 * i + 1)) as [c1|] eqn:E1.
    2:{ split; [reflexivity|]. intros k Hk Hl.
        destruct (Nat.eq_dec k i) as [->|N]; [|now apply O].
        intros c [->| ->] Hc; apply nth_error_None in E1; lia. }
    assert (L1 : (2 * i + 1 < length h)%nat)
      by (apply nth_error_Some; congruence).
    (* the larger child *)
    assert (J : exists j c,
               (match nth_error h (2 * i + 2) with
                | Some c2 => if less key c1 c2 then ((2 * i + 2)%nat, c2)
                             else ((2 * i + 1)%nat, c1)
                | None => ((2 * i + 1)%nat, c1)
                end) = (j, c)
               /\ child i j /\ nth_error h j = Some c
               /\ forall c', child i c' -> (c' < length h)%nat ->
                             kat key h c' <= key c).
    { destruct (nth_error h (2 * i + 2)) as [c2|] eqn:E2.
      - unfold less. destruct (key c1 <? key c2) eqn:E;
          [apply Z.ltb_lt in E|apply Z.ltb_ge in E].
        + exists (2 * i + 2)%nat, c2. repeat split; auto; [now right|].
          intros c' [->| ->] _; unfold kat; rewrite ?E1, ?E2; lia.
        + exists (2 * i + 1)%nat, c1. repeat split; auto; [now left|].
          intros c' [->| ->] _; unfold kat; rewrite ?E1, ?E2; lia.
      - exists (2 * i + 1)%nat, c1. repeat split; auto; [now left|].
        intros c' [->| ->] Hc; unfold kat; rewrite ?E1; [lia|].
        apply nth_error_None in E2. lia. }
    destruct J as (j & c & -> & Cj & Ej & Mx).
    assert (Lj : (j < length h)%nat) by (apply nth_error_Some; congruence).
    assert (Nij : i <> j) by (destruct Cj; lia).
    unfold less. destruct (key x <? key c) eqn:E;
      [apply Z.ltb_lt in E|apply Z.ltb_ge in E].
    + set (h' := upd j x (upd i c h)).
      assert (Lh : length h' = length h)
        by (subst h'; now rewrite !length_upd).
      assert (K : forall m, kat key h' m
                            = if (m =? j)%nat then key x
                              else if (m =? i)%nat then key c else kat key h m)
        by (intros m; now apply kat_exchange).
      destruct (IH h' j lo) as (P & H).
      * rewrite Lh. destruct Cj; lia.
      * destruct Cj; lia.
      * intros k Hk Hl Nk c' Cc Hc'. rewrite Lh in Hl, Hc'.
        rewrite !K.
        apply Nat.eqb_neq in Nk. rewrite Nk.
        destruct (Nat.eq_dec k i) as [->|Nki].
        -- rewrite Nat.eqb_refl.
           destruct (Nat.eq_dec c' j) as [->|Ncj].
           ++ rewrite Nat.eqb_refl. lia.
           ++ apply Nat.eqb_neq in Ncj. rewrite Ncj.
              assert (Nci : (c' =? i)%nat = false)
                by (apply Nat.eqb_neq; destruct Cc; lia).
              rewrite Nci. now apply Mx.
        -- assert (Ncj : (c' =? j)%nat = false)
             by (apply Nat.eqb_neq; destruct Cc, Cj; lia).
           rewrite Ncj.
           apply Nat.eqb_neq in Nki as Nki'. rewrite Nki'.
           destruct (Nat.eq_dec c' i) as [->|Nci].
           ++ rewrite Nat.eqb_refl.
              replace (key c) with (kat key h j)
                by (unfold kat; now rewrite Ej).
              apply (G k j); auto.
           ++ apply Nat.eqb_neq in Nci as Nci'. rewrite Nci'.
              apply Nat.eqb_neq in Nk. apply (O k); auto.
      * intros p c' Hp Cp Cc Hc'. rewrite Lh in Hc'.
        assert (p = i) by (destruct Cp, Cj; lia). subst p.
        rewrite !K.
        assert (N1 : (c' =? j)%nat = false)
          by (apply Nat.eqb_neq; destruct Cc; lia).
        assert (N2 : (c' =? i)%nat = false)
          by (apply Nat.eqb_neq; destruct Cc, Cj; lia).
        assert (N3 : (i =? j)%nat = false) by now apply Nat.eqb_neq.
        rewrite N1, N2, N3, Nat.eqb_refl.
        replace (key c) with (kat key h j) by (unfold kat; now rewrite Ej).
        apply (O j); auto; [destruct Cj; lia].
      * split; [|exact H]. rewrite P. subst h'.
        now apply exchange_perm.
    + split; [reflexivity|]. intros k Hk Hl.
      destruct (Nat.eq_dec k i) as [->|N]; [|now apply O].
      intros c' Cc Hc. unfold kat at 2. rewrite Ei.
      specialize (Mx c' Cc Hc). lia.
Qed.

Lemma heapify_spec (k : nat) :
  forall h,
    heap_from key h k ->
    Permutation (heapify key k h) h /\ heap_from key (heapify key k h) 0.
Proof.
  induction k as [|k IH]; intros h H; cbn [heapify]; [now split|].
  destruct (sift_spec (length h) h k k) as (P & S); [lia|lia| | |].
  - intros m Hm Hl N. apply H; lia.
  - intros p c Hp [Cp|Cp]; lia.
  - destruct (IH _ S) as (P' & S'). split; [|exact S'].
    now rewrite P'.
Qed.

Lemma leaves_are_heaps (h : list A) : heap_from key h (length h / 2).
Proof.
  intros k Hk Hl c Cc Hc.
  pose proof (Nat.div_mod_eq (length h) 2) as D.
  pose proof (Nat.mod_upper_bound (length h) 2) as U.
  destruct Cc; lia.
Qed.

Lemma root_is_largest (h : list A) :
  heap_from key h 0 ->
  forall k, (k < length h)%nat -> kat key h k <= kat key h 0.
Proof.
  intros H k. induction k as [k IH] using lt_wf_ind. intros Hk.
  destruct k as [|k]; [lia|].
  assert (P : exists p, (p < S k)%nat /\ child p (S k)).
  { exists (k / 2)%nat.
    pose proof (Nat.div_mod_eq k 2) as D.
    pose proof (Nat.mod_upper_bound k 2) as U.
    unfold child. split; [lia|].
    destruct (Nat.eq_dec (k mod 2) 0); [left|right]; lia. }
  destruct P as (p & Hp & Cp).
  transitivity (kat key h p).
  - apply (H p); auto; lia.
  - apply IH; lia.
Qed.

Lemma In_kat (h : list A) (x : A) :
  In x h -> exists k, (k < length h)%nat /\ kat key h k = key x.
Proof.
  intros H. apply In_nth_error in H as [k E]. exists k. split.
  - apply nth_error_Some. congruence.
  - unfold kat. now rewrite E.
Qed.

Lemma nth_error_removelast (t : list A) :
  forall m, (S m < length t)%nat ->
            nth_error (removelast t) m = nth_error t m.
Proof.
  induction t as [|a r IH]; intros m H; [cbn in H; lia|].
  destruct r as [|b r']; [cbn in H; lia|].
  destruct m as [|m]; [reflexivity|].
  cbn [removelast nth_error] in *. apply IH. cbn [length] in *. lia.
Qed.

Lemma unload_spec (fuel : nat) :
  forall h done,
    (length h <= fuel)%nat ->
    heap_from key h 0 ->
    StronglySorted (by_key key) done ->
    (forall x y, In x h -> In y done -> key x <= key y) ->
    Permutation (unload key fuel h done) (h ++ done)
    /\ StronglySorted (by_key key) (unload key fuel h done).
Proof.
  induction fuel as [|fuel IH]; intros h done L H S C.
  - destruct h; [|cbn in L; lia]. cbn. auto.
  - cbn [unload]. destruct h as [|root t]; [cbn; auto|].
    destruct t as [|y t'].
    + split; [reflexivity|]. constructor; [exact S|].
      rewrite Forall_forall. intros z Hz. apply C; [now left|exact Hz].
    + set (t := y :: t') in *.
      assert (Nt : t <> []) by discriminate.
      set (h1 := last t root :: removelast t).
      assert (P1 : Permutation h1 t).
      { subst h1. rewrite (app_removelast_last root Nt) at 3.
        apply Permutation_cons_append. }
      assert (L1 : length h1 = length t)
        by (now apply Permutation_length).
      assert (R : forall x, In x (root :: t) -> key x <= key root).
      { intros x Hx. apply In_kat in Hx as (k & Hk & <-).
        apply (root_is_largest _ H k Hk). }
      destruct (sift_spec (length t) h1 0 0) as (P2 & H2).
      * lia.
      * lia.
      * intros k _ Hk Nk c Cc Hc. rewrite L1 in Hk, Hc.
        assert (E : forall m, (1 <= m)%nat -> (m < length t)%nat ->
                              kat key h1 m = kat key (root :: t) m).
        { intros m M1 M2. unfold kat. subst h1.
          destruct m as [|m]; [lia|]. cbn [nth_error].
          rewrite nth_error_removelast by lia. reflexivity. }
        rewrite !E by (destruct Cc; lia).
        apply (H k); [lia|cbn [length]; lia|exact Cc|cbn [length]; lia].
      * intros p c _ [Cp|Cp]; lia.
      * destruct (IH (sift key (length t) h1 0) (root :: done))
          as (P3 & S3).
        -- rewrite (Permutation_length P2), L1. cbn [length] in L. lia.
        -- exact H2.
        -- constructor; [exact S|]. rewrite Forall_forall.
           intros z Hz. apply C; [now left|exact Hz].
        -- intros x z Hx [<-|Hz].
           ++ apply R. right. apply (Permutation_in _ P1).
              apply (Permutation_in _ P2). exact Hx.
           ++ apply C; [|exact Hz]. right. apply (Permutation_in _ P1).
              apply (Permutation_in _ P2). exact Hx.
        -- split; [|exact S3]. rewrite P3, P2, P1.
           symmetry. apply Permutation_middle.
Qed.

Lemma heapsort_spec (seg : list A) :
  Permutation (heapsort key seg) seg
  /\ StronglySorted (by_key key) (heapsort key seg).
Proof.
  unfold heapsort.
  destruct (heapify_spec (length seg / 2) seg (leaves_are_heaps seg))
    as (P & H).
  destruct (unload_spec (length seg) (heapify key (length seg / 2) seg) [])
    as (P' & S).
  - now rewrite (Permutation_length P).
  - exact H.
  - constructor.
  - intros x y _ [].
  - split; [|exact S]. now rewrite P', app_nil_r.
Qed.

Lemma sorted_around (l r : list A) (p : A) :
  StronglySorted (by_key key) l -> StronglySorted (by_key key) r ->
  Forall (fun x => key x <= key p) l -> Forall (fun x => key p <= key x) r ->
  StronglySorted (by_key key) (l ++ p :: r).
Proof.
  intros Sl Sr Fl Fr. induction Sl as [|a l' Sl' IH Ha]; cbn [app].
  - now constructor.
  - inversion Fl as [|? ? Fa Fl']; subst.
    constructor; [now apply IH|].
    apply Forall_app. split; [exact Ha|].
    constructor; [exact Fa|].
    eapply Forall_impl; [|exact Fr]. unfold by_key. cbv beta. intros; lia.
Qed.

Lemma introsort_spec (fuel : nat) :
  forall popped cdepth seg,
    (length seg < fuel)%nat ->
    Permutation (introsort key fuel popped cdepth seg) seg
    /\ StronglySorted (by_key key) (introsort key fuel popped cdepth seg).
Proof.
  induction fuel as [|fuel IH]; intros popped cdepth seg L; [lia|].
  cbn [introsort].
  destruct (popped && (cdepth <? 0))%bool; [apply heapsort_spec|].
  destruct seg as [|x0 rest]; [split; constructor|].
  destruct (16 <? length rest)%nat eqn:E.
  - apply Nat.ltb_lt in E.
    pose proof (split_at_pivot_spec x0 rest) as P.
    destruct (split_at_pivot key x0 rest) as [[l p] r].
    destruct P as (P & Fl & Fr); [lia|].
    pose proof (Permutation_length P) as Len.
    rewrite length_app in Len. cbn [length] in Len, L.
    assert (G : forall b1 b2,
               Permutation (introsort key fuel b1 (cdepth - 1) l
                            ++ p :: introsort key fuel b2 (cdepth - 1) r)
                           (x0 :: rest)
               /\ StronglySorted (by_key key)
                    (introsort key fuel b1 (cdepth - 1) l
                     ++ p :: introsort key fuel b2 (cdepth - 1) r)).
    { intros b1 b2.
      destruct (IH b1 (cdepth - 1) l) as (Pl & Sl); [lia|].
      destruct (IH b2 (cdepth - 1) r) as (Pr & Sr); [lia|].
      split.
      - now rewrite Pl, Pr.
      - apply sorted_around; auto.
        + eapply Permutation_Forall; [symmetry; exact Pl|exact Fl].
        + eapply Permutation_Forall; [symmetry; exact Pr|exact Fr]. }
    destruct (length l <? length r)%nat; apply G.
  - split; [apply insertion_perm|apply insertion_sorted].
Qed.

Lemma aquicksort_spec (seg : list A) :
  Permutation (aquicksort key seg) seg
  /\ StronglySorted (by_key key) (aquicksort key seg).
Proof.
  apply introsort_spec. lia.
Qed.

Lemma aquicksort_small (seg : list A) :
  (length seg <= 17)%nat -> aquicksort key seg = insertion key seg.
Proof.
  intros L. unfold aquicksort. cbn [introsort].
  assert (D : (2 * Z.log2 (Z.of_nat (length seg)) <? 0) = false).
  { apply Z.ltb_ge. pose proof (Z.log2_nonneg (Z.of_nat (length seg))). lia. }
  rewrite D. cbn [andb].
  destruct seg as [|x0 rest]; [reflexivity|].
  cbn [length] in L.
  assert (E : (16 <? length rest)%nat = false) by (apply Nat.ltb_ge; lia).
  now rewrite E.
Qed.

End NumpySort.

(** Any sort of the (key, position) pairs gives an [argsort] that meets
    the contract. *)
Lemma sorted_pairs_contract (srt : list (Z * nat) -> list (Z * nat)) :
  (forall l, Permutation (srt l) l) ->
  (forall l, StronglySorted (by_key fst) (srt l)) ->
  argsort_contract
    (fun keys => map snd (srt (combine keys (seq 0 (length keys))))).
Proof.
  intros P S keys.
  set (pairs := combine keys (seq 0 (length keys))).
  split.
  - rewrite <- (snd_combine_seq keys 0). fold pairs.
    apply Permutation_map, P.
  - rewrite map_map.
    rewrite (map_ext_in _ fst).
    + apply StronglySorted_map. apply S.
    + intros [k i] Hin. cbn [snd fst].
      apply (Permutation_in _ (P pairs)) in Hin.
      apply in_combine_seq in Hin as [_ Hn].
      now rewrite Nat.sub_0_r in Hn.
Qed.

Lemma numpy_argsort_contract : argsort_contract numpy_argsort.
Proof.
  apply (sorted_pairs_contract (aquicksort fst)); intros l;
    apply aquicksort_spec.
Qed.

(** Selecting by timestamp commutes with taking the rows of positions
    that come from the frame. *)
Lemma take_filter (df : list row) (t : Z) (ps : list (Z * nat)) :
  (forall p, In p ps ->
             In p (combine (map timestamp df) (seq 0 (length df)))) ->
  filter (fun r => timestamp r =? t) (take df (map snd ps))
  = take df (map snd (filter (fun p => fst p =? t) ps)).
Proof.
  induction ps as [|[k i] ps IH]; intros H; [reflexivity|].
  assert (Hp : In (k, i) (combine (map timestamp df) (seq 0 (length df))))
    by (apply H; now left).
  assert (Hi : (i < length df)%nat).
  { apply in_combine_r in Hp. apply in_seq in Hp. lia. }
  rewrite <- (length_map timestamp df) in Hp.
  apply in_combine_seq in Hp as [_ Hk]. rewrite Nat.sub_0_r in Hk.
  destruct (nth_error df i) as [r|] eqn:E;
    [|apply nth_error_None in E; lia].
  assert (Hr : timestamp r = k).
  { rewrite <- Hk.
    rewrite (nth_error_nth (map timestamp df) i 0 (x := timestamp r));
      [reflexivity|]. now rewrite nth_error_map, E. }
  unfold take in *. cbn [map flat_map filter snd fst].
  rewrite E, filter_app, IH by (intros p Hin; apply H; now right).
  cbn [filter app]. rewrite Hr.
  destruct (k =? t); [|reflexivity].
  cbn [map flat_map snd]. now rewrite E.
Qed.

(** Up to 17 rows the default sort is the insertion sort, which keeps
    equal timestamps in the order in which they were stored. *)
Lemma numpy_small_stable (df : list row) :
  (length df <= 17)%nat ->
  ties_in_insertion_order df (sort_values numpy_argsort df).
Proof.
  intros L t. unfold sort_values, numpy_argsort.
  rewrite length_map.
  set (pairs := combine (map timestamp df) (seq 0 (length df))).
  assert (Lp : (length pairs <= 17)%nat).
  { subst pairs. rewrite length_combine, length_map, length_seq. lia. }
  assert (Es : map snd pairs = seq 0 (length df)).
  { subst pairs. rewrite <- (length_map timestamp df).
    apply snd_combine_seq. }
  rewrite (aquicksort_small fst pairs Lp).
  rewrite take_filter.
  - rewrite (insertion_stable fst pairs t).
    rewrite <- take_filter by auto.
    now rewrite Es, take_all.
  - intros p Hp. apply (Permutation_in _ (insertion_perm fst pairs)).
    exact Hp.
Qed.

(** C6, as amended.  The frame read back for analysis holds exactly the
    stored records, in ascending order of timestamp.  Records with
    equal timestamps appear in the order in which they were stored as
    long as the store holds at most 17 records, the size up to which the
    default sort of numpy is an insertion sort. *)
Theorem read_view_sorted_by_timestamp :
  forall stored : list row,
    Permutation (sort_values numpy_argsort stored) stored
    /\ ascending (sort_values numpy_argsort stored)
    /\ ((length stored <= 17)%nat ->
        ties_in_insertion_order stored (sort_values numpy_argsort stored)).
Proof.
  intros stored.
  destruct (sort_values_sorted_permutation numpy_argsort
              numpy_argsort_contract stored) as [P S].
  split; [exact P|]. split; [exact S|]. apply numpy_small_stable.
Qed.

Lemma read_view_sorted_by_timestamp_witness :
  (length tied_rows <= 17)%nat
  /\ ties_in_insertion_order tied_rows (sort_values numpy_argsort tied_rows)
  /\ sort_values numpy_argsort tied_rows = tied_rows.
Proof.
  split; [cbn; lia|]. split.
  - apply (proj2 (proj2 (read_view_sorted_by_timestamp tied_rows))).
    cbn. lia.
  - vm_compute. reflexivity.
Defined.

(** C6 fails as stated.  Eighteen records stored at the same instant
    come back from the sort with the second to the sixteenth in reverse:
    ascending order holds, insertion order among equal timestamps does
    not. *)
Lemma default_sort_need_not_keep_insertion_order :
  map status_code (sort_values numpy_argsort eighteen_tied)
  = map (fun c => [c]) (lit "APONMLKJIHGFEDCBQR")
  /\ ascending (sort_values numpy_argsort eighteen_tied)
  /\ ~ ties_in_insertion_order
         eighteen_tied (sort_values numpy_argsort eighteen_tied).
Proof.
  split; [vm_compute; reflexivity|].
  split; [apply sort_values_sorted_permutation;
          exact numpy_argsort_contract|].
  intros H. specialize (H (seconds 1)).
  apply (f_equal (map status_code)) in H.
  vm_compute in H. discriminate H.
Qed.

End DetectorProperties.

(* ================================================================== *)
(** * The two programs together *)
(* ================================================================== *)

Module EndToEnd.
Import Py Store.

(** A session of two readings five seconds apart, the second one hot;
    the detector, run on the file the logger leaves, reports the
    temperature breach, the rapid change and the heartbeat loss, all at
    the second reading and in detector order. *)
Lemma logger_then_detector :
  let session :=
    Logger.mkSession Logger.Created true
      [Logger.Readline Logger.good_reading (Detector.seconds 0)
                       Logger.no_faults;
       Logger.Readline
         (Logger.encode_ascii "T:95.50,V:5.00,S:X" ++ Logger.newline)
         (Detector.seconds 5) Logger.no_faults] in
  let file := Logger.csv_file (fst (Logger.main session Logger.fresh)) in
  option_map
    (map (fun a => (Detector.anomaly_timestamp a, Detector.anomaly_type a)))
    (Detector.main Detector.python_format Detector.seconds_by_division
                   Detector.argsort_stable file)
  = Some [(Detector.seconds 5, Detector.THRESHOLD_BREACH_TEMP);
          (Detector.seconds 5, Detector.RAPID_CHANGE_TEMP);
          (Detector.seconds 5, Detector.HEARTBEAT_LOSS)].
Proof.
  vm_compute. reflexivity.
Qed.

End EndToEnd.

(* ================================================================== *)
(** * Further properties: the wire encoding *)
(* ================================================================== *)

Module PyExtras.
Import Py.

Local Open Scope N_scope.

Ltac to_props :=
  repeat match goal with
  | H : (_ <? _) = true |- _ => apply N.ltb_lt in H
  | H : (_ <? _) = false |- _ => apply N.ltb_ge in H
  | H : (_ <=? _) = true |- _ => apply N.leb_le in H
  | H : (_ <=? _) = false |- _ => apply N.leb_gt in H
  | H : (_ =? _) = true |- _ => apply N.eqb_eq in H
  | H : (_ =? _) = false |- _ => apply N.eqb_neq in H
  | H : andb _ _ = true |- _ => apply andb_true_iff in H; destruct H
  end.

Ltac settle_test t lem_true lem_false :=
  first [ replace t with true by (symmetry; apply lem_true; lia)
        | replace t with false by (symmetry; apply lem_false; lia)
        | let E := fresh "E" in destruct t eqn:E; to_props ].

Ltac settle_tests :=
  repeat (try unfold in_range, continuation, second_of_3, second_of_4;
          cbv beta iota delta [andb negb];
          match goal with
          | |- context [?a <? ?b] =>
            settle_test (a <? b) (proj2 (N.ltb_lt a b)) (proj2 (N.ltb_ge a b))
          | |- context [?a <=? ?b] =>
            settle_test (a <=? b) (proj2 (N.leb_le a b)) (proj2 (N.leb_gt a b))
          | |- context [?a =? ?b] =>
            settle_test (a =? b) (proj2 (N.eqb_eq a b)) (proj2 (N.eqb_neq a b))
          end); cbv beta iota delta [andb negb].

(** The octets of an encoded character, named. *)
Ltac name_octets H bs :=
  match type of H with
  | Some ?l = _ => assert (bs = l) by congruence
  end; subst bs; clear H.

Lemma split_64 (c : N) : c = 64 * (c / 64) + c mod 64 /\ c mod 64 < 64.
Proof. split; [apply N.div_mod; lia|apply N.mod_lt; lia]. Qed.

Lemma not_surrogate (c : N) :
  in_range 0xD800 0xDFFF c = false -> c < 0xD800 \/ 0xDFFF < c.
Proof.
  unfold in_range.
  destruct (0xD800 <=? c) eqn:A, (c <=? 0xDFFF) eqn:B; try discriminate;
    to_props; lia.
Qed.

Lemma decode_octets_cons b0 r0 :
  decode_octets (b0 :: r0) =
    if b0 <? 0x80 then option_map (cons b0) (decode_octets r0)
    else if in_range 0xC2 0xDF b0 then
      match r0 with
      | b1 :: r1 =>
        if continuation b1
        then option_map (cons ((b0 - 0xC0) * 64 + (b1 - 0x80)))
                        (decode_octets r1)
        else None
      | _ => None
      end
    else if in_range 0xE0 0xEF b0 then
      match r0 with
      | b1 :: b2 :: r2 =>
        if second_of_3 b0 b1 && continuation b2
        then option_map
               (cons ((b0 - 0xE0) * 4096 + (b1 - 0x80) * 64 + (b2 - 0x80)))
               (decode_octets r2)
        else None
      | _ => None
      end
    else if in_range 0xF0 0xF4 b0 then
      match r0 with
      | b1 :: b2 :: b3 :: r3 =>
        if second_of_4 b0 b1 && continuation b2 && continuation b3
        then option_map
               (cons ((b0 - 0xF0) * 262144 + (b1 - 0x80) * 4096
                      + (b2 - 0x80) * 64 + (b3 - 0x80)))
               (decode_octets r3)
        else None
      | _ => None
      end
    else None.
Proof. reflexivity. Qed.

(** Decoding reads back one encoded character and goes on. *)
Lemma decode_encode_char c bs rest :
  encode_char c = Some bs ->
  decode_octets (bs ++ rest) = option_map (cons c) (decode_octets rest).
Proof.
  unfold encode_char.
  destruct (c <? 0x80) eqn:E1.
  { intros H. name_octets H bs.
    rewrite <- ?app_comm_cons, app_nil_l, decode_octets_cons.
    now rewrite E1. }
  destruct (c <? 0x800) eqn:E2.
  { intros H. name_octets H bs.
    rewrite <- ?app_comm_cons, app_nil_l, decode_octets_cons. to_props.
    destruct (split_64 c) as [Hc Hr].
    revert Hc Hr. generalize (c / 64) (c mod 64). intros q r Hc Hr.
    settle_tests. do 2 f_equal. lia. }
  destruct (c <? 0x10000) eqn:E3.
  { destruct (in_range 0xD800 0xDFFF c) eqn:E4; [discriminate|].
    intros H. name_octets H bs.
    rewrite <- ?app_comm_cons, app_nil_l, decode_octets_cons. to_props.
    replace (c / 4096) with (c / 64 / 64) by (now rewrite N.Div0.div_div).
    destruct (split_64 c) as [Hc Hr].
    destruct (split_64 (c / 64)) as [Hc' Hr'].
    apply not_surrogate in E4.
    revert Hc Hr Hc' Hr'.
    generalize (c / 64 / 64) ((c / 64) mod 64) (c mod 64).
    generalize (c / 64). intros q1 q2 m r Hc Hr Hc' Hr'.
    settle_tests.
    all: do 2 f_equal; lia. }
  destruct (c <=? 0x10FFFF) eqn:E4; [|discriminate].
  intros H. name_octets H bs.
  rewrite <- ?app_comm_cons, app_nil_l, decode_octets_cons. to_props.
  replace (c / 262144) with (c / 64 / 64 / 64)
    by (now rewrite !N.Div0.div_div).
  replace (c / 4096) with (c / 64 / 64) by (now rewrite N.Div0.div_div).
  destruct (split_64 c) as [Hc Hr].
  destruct (split_64 (c / 64)) as [Hc' Hr'].
  destruct (split_64 (c / 64 / 64)) as [Hc'' Hr''].
  revert Hc Hr Hc' Hr' Hc'' Hr''.
  generalize (c / 64 / 64 / 64) ((c / 64 / 64) mod 64) ((c / 64) mod 64)
             (c mod 64).
  generalize (c / 64 / 64). generalize (c / 64).
  intros q1 q2 q3 m2 m1 r Hc Hr Hc' Hr' Hc'' Hr''.
  settle_tests.
  all: do 2 f_equal; lia.
Qed.

(** Every octet of an encoded character fits a byte. *)
Lemma encode_char_octets c bs :
  encode_char c = Some bs -> Forall (fun b => b <= 255) bs.
Proof.
  unfold encode_char.
  destruct (c <? 0x80) eqn:E1.
  { intros H. name_octets H bs. to_props. repeat constructor. lia. }
  destruct (c <? 0x800) eqn:E2.
  { intros H. name_octets H bs. to_props.
    destruct (split_64 c) as [Hc Hr].
    revert Hc Hr. generalize (c / 64) (c mod 64). intros q r Hc Hr.
    repeat constructor; lia. }
  destruct (c <? 0x10000) eqn:E3.
  { destruct (in_range 0xD800 0xDFFF c) eqn:E4; [discriminate|].
    intros H. name_octets H bs. to_props.
    replace (c / 4096) with (c / 64 / 64) by (now rewrite N.Div0.div_div).
    destruct (split_64 c) as [Hc Hr].
    destruct (split_64 (c / 64)) as [Hc' Hr'].
    revert Hc Hr Hc' Hr'.
    generalize (c / 64 / 64) ((c / 64) mod 64) (c mod 64).
    generalize (c / 64). intros q1 q2 m r Hc Hr Hc' Hr'.
    repeat constructor; lia. }
  destruct (c <=? 0x10FFFF) eqn:E4; [|discriminate].
  intros H. name_octets H bs. to_props.
  replace (c / 262144) with (c / 64 / 64 / 64)
    by (now rewrite !N.Div0.div_div).
  replace (c / 4096) with (c / 64 / 64) by (now rewrite N.Div0.div_div).
  destruct (split_64 c) as [Hc Hr].
  destruct (split_64 (c / 64)) as [Hc' Hr'].
  destruct (split_64 (c / 64 / 64)) as [Hc'' Hr''].
  revert Hc Hr Hc' Hr' Hc'' Hr''.
  generalize (c / 64 / 64 / 64) ((c / 64 / 64) mod 64) ((c / 64) mod 64)
             (c mod 64).
  generalize (c / 64 / 64). generalize (c / 64).
  intros q1 q2 q3 m2 m1 r Hc Hr Hc' Hr' Hc'' Hr''.
  repeat constructor; lia.
Qed.

Lemma encode_char_scalar c :
  scalar c = true <-> exists bs, encode_char c = Some bs.
Proof.
  unfold scalar, encode_char.
  destruct (c <? 0x80) eqn:E1.
  { split; [eauto|]. intros _. unfold in_range.
    to_props. settle_tests. reflexivity. }
  destruct (c <? 0x800) eqn:E2.
  { split; [eauto|]. intros _. unfold in_range.
    to_props. settle_tests. reflexivity. }
  destruct (c <? 0x10000) eqn:E3.
  { to_props. replace (c <=? 0x10FFFF) with true
      by (symmetry; apply N.leb_le; lia).
    destruct (in_range 0xD800 0xDFFF c); cbn [andb negb].
    - split; [discriminate|]. intros [bs H]. discriminate.
    - split; eauto. }
  destruct (c <=? 0x10FFFF) eqn:E4; cbn [andb].
  - to_props. split; [eauto|]. intros _. unfold in_range.
    settle_tests. reflexivity.
  - split; [discriminate|]. intros [bs H]. discriminate.
Qed.

Lemma decode_encode_octets s :
  forall ns, encode_octets s = Some ns -> decode_octets ns = Some s.
Proof.
  induction s as [|c r IH]; intros ns H; cbn [encode_octets] in H.
  - now injection H as <-.
  - destruct (encode_char c) as [bs|] eqn:Ec; [|discriminate].
    destruct (encode_octets r) as [rest|]; [|discriminate].
    injection H as <-.
    rewrite (decode_encode_char c bs rest Ec), (IH rest eq_refl).
    reflexivity.
Qed.

Lemma encode_octets_bytes s :
  forall ns, encode_octets s = Some ns -> Forall (fun b => b <= 255) ns.
Proof.
  induction s as [|c r IH]; intros ns H; cbn [encode_octets] in H.
  - injection H as <-. constructor.
  - destruct (encode_char c) as [bs|] eqn:Ec; [|discriminate].
    destruct (encode_octets r) as [rest|]; [|discriminate].
    injection H as <-. apply Forall_app. split.
    + now apply encode_char_octets with c.
    + now apply IH.
Qed.

Lemma encode_octets_scalar s :
  forallb scalar s = true <-> exists ns, encode_octets s = Some ns.
Proof.
  induction s as [|c r IH]; cbn [forallb encode_octets].
  - split; eauto.
  - rewrite andb_true_iff, IH, encode_char_scalar. split.
    + intros [[bs ->] [ns ->]]. eauto.
    + intros [ns H]. destruct (encode_char c); [|discriminate].
      destruct (encode_octets r); [|discriminate]. eauto.
Qed.

Lemma to_bytes_octets ns :
  forall bs, to_bytes ns = Some bs -> map Byte.to_N bs = ns.
Proof.
  induction ns as [|n r IH]; intros bs H; cbn [to_bytes] in H.
  - now injection H as <-.
  - destruct (Byte.of_N n) as [b|] eqn:Eb; [|discriminate].
    destruct (to_bytes r) as [rest|]; [|discriminate].
    injection H as <-. cbn [map].
    now rewrite (Strings.Byte.to_of_N n Eb), (IH rest eq_refl).
Qed.

Lemma to_bytes_total ns :
  Forall (fun b => b <= 255) ns -> exists bs, to_bytes ns = Some bs.
Proof.
  induction 1 as [|n r Hn Hr [bs IH]]; cbn [to_bytes]; [eauto|].
  destruct (Byte.of_N n) as [b|] eqn:Eb.
  - rewrite IH. eauto.
  - apply Strings.Byte.of_N_None_iff in Eb. lia.
Qed.

(** A text without lone surrogates is encoded, and decodes to itself. *)
Lemma utf8_encodes_and_decodes (s : str) :
  forallb scalar s = true ->
  exists data, encode_utf8 s = Some data /\ decode_utf8 data = Some s.
Proof.
  intros H. apply encode_octets_scalar in H as [ns E].
  destruct (to_bytes_total ns (encode_octets_bytes s ns E)) as [data T].
  exists data. unfold encode_utf8, decode_utf8. rewrite E. split; [exact T|].
  rewrite (to_bytes_octets ns data T). now apply decode_encode_octets.
Qed.

(** X1.  UTF-8 round trip between the emulator and the logger: a text
    can be encoded exactly when it holds no lone surrogate (and no code
    point above U+10FFFF), and decoding the encoded bytes gives the text
    back. *)
Theorem utf8_round_trip :
  forall s : str,
    (forallb scalar s = true <-> exists data, encode_utf8 s = Some data)
    /\ (forall data, encode_utf8 s = Some data -> decode_utf8 data = Some s).
Proof.
  intros s. unfold encode_utf8, decode_utf8. split.
  - rewrite encode_octets_scalar. split.
    + intros [ns H]. rewrite H.
      apply to_bytes_total. now apply encode_octets_bytes with s.
    + intros [data H]. destruct (encode_octets s); [eauto|discriminate].
  - intros data H.
    destruct (encode_octets s) as [ns|] eqn:E; [|discriminate].
    rewrite (to_bytes_octets ns data H). now apply decode_encode_octets.
Qed.

Lemma utf8_round_trip_witness :
  encode_utf8 [0x54; 0xE9; 0x20AC; 0x1F600]
  = Some [Byte.x54; Byte.xc3; Byte.xa9; Byte.xe2; Byte.x82; Byte.xac;
          Byte.xf0; Byte.x9f; Byte.x98; Byte.x80]
  /\ decode_utf8 [Byte.x54; Byte.xc3; Byte.xa9; Byte.xe2; Byte.x82; Byte.xac;
                  Byte.xf0; Byte.x9f; Byte.x98; Byte.x80]
     = Some [0x54; 0xE9; 0x20AC; 0x1F600].
Proof.
  assert (E : encode_utf8 [0x54; 0xE9; 0x20AC; 0x1F600]
              = Some [Byte.x54; Byte.xc3; Byte.xa9; Byte.xe2; Byte.x82;
                      Byte.xac; Byte.xf0; Byte.x9f; Byte.x98; Byte.x80])
    by (vm_compute; reflexivity).
  split; [exact E|].
  exact (proj2 (utf8_round_trip [0x54; 0xE9; 0x20AC; 0x1F600]) _ E).
Defined.

End PyExtras.

(* ================================================================== *)
(** * Further properties of the logger *)
(* ================================================================== *)

Module LoggerExtras.
Import Py Store Logger LoggerProperties.

(** ** One pass of the loop, case by case *)

(** What a chunk does once decoded and found non-empty. *)
Lemma handle_line_cases now io line st :
  let st1 := log_raw now io line st in
  (exists t v s,
      parse_fields line = Ok (t, v, s)
      /\ parse_and_store now io line st1 =
         if csv_fails io then (st1, Some OSError)
         else (print (Logged (mkRow now t v s))
                     (write_csv (Row (mkRow now t v s)) st1), None))
  \/ (exists m,
         parse_fields line = Raise (ValueError m)
         /\ parse_and_store now io line st1 =
            (parse_error_handler now io line (ValueError m) st1, None)).
Proof.
  intros st1.
  destruct (parse_fields_characterised line) as [_ [[[[t v] s] H]|[m H]]].
  - left. exists t, v, s. split; [exact H|]. now apply parse_and_store_ok.
  - right. exists m. split; [exact H|].
    now apply parse_and_store_value_error.
Qed.

Lemma strip_blank (text : str) :
  forallb isspace text = true -> strip text = [].
Proof.
  intros H. unfold strip, strip_with.
  assert (L : lstrip_with isspace text = []).
  { induction text as [|c r IH]; [reflexivity|].
    cbn [forallb] in H. apply andb_true_iff in H as [Hc Hr].
    cbn [lstrip_with]. rewrite Hc. now apply IH. }
  now rewrite L.
Qed.

(** X2.  A chunk that decodes to nothing but white space (the empty
    chunk of a read timeout, a bare newline, blanks) is dropped: no file
    is written, nothing is printed and the loop goes on. *)
Theorem blank_chunk_is_ignored :
  forall (data : bytes) (now : Z) (io : faults) (st : state) (text : str),
    decode_utf8 data = Some text ->
    forallb isspace text = true ->
    iteration (Readline data now io) st = (st, None).
Proof.
  intros data now io st text Hd Hb. cbn [iteration].
  now rewrite Hd, (strip_blank text Hb).
Qed.

Lemma blank_chunk_is_ignored_witness :
  iteration (Readline (encode_ascii "  " ++ [Byte.x0d; Byte.x0a]) 7
                      (mkFaults true true true)) after_earlier_session
  = (after_earlier_session, None).
Proof.
  apply (blank_chunk_is_ignored _ 7 _ _ (lit "  " ++ [13; 10]%N)).
  - vm_compute. reflexivity.
  - vm_compute. reflexivity.
Defined.

(** ** What one line writes *)

(** The three files after a non-empty line: the raw entry unless the raw
    log fails; then either the record (unless the CSV file fails, which
    raises) or the parse error (unless the error log fails). *)
Lemma line_effect now io line st :
  let r := parse_and_store now io line (log_raw now io line st) in
  raw_log (fst r)
  = raw_log st ++ only_if (negb (raw_fails io)) [mkRaw now line]
  /\ ((exists t v s,
          parse_fields line = Ok (t, v, s)
          /\ csv_file (fst r)
             = csv_file st
               ++ only_if (negb (csv_fails io)) [Row (mkRow now t v s)]
          /\ error_log (fst r) = error_log st
          /\ snd r = if csv_fails io then Some OSError else None)
      \/ (exists m,
             parse_fields line = Raise (ValueError m)
             /\ csv_file (fst r) = csv_file st
             /\ error_log (fst r)
                = error_log st
                  ++ only_if (negb (error_fails io))
                             [mkError now (ValueError m)]
             /\ snd r = None)).
Proof.
  cbv zeta.
  assert (R : raw_log (log_raw now io line st)
              = raw_log st ++ only_if (negb (raw_fails io)) [mkRaw now line]
              /\ csv_file (log_raw now io line st) = csv_file st
              /\ error_log (log_raw now io line st) = error_log st).
  { unfold log_raw. destruct (raw_fails io); cbn;
      rewrite ?app_nil_r; auto. }
  destruct R as (R1 & R2 & R3).
  destruct (handle_line_cases now io line st)
    as [(t & v & s & P & H)|(m & P & H)]; rewrite H.
  - split.
    + destruct (csv_fails io); cbn; exact R1.
    + left. exists t, v, s. split; [exact P|].
      destruct (csv_fails io); cbn; rewrite ?app_nil_r, ?R2, ?R3; auto.
  - split.
    + unfold parse_error_handler.
      destruct (error_fails io); cbn; exact R1.
    + right. exists m. split; [exact P|].
      unfold parse_error_handler.
      destruct (error_fails io); cbn; rewrite ?app_nil_r, ?R2, ?R3; auto.
Qed.

(** X5.  The raw audit entry does not depend on the fate of the line:
    whenever a chunk decodes to a non-empty line and the raw log can be
    written, exactly one entry, the arrival time and the stripped line,
    is appended to it, whether the line then parses, is rejected, or the
    CSV append fails and ends the service. *)
Theorem raw_entry_is_unconditional :
  forall (data : bytes) (now : Z) (io : faults) (st : state) (text : str),
    decode_utf8 data = Some text ->
    strip text <> [] ->
    raw_fails io = false ->
    raw_log (fst (iteration (Readline data now io) st))
    = raw_log st ++ [mkRaw now (strip text)].
Proof.
  intros data now io st text Hd Hs Hr. cbn [iteration]. rewrite Hd.
  destruct (strip text) as [|c r] eqn:E; [contradiction|].
  destruct (line_effect now io (c :: r) st) as [H _].
  rewrite H, Hr. reflexivity.
Qed.

Lemma raw_entry_is_unconditional_witness :
  raw_log (fst (iteration
                  (Readline good_reading 7 (mkFaults false true true))
                  fresh))
  = raw_log fresh ++ [mkRaw 7 (strip (lit "T:50.0,V:5.0,S:OK" ++ [10]%N))].
Proof.
  apply (raw_entry_is_unconditional good_reading 7
           (mkFaults false true true) fresh
           (lit "T:50.0,V:5.0,S:OK" ++ [10]%N)).
  - vm_compute. reflexivity.
  - vm_compute. discriminate.
  - reflexivity.
Defined.

(** ** Accounting *)

(** One quiet pass: whether the loop goes on, and the three files. *)
Lemma iteration_heard ev rest st :
  quiet ev = true ->
  raw_log (fst (iteration ev st)) = raw_log st ++ map raw_of (heard [ev])
  /\ csv_file (fst (iteration ev st))
     = csv_file st ++ flat_map record_of (heard [ev])
  /\ error_log (fst (iteration ev st))
     = error_log st ++ flat_map parse_error_of (heard [ev])
  /\ heard (ev :: rest)
     = heard [ev] ++ match snd (iteration ev st) with
                     | None => heard rest
                     | Some _ => []
                     end.
Proof.
  assert (N : raw_log st = raw_log st ++ map raw_of []
              /\ csv_file st = csv_file st ++ flat_map record_of []
              /\ error_log st
                 = error_log st ++ flat_map parse_error_of [])
    by (cbn; now rewrite !app_nil_r).
  destruct N as (N1 & N2 & N3).
  destruct ev as [data now io| |]; cbn [quiet iteration heard fst snd];
    try (intros _; now auto); try discriminate.
  intros F. apply andb_true_iff in F as [F Fe].
  apply andb_true_iff in F as [Fr Fc].
  apply negb_true_iff in Fr, Fc, Fe.
  destruct (decode_utf8 data) as [text|]; [|now auto].
  destruct (strip text) as [|c r]; [now auto|].
  cbn [map flat_map app]. unfold raw_of, record_of, parse_error_of.
  cbn [fst snd].
  destruct (line_effect now io (c :: r) st)
    as [R [(t & v & s & P & C & E & L)|(m & P & C & E & L)]];
    rewrite R, C, E, P, L, ?Fr, ?Fc, ?Fe; cbn [negb only_if];
    rewrite ?app_nil_r; auto.
Qed.

(** X6.  With no sink failing and no interrupt, every line heard is
    accounted for exactly once: after any session the raw log is what it
    was followed by one entry per line heard, in order, and each of
    these lines has left either its record at the end of the CSV file
    (when it parses) or its parse error at the end of the error log
    (when it does not), never both and never neither; also when the
    session ends on an undecodable chunk or on the loss of the link. *)
Theorem every_line_accounted_for :
  forall (evs : list event) (st : state),
    forallb quiet evs = true ->
    raw_log (fst (loop evs st)) = raw_log st ++ map raw_of (heard evs)
    /\ csv_file (fst (loop evs st))
       = csv_file st ++ flat_map record_of (heard evs)
    /\ error_log (fst (loop evs st))
       = error_log st ++ flat_map parse_error_of (heard evs).
Proof.
  induction evs as [|ev rest IH]; intros st F.
  - cbn. now rewrite !app_nil_r.
  - cbn [forallb] in F. apply andb_true_iff in F as [Fev Frest].
    destruct (iteration_heard ev rest st Fev) as (R & C & E & H).
    cbn [loop]. rewrite H.
    destruct (iteration ev st) as [st1 [e|]]; cbn [fst snd] in *.
    + rewrite app_nil_r. auto.
    + destruct (IH st1 Frest) as (R' & C' & E').
      rewrite R', C', E', R, C, E.
      now rewrite map_app, !flat_map_app, !app_assoc.
Qed.

Lemma every_line_accounted_for_witness :
  let st' :=
    fst (loop [Readline good_reading 1 no_faults;
               Readline (encode_ascii "garbage" ++ newline) 2 no_faults;
               Readline undecodable 3 no_faults;
               Readline good_reading 4 no_faults]
              after_earlier_session) in
  raw_log st'
  = [mkRaw 1 (lit "T:50.0,V:5.0,S:OK"); mkRaw 2 (lit "garbage")]
  /\ csv_file st'
     = csv_file after_earlier_session
       ++ [Row (mkRow 1 (float_lit "50.0") (float_lit "5.0") (lit "OK"))]
  /\ error_log st'
     = [mkError 2 (ValueError (Malformed_data_structure (lit "garbage")))].
Proof.
  destruct (every_line_accounted_for
              [Readline good_reading 1 no_faults;
               Readline (encode_ascii "garbage" ++ newline) 2 no_faults;
               Readline undecodable 3 no_faults;
               Readline good_reading 4 no_faults]
              after_earlier_session eq_refl) as (R & C & E).
  cbv zeta. rewrite R, C, E. repeat split.
Defined.

(** ** Sessions *)
(** ** Sessions *)

(** The state in which the loop starts. *)
Lemma main_opened s st :
  port_opens s = true ->
  main s st =
    outer_handlers
      (snd (loop (events s)
                 (print Logger_service_started
                        (setup_csv (setup s) st))))
      (fst (loop (events s)
                 (print Logger_service_started
                        (setup_csv (setup s) st)))).
Proof.
  intros H. unfold main. rewrite H.
  now destruct (loop (events s) _) as [st2 r].
Qed.

Lemma outer_handlers_files r st :
  raw_log (fst (outer_handlers r st)) = raw_log st
  /\ csv_file (fst (outer_handlers r st)) = csv_file st
  /\ error_log (fst (outer_handlers r st)) = error_log st.
Proof.
  destruct r as [[]|]; cbn; auto.
Qed.

(** ** The port is closed once *)

Lemma closings_print o st :
  closings (console (print o st))
  = (closings (console st)
     + match o with Serial_port_closed => 1 | _ => 0 end)%nat.
Proof.
  unfold closings, print. cbn [console].
  rewrite filter_app, length_app. now destruct o.
Qed.

Lemma iteration_closings ev st :
  closings (console (fst (iteration ev st))) = closings (console st).
Proof.
  destruct ev as [data now io| |]; cbn [iteration fst]; try reflexivity.
  destruct (decode_utf8 data) as [text|]; [|reflexivity].
  destruct (strip text) as [|c r]; [reflexivity|].
  assert (L : closings (console (log_raw now io (c :: r) st))
              = closings (console st)).
  { unfold log_raw. destruct (raw_fails io);
      [rewrite closings_print; lia|reflexivity]. }
  destruct (handle_line_cases now io (c :: r) st)
    as [(t & v & s & _ & H)|(m & _ & H)]; rewrite H.
  - destruct (csv_fails io); cbn [fst]; [exact L|].
    rewrite closings_print. cbn [write_csv console].
    fold (console (log_raw now io (c :: r) st)). lia.
  - cbn [fst]. unfold parse_error_handler.
    destruct (error_fails io); rewrite ?closings_print;
      cbn [write_error console]; rewrite ?closings_print; lia.
Qed.

Lemma loop_closings evs :
  forall st, closings (console (fst (loop evs st))) = closings (console st).
Proof.
  induction evs as [|ev rest IH]; intros st; [reflexivity|].
  cbn [loop]. pose proof (iteration_closings ev st) as H.
  destruct (iteration ev st) as [st' [e|]]; cbn [fst] in *; [exact H|].
  now rewrite IH.
Qed.

(** X8.  The serial port is released exactly once on every way out of
    the loop and never otherwise: a run prints the closing of the port
    once if the port was opened and the loop has ended (stopped, link
    lost, or an uncaught exception), and not at all if the port never
    opened or the loop is still waiting. *)
Theorem port_closed_exactly_once :
  forall (s : session) (st : state),
    closings (console (fst (main s st)))
    = (closings (console st)
       + if port_opens s
         then match snd (main s st) with
              | RUNNING => 0
              | _ => 1
              end
         else 0)%nat.
Proof.
  intros s st.
  assert (S : forall b,
             closings (console (print Logger_service_started
                                      (setup_csv b st)))
             = closings (console st)).
  { intros b. rewrite closings_print. unfold setup_csv.
    destruct b; rewrite closings_print;
      cbn [create_csv truncate_csv console]; lia. }
  destruct (port_opens s) eqn:P.
  - rewrite main_opened by exact P.
    pose proof (loop_closings (events s)
                  (print Logger_service_started
                         (setup_csv (setup s) st))) as L.
    rewrite S in L.
    destruct (loop (events s) _) as [st2 [e|]]; cbn [fst snd] in *.
    + destruct e; cbn [outer_handlers fst snd];
        rewrite ?closings_print; lia.
    + cbn. lia.
  - unfold main. rewrite P. cbn [fst]. rewrite closings_print, S. lia.
Qed.

(** ** The logs and the store over a whole run *)

Lemma iteration_logs ev st :
  exists r e,
    raw_log (fst (iteration ev st)) = raw_log st ++ r
    /\ error_log (fst (iteration ev st)) = error_log st ++ e.
Proof.
  destruct ev as [data now io| |]; cbn [iteration fst];
    try (exists [], []; now rewrite !app_nil_r).
  destruct (decode_utf8 data) as [text|];
    [|exists [], []; now rewrite !app_nil_r].
  destruct (strip text) as [|c r];
    [exists [], []; now rewrite !app_nil_r|].
  destruct (line_effect now io (c :: r) st)
    as [R [(t & v & s & _ & _ & E & _)|(m & _ & _ & E & _)]];
    rewrite R, E; eexists; eexists; split; try reflexivity.
  now rewrite app_nil_r.
Qed.

Lemma loop_logs evs :
  forall st, exists r e,
    raw_log (fst (loop evs st)) = raw_log st ++ r
    /\ error_log (fst (loop evs st)) = error_log st ++ e.
Proof.
  induction evs as [|ev rest IH]; intros st; cbn [loop].
  - exists [], []. now rewrite !app_nil_r.
  - destruct (iteration_logs ev st) as (r1 & e1 & R1 & E1).
    destruct (iteration ev st) as [st' [e|]]; cbn [fst] in *.
    + eauto.
    + destruct (IH st') as (r2 & e2 & R2 & E2).
      exists (r1 ++ r2), (e1 ++ e2).
      now rewrite R2, E2, R1, E1, !app_assoc.
Qed.

(** X9.  Unlike the CSV file, the raw log and the parse-error log are
    append-only over a whole run of the program, start-up included:
    after any session both logs are what they were, followed by what the
    run added. *)
Theorem logs_are_append_only :
  forall (s : session) (st : state),
    exists (raw_added : list raw_entry) (errors_added : list error_entry),
      raw_log (fst (main s st)) = raw_log st ++ raw_added
      /\ error_log (fst (main s st)) = error_log st ++ errors_added.
Proof.
  intros s st.
  assert (S : raw_log (print Logger_service_started
                             (setup_csv (setup s) st)) = raw_log st
              /\ error_log (print Logger_service_started
                                  (setup_csv (setup s) st))
                 = error_log st).
  { unfold setup_csv. destruct (setup s); cbn; auto. }
  destruct S as [S1 S2].
  destruct (port_opens s) eqn:P.
  - rewrite main_opened by exact P.
    destruct (outer_handlers_files
                (snd (loop (events s)
                           (print Logger_service_started
                                  (setup_csv (setup s) st))))
                (fst (loop (events s)
                           (print Logger_service_started
                                  (setup_csv (setup s) st)))))
      as (H1 & _ & H3).
    rewrite H1, H3.
    destruct (loop_logs (events s)
                (print Logger_service_started
                       (setup_csv (setup s) st)))
      as (r & e & R & E).
    exists r, e. now rewrite R, E, S1, S2.
  - unfold main. rewrite P. cbn [fst].
    exists [], []. rewrite !app_nil_r. cbn. auto.
Qed.

(** ** The store the detector will read *)






End LoggerExtras.

(* ================================================================== *)
(** * Further properties of the detector *)
(* ================================================================== *)

Module DetectorExtras.
Import Py Store Detector DetectorProperties.

Local Open Scope Z_scope.

(** ** The defensive sort on a store already in order *)

Lemma ascending_arrangement_unique (l : list row) :
  forall l',
    StronglySorted (fun a b => timestamp a < timestamp b) l ->
    ascending l' ->
    Permutation l' l ->
    l' = l.
Proof.
  induction l as [|a r IH]; intros l' Hl Hl' P.
  - apply Permutation_sym, Permutation_nil in P. exact P.
  - destruct l' as [|b r'].
    + apply Permutation_nil in P. discriminate.
    + inversion Hl as [|? ? Hr Ha]; subst.
      inversion Hl' as [|? ? Hr' Hb]; subst.
      assert (E : b = a).
      { assert (Hb_in : In b (a :: r))
          by (apply (Permutation_in _ P); now left).
        assert (Ha_in : In a (b :: r'))
          by (apply (Permutation_in _ (Permutation_sym P)); now left).
        destruct Hb_in as [|Hb_in]; [auto|].
        destruct Ha_in as [|Ha_in]; [auto|].
        rewrite Forall_forall in Ha, Hb.
        specialize (Ha b Hb_in). specialize (Hb a Ha_in).
        cbv beta in *. lia. }
      subst b. f_equal. apply IH; auto.
      now apply Permutation_cons_inv with a.
Qed.

(** X11.  When the stored records are in strictly increasing order of
    timestamp, the sort of the frame changes nothing, whichever sorting
    algorithm the library uses: the detectors then see the records in the
    order in which they were stored. *)
Theorem sort_of_ordered_store_is_identity :
  forall argsort : list Z -> list nat,
    argsort_contract argsort ->
    forall stored : list row,
      StronglySorted (fun a b => timestamp a < timestamp b) stored ->
      sort_values argsort stored = stored.
Proof.
  intros argsort C stored S.
  destruct (sort_values_sorted_permutation argsort C stored) as [P A].
  now apply ascending_arrangement_unique.
Qed.

Lemma sort_of_ordered_store_is_identity_witness :
  sort_values argsort_ties_reversed forced_failures = forced_failures.
Proof.
  apply (sort_of_ordered_store_is_identity argsort_ties_reversed
           argsort_ties_reversed_contract forced_failures).
  repeat constructor.
Defined.

(** ** Where anomalies come from *)

Lemma take_incl (df : list row) (indexer : list nat) (r : row) :
  In r (take df indexer) -> In r df.
Proof.
  unfold take. rewrite in_flat_map. intros (i & _ & H).
  destruct (nth_error df i) as [x|] eqn:E; [|contradiction].
  destruct H as [<-|[]]. now apply nth_error_In with i.
Qed.

Section Origin.
Variable format_float : string -> float -> str.
Variable total_seconds : Z -> float.

Lemma found_from_rows (df : list row) (a : anomaly) :
  In a (anomalies_found format_float total_seconds df) ->
  (exists r, In r df /\ timestamp r = anomaly_timestamp a)
  /\ anomaly_severity a = severity_of (anomaly_type a).
Proof.
  unfold anomalies_found, temp_detector, voltage_detector, roc_detector,
    heartbeat_detector.
  rewrite !in_app_iff, !in_map_iff.
  intros [(r & <- & H)|[(r & <- & H)|[([r d] & <- & H)|([r d] & <- & H)]]].
  - apply filter_In in H as [H _]. split; [now exists r|reflexivity].
  - apply filter_In in H as [H _]. split; [now exists r|reflexivity].
  - apply filter_In in H as [H _]. apply in_combine_l in H.
    split; [now exists r|reflexivity].
  - apply filter_In in H as [H _]. apply in_combine_l in H.
    split; [now exists r|reflexivity].
Qed.

End Origin.

(** X12.  Every anomaly of the report is stamped with the timestamp of
    one of the stored records, whatever the order the frame was sorted
    into, and its severity is fixed by its kind: WARNING for a rapid
    change, CRITICAL for the three others. *)
Theorem anomalies_come_from_records :
  forall (format_float : string -> float -> str)
         (total_seconds : Z -> float)
         (argsort : list Z -> list nat)
         (stored : list row) (a : anomaly),
    In a (report (anomalies_found format_float total_seconds
                    (sort_values argsort stored))) ->
    (exists r, In r stored /\ timestamp r = anomaly_timestamp a)
    /\ anomaly_severity a = severity_of (anomaly_type a).
Proof.
  intros format_float total_seconds argsort stored a H.
  rewrite report_is_stable_sort in H.
  apply (Permutation_in _ (isort_perm _ _ _)) in H.
  apply found_from_rows in H as [(r & Hr & Ht) Hs].
  split; [|exact Hs]. exists r. split; [|exact Ht].
  now apply take_incl with (argsort (map timestamp stored)).
Qed.

Lemma anomalies_come_from_records_witness :
  let a := mkAnomaly (seconds 5) HEARTBEAT_LOSS CRITICAL
             (lit "No data received for 5.0 seconds. Device may be offline.")
  in
  (exists r, In r gap_of_five /\ timestamp r = anomaly_timestamp a)
  /\ anomaly_severity a = severity_of (anomaly_type a).
Proof.
  apply (anomalies_come_from_records python_format seconds_by_division
           argsort_stable gap_of_five).
  vm_compute. now left.
Defined.

(** ** What the detectors look at *)

Lemma readings_eq (r r' : row) :
  readings r = readings r' ->
  timestamp r = timestamp r' /\ temperature r = temperature r'
  /\ voltage r = voltage r'.
Proof.
  unfold readings. intros [= -> -> ->]. auto.
Qed.

Lemma adjacent_ext {B : Type} (f : row -> row -> list B) :
  (forall p p' c c',
      readings p = readings p' -> readings c = readings c' ->
      f p c = f p' c') ->
  forall rest rest' p p',
    readings p = readings p' ->
    map readings rest = map readings rest' ->
    adjacent f p rest = adjacent f p' rest'.
Proof.
  intros Hf. induction rest as [|c r IH]; intros [|c' r'] p p' Hp H;
    try discriminate; [reflexivity|].
  cbn [map] in H.
  assert (Hc : readings c = readings c') by congruence.
  assert (Hr : map readings r = map readings r') by congruence.
  cbn [adjacent].
  now rewrite (Hf p p' c c' Hp Hc), (IH r' c c' Hc Hr).
Qed.

Section Scans.
Variable format_float : string -> float -> str.
Variable total_seconds : Z -> float.

Lemma roc_detector_adjacent (df : list row) :
  roc_detector format_float df =
    match df with
    | [] => []
    | first :: rest => adjacent (roc_between format_float) first rest
    end.
Proof.
  destruct df as [|r0 rest]; [reflexivity|].
  unfold roc_detector, roc_anomalies, with_temp_change.
  cbn [map diff combine filter snd].
  replace (gt (abs nan) TEMP_RATE_OF_CHANGE_THRESHOLD) with false
    by reflexivity.
  apply roc_scan.
Qed.

Lemma heartbeat_detector_adjacent (df : list row) :
  heartbeat_detector format_float total_seconds df =
    match df with
    | [] => []
    | first :: rest =>
      adjacent (heartbeat_between format_float total_seconds) first rest
    end.
Proof.
  destruct df as [|r0 rest]; [reflexivity|].
  unfold heartbeat_detector, heartbeat_anomalies, with_time_diff.
  cbn [map time_diff combine filter snd exceeds_timeout].
  apply heartbeat_scan.
Qed.

Lemma temp_detector_cons (r : row) (df : list row) :
  temp_detector format_float (r :: df) =
    (if gt (temperature r) TEMP_THRESHOLD
     then [temp_details format_float r] else [])
    ++ temp_detector format_float df.
Proof.
  unfold temp_detector, temp_anomalies. cbn [filter].
  now destruct (gt (temperature r) TEMP_THRESHOLD).
Qed.

Lemma voltage_detector_cons (r : row) (df : list row) :
  voltage_detector format_float (r :: df) =
    (if gt (voltage r) VOLTAGE_THRESHOLD_HIGH
        || lt (voltage r) VOLTAGE_THRESHOLD_LOW
     then [voltage_details format_float r] else [])
    ++ voltage_detector format_float df.
Proof.
  unfold voltage_detector, voltage_anomalies. cbn [filter].
  now destruct (gt (voltage r) VOLTAGE_THRESHOLD_HIGH
                || lt (voltage r) VOLTAGE_THRESHOLD_LOW).
Qed.

Lemma temp_detector_app (l1 l2 : list row) :
  temp_detector format_float (l1 ++ l2)
  = temp_detector format_float l1 ++ temp_detector format_float l2.
Proof.
  unfold temp_detector, temp_anomalies. now rewrite filter_app, map_app.
Qed.

Lemma voltage_detector_app (l1 l2 : list row) :
  voltage_detector format_float (l1 ++ l2)
  = voltage_detector format_float l1 ++ voltage_detector format_float l2.
Proof.
  unfold voltage_detector, voltage_anomalies.
  now rewrite filter_app, map_app.
Qed.

Lemma detectors_ext (df : list row) :
  forall df',
    map readings df = map readings df' ->
    anomalies_found format_float total_seconds df
    = anomalies_found format_float total_seconds df'.
Proof.
  intros df' H. unfold anomalies_found.
  assert (T : temp_detector format_float df = temp_detector format_float df'
              /\ voltage_detector format_float df
                 = voltage_detector format_float df').
  { revert df' H. induction df as [|r l IH]; intros [|r' l'] H;
      try discriminate; [split; reflexivity|].
    cbn [map] in H.
    assert (Hr : readings r = readings r') by congruence.
    assert (Hl : map readings l = map readings l') by congruence.
    destruct (IH l' Hl) as [IT IV].
    apply readings_eq in Hr as (Ets & Et & Ev).
    rewrite !temp_detector_cons, !voltage_detector_cons, IT, IV.
    unfold temp_details, voltage_details. now rewrite Ets, Et, Ev. }
  destruct T as [-> ->].
  rewrite !roc_detector_adjacent, !heartbeat_detector_adjacent.
  destruct df as [|r l], df' as [|r' l']; try discriminate;
    [reflexivity|].
  cbn [map] in H.
  assert (Hr : readings r = readings r') by congruence.
  assert (Hl : map readings l = map readings l') by congruence.
  rewrite (adjacent_ext (roc_between format_float)) with (rest' := l')
                                                         (p' := r'); auto.
  - rewrite (adjacent_ext (heartbeat_between format_float total_seconds))
      with (rest' := l') (p' := r'); auto.
    intros p p' c c' Hp Hc.
    apply readings_eq in Hp as (Ep & _), Hc as (Ec & _).
    unfold heartbeat_between. now rewrite Ep, Ec.
  - intros p p' c c' Hp Hc.
    apply readings_eq in Hp as (_ & Ep & _), Hc as (Ects & Ec & _).
    unfold roc_between. now rewrite Ep, Ec, Ects.
Qed.

End Scans.

(** X13.  Detection reads the timestamp, the temperature and the
    voltage of the records and nothing else: two frames that agree on
    these three columns yield the same anomalies, so the status token
    the device reports about itself never influences what is
    detected. *)
Theorem status_token_is_never_read :
  forall (format_float : string -> float -> str)
         (total_seconds : Z -> float) (df df' : list row),
    map readings df = map readings df' ->
    anomalies_found format_float total_seconds df
    = anomalies_found format_float total_seconds df'.
Proof.
  intros format_float total_seconds df df'. apply detectors_ext.
Qed.

Lemma status_token_is_never_read_witness :
  anomalies_found python_format seconds_by_division
    [mkRow (seconds 0) (float_lit "95.5") (float_lit "5.0") (lit "NORMAL")]
  = anomalies_found python_format seconds_by_division
      [mkRow (seconds 0) (float_lit "95.5") (float_lit "5.0")
             (lit "FORCED_TEMP_HIGH")].
Proof.
  apply (status_token_is_never_read python_format seconds_by_division).
  reflexivity.
Defined.

(** ** Readings that stay silent *)

Lemma SFcompare_antisym (x y : float) :
  SFcompare y x = option_map CompOpp (SFcompare x y).
Proof.
  destruct x as [s|s| |s m e], y as [s'|s'| |s' m' e'];
    try destruct s; try destruct s'; try reflexivity;
    cbn [SFcompare option_map];
    assert (A : Pos.compare_cont Eq m' m
                = CompOpp (Pos.compare_cont Eq m m'))
      by (symmetry; apply (Pos.compare_cont_antisym m m' Eq));
    rewrite (Z.compare_antisym e e'), A;
    destruct (e ?= e'); cbn [CompOpp]; rewrite ?CompOpp_involutive;
    reflexivity.
Qed.

Lemma leq_not_gt (x y : float) : leq x y = true -> gt x y = false.
Proof.
  unfold leq, gt, SFleb, SFltb. rewrite (SFcompare_antisym x y).
  destruct (SFcompare x y) as [[]|]; cbn; congruence.
Qed.

Lemma leq_not_lt (x y : float) : leq x y = true -> lt y x = false.
Proof.
  exact (leq_not_gt x y).
Qed.

(** X14.  The thresholds are strict and the band is closed: a frame in
    which every temperature is at most 80.0 and every voltage lies
    between 4.5 and 5.5, the bounds themselves included, raises no
    threshold anomaly of either kind. *)
Theorem readings_in_band_raise_no_threshold_anomaly :
  forall (format_float : string -> float -> str) (df : list row),
    forallb in_band df = true ->
    temp_detector format_float df = []
    /\ voltage_detector format_float df = [].
Proof.
  intros format_float df. induction df as [|r l IH]; intros H.
  - split; reflexivity.
  - cbn [forallb] in H. apply andb_true_iff in H as [Hr Hl].
    destruct (IH Hl) as [IT IV].
    unfold in_band in Hr. apply andb_true_iff in Hr as [Hr Hv2].
    apply andb_true_iff in Hr as [Ht Hv1].
    rewrite temp_detector_cons, voltage_detector_cons, IT, IV.
    rewrite (leq_not_gt _ _ Ht), (leq_not_gt _ _ Hv2), (leq_not_lt _ _ Hv1).
    split; reflexivity.
Qed.

Lemma readings_in_band_raise_no_threshold_anomaly_witness :
  temp_detector python_format
    [reading 0 "80.0" "5.5"; reading 1 "80.0" "4.5"] = []
  /\ voltage_detector python_format
       [reading 0 "80.0" "5.5"; reading 1 "80.0" "4.5"] = [].
Proof.
  apply (readings_in_band_raise_no_threshold_anomaly python_format
           [reading 0 "80.0" "5.5"; reading 1 "80.0" "4.5"]).
  vm_compute. reflexivity.
Defined.

Lemma sub_nan (x y : float) : x = nan \/ y = nan -> sub x y = nan.
Proof.
  intros [->| ->]; [reflexivity|]. now destruct x.
Qed.

(** X15.  A NaN reading is invisible: a record whose temperature is
    NaN raises no temperature threshold anomaly and no rapid-change
    anomaly, neither against the record before it nor for the record
    after it, and a record whose voltage is NaN raises no voltage
    anomaly; the anomalies of the other records are those of the frame
    without it. *)
Theorem nan_readings_are_silent :
  forall (format_float : string -> float -> str)
         (before after : list row) (r : row),
    (temperature r = nan ->
     temp_detector format_float (before ++ r :: after)
     = temp_detector format_float before ++ temp_detector format_float after
     /\ forall other : row,
         roc_between format_float other r = []
         /\ roc_between format_float r other = [])
    /\ (voltage r = nan ->
        voltage_detector format_float (before ++ r :: after)
        = voltage_detector format_float before
          ++ voltage_detector format_float after).
Proof.
  intros format_float before after r. split.
  - intros H. split.
    + rewrite temp_detector_app, temp_detector_cons, H. reflexivity.
    + intros other. unfold roc_between. cbv zeta.
      rewrite (sub_nan (temperature r) (temperature other)) by auto.
      rewrite (sub_nan (temperature other) (temperature r)) by auto.
      split; reflexivity.
  - intros H.
    rewrite voltage_detector_app, voltage_detector_cons, H. reflexivity.
Qed.

Lemma nan_readings_are_silent_witness :
  roc_detector python_format
    [reading 0 "20.0" "5.0"; reading 1 "nan" "5.0"; reading 2 "95.0" "5.0"]
  = []
  /\ roc_between python_format (reading 0 "20.0" "5.0")
                 (reading 1 "nan" "5.0") = [].
Proof.
  split; [vm_compute; reflexivity|].
  apply (proj1 (nan_readings_are_silent python_format [] []
                  (reading 1 "nan" "5.0")) eq_refl).
Defined.

(** ** How many anomalies *)

Lemma adjacent_length {B : Type} (f : row -> row -> list B) :
  (forall p c, (length (f p c) <= 1)%nat) ->
  forall rest p, (length (adjacent f p rest) <= length rest)%nat.
Proof.
  intros Hf. induction rest as [|c r IH]; intros p; cbn [adjacent length].
  - lia.
  - rewrite length_app. specialize (Hf p c). specialize (IH c). lia.
Qed.

(** X16.  Each detector raises at most one anomaly per record, and the
    two pairwise detectors none for the first record: over a frame of
    [n] records there are at most [n] temperature and [n] voltage
    anomalies and at most [n - 1] rapid-change and [n - 1] heartbeat
    anomalies. *)
Theorem at_most_one_anomaly_per_detector_and_record :
  forall (format_float : string -> float -> str)
         (total_seconds : Z -> float) (df : list row),
    (length (temp_detector format_float df) <= length df)%nat
    /\ (length (voltage_detector format_float df) <= length df)%nat
    /\ (length (roc_detector format_float df) <= length df - 1)%nat
    /\ (length (heartbeat_detector format_float total_seconds df)
        <= length df - 1)%nat.
Proof.
  intros format_float total_seconds df. repeat split.
  - unfold temp_detector, temp_anomalies. rewrite length_map.
    apply filter_length_le.
  - unfold voltage_detector, voltage_anomalies. rewrite length_map.
    apply filter_length_le.
  - rewrite roc_detector_adjacent. destruct df as [|r l]; [cbn; lia|].
    cbn [length]. rewrite Nat.sub_succ, Nat.sub_0_r.
    apply adjacent_length. intros p c. unfold roc_between. cbv zeta.
    destruct (gt _ _); cbn; lia.
  - rewrite heartbeat_detector_adjacent. destruct df as [|r l]; [cbn; lia|].
    cbn [length]. rewrite Nat.sub_succ, Nat.sub_0_r.
    apply adjacent_length. intros p c. unfold heartbeat_between. cbv zeta.
    destruct (_ <? _); cbn; lia.
Qed.

(** ** The report on the console and in the JSON file *)

Section Emitter.
Variable format_float : string -> float -> str.
Variable total_seconds : Z -> float.
Variable argsort : list Z -> list nat.
Variable isoformat : Z -> str.

Lemma print_report_effect (l : list anomaly) :
  forall w,
    print_report isoformat l w
    = mkWorld (metrics_csv w) (report_json w)
              (printed_lines w ++ map (report_line_of isoformat) l).
Proof.
  induction l as [|a r IH]; intros w; cbn [print_report map].
  - rewrite app_nil_r. now destruct w.
  - rewrite IH. cbn [say metrics_csv report_json printed_lines].
    now rewrite <- app_assoc.
Qed.

Lemma lines_as_json_report (l : list anomaly) :
  lines_as_json (map (report_line_of isoformat) l)
  = map (json_of isoformat) l.
Proof.
  induction l as [|a r IH]; [reflexivity|].
  unfold lines_as_json in *. cbn [map flat_map]. now rewrite IH.
Qed.

Lemma lines_as_json_app (a b : list printed) :
  lines_as_json (a ++ b) = lines_as_json a ++ lines_as_json b.
Proof.
  apply flat_map_app.
Qed.

Lemma report_lines_say_no_success (l : list anomaly) :
  ~ In Successfully_generated_json (map (report_line_of isoformat) l).
Proof.
  rewrite in_map_iff. intros (a & H & _). discriminate H.
Qed.

(** What Section 4 prints and writes. *)
Lemma generate_reports_effect (how : json_result) (found : list anomaly)
  (w : world) :
  let w' := generate_reports isoformat how found w in
  metrics_csv w' = metrics_csv w
  /\ exists added,
      printed_lines w' = printed_lines w ++ added
      /\ lines_as_json added = map (json_of isoformat) (report found)
      /\ (In Successfully_generated_json added
          <-> report found <> [] /\ how = Dumped)
      /\ report_json w' =
         match report found with
         | [] => report_json w
         | _ :: _ =>
           match how with
           | Dumped => Some (Report (map (json_of isoformat) (report found)))
           | Json_open_fails => report_json w
           | Dump_fails => Some Torn
           end
         end.
Proof.
  cbv zeta. unfold generate_reports.
  destruct found as [|a l].
  - split; [reflexivity|].
    exists [Anomaly_report_console; No_anomalies_detected].
    cbn. rewrite <- app_assoc.
    split; [reflexivity|]. split; [reflexivity|]. split; [|reflexivity].
    split; [intros [H|[H|[]]]; discriminate H|].
    intros [H _]. now contradiction H.
  - assert (N : report (a :: l) = sort_by_timestamp (a :: l))
      by reflexivity.
    rewrite N. set (sorted := sort_by_timestamp (a :: l)).
    assert (Hne : sorted <> []).
    { intros E. pose proof (isort_perm anomaly_timestamp Z.leb (a :: l)) as P.
      fold (sort_by_timestamp (a :: l)) in P. fold sorted in P.
      rewrite E in P. apply Permutation_nil in P. discriminate. }
    rewrite print_report_effect.
    split; [now destruct how|].
    exists ([Anomaly_report_console]
            ++ map (report_line_of isoformat) sorted
            ++ [match how with
                | Dumped => Successfully_generated_json
                | _ => Could_not_write_json_report
                end]).
    split; [|split; [|split]].
    + destruct how;
        cbn [say dump tear metrics_csv report_json printed_lines];
        now rewrite <- !app_assoc.
    + rewrite !lines_as_json_app, lines_as_json_report.
      destruct how; cbn; now rewrite app_nil_r.
    + rewrite !in_app_iff. split.
      * intros [[H|[]]|[H|[H|[]]]]; try discriminate H.
        -- now apply report_lines_say_no_success in H.
        -- split; [exact Hne|]. now destruct how.
      * intros [_ ->]. right. right. now left.
    + destruct how;
        cbn [say dump tear metrics_csv report_json printed_lines];
        now destruct sorted.
Qed.

Lemma engine_effect (how : json_result) (w : world) :
  let w' :=
    engine format_float total_seconds argsort isoformat how w in
  let result :=
    match metrics_csv w with
    | Some file => main format_float total_seconds argsort file
    | None => None
    end in
  metrics_csv w' = metrics_csv w
  /\ exists added,
      printed_lines w' = printed_lines w ++ added
      /\ lines_as_json added
         = match result with
           | Some l => map (json_of isoformat) l
           | None => []
           end
      /\ (In Successfully_generated_json added
          <-> lines_as_json added <> [] /\ how = Dumped)
      /\ report_json w' =
         match result with
         | Some (a :: l) =>
           match how with
           | Dumped => Some (Report (map (json_of isoformat) (a :: l)))
           | Json_open_fails => report_json w
           | Dump_fails => Some Torn
           end
         | _ => report_json w
         end.
Proof.
  cbv zeta. unfold engine, main.
  destruct (metrics_csv w) as [file|] eqn:F.
  - destruct (read_csv file) as [stored|].
    + set (found := anomalies_found format_float total_seconds
                      (sort_values argsort stored)).
      set (w1 := say (Successfully_loaded _) (say Engine_started w)).
      destruct (generate_reports_effect how found w1)
        as (C & added & P & L & G & J).
      split; [rewrite C; exact F|].
      exists ([Engine_started;
               Successfully_loaded
                 (length (sort_values argsort stored))] ++ added).
      rewrite P, J. subst w1.
      cbn [say printed_lines report_json]. split; [|split; [|split]].
      * now rewrite <- !app_assoc.
      * rewrite lines_as_json_app. exact L.
      * rewrite lines_as_json_app, L. cbn [lines_as_json flat_map app In].
        split.
        -- intros [H|[H|H]]; [discriminate H|discriminate H|].
           apply G in H as [Hn ->]. split; [|reflexivity].
           destruct (report found); [contradiction|discriminate].
        -- intros [Hn ->]. right. right. apply G. split; [|reflexivity].
           intros E. apply Hn. now rewrite E.
      * now destruct (report found).
    + split; [exact F|].
      exists [Engine_started; An_unexpected_error_occurred].
      cbn. rewrite <- app_assoc.
      split; [reflexivity|]. split; [reflexivity|]. split; [|reflexivity].
      split; [intros [H|[H|[]]]; discriminate H|].
      intros [H _]. now contradiction H.
  - split; [exact F|].
    exists [Engine_started; Could_not_find_the_file].
    cbn. rewrite <- app_assoc.
    split; [reflexivity|]. split; [reflexivity|]. split; [|reflexivity].
    split; [intros [H|[H|[]]]; discriminate H|].
    intros [H _]. now contradiction H.
Qed.

End Emitter.

(** X17.  The two reports of a run agree and the store is only read:
    the run leaves [structured_metrics.csv] as it was and what it prints
    is added after what the console held.  When it prints that the JSON
    report was generated, the file holds exactly the anomalies of the
    report lines printed, in the same order, and there is at least one.
    When it does not, the file is as it was before the run (no report
    line was printed, or the file could not be opened) or is torn (the
    write failed after the file was opened). *)
Theorem console_and_json_reports_agree :
  forall (format_float : string -> float -> str)
         (total_seconds : Z -> float)
         (argsort : list Z -> list nat)
         (isoformat : Z -> str)
         (how : json_result) (w : world),
    let w' :=
      engine format_float total_seconds argsort isoformat how w in
    metrics_csv w' = metrics_csv w
    /\ exists added,
        printed_lines w' = printed_lines w ++ added
        /\ ((In Successfully_generated_json added
             /\ report_json w' = Some (Report (lines_as_json added))
             /\ lines_as_json added <> [])
            \/ (~ In Successfully_generated_json added
                /\ report_json w' = report_json w
                /\ (lines_as_json added = [] \/ how = Json_open_fails))
            \/ (~ In Successfully_generated_json added
                /\ report_json w' = Some Torn
                /\ lines_as_json added <> [] /\ how = Dump_fails)).
Proof.
  intros format_float total_seconds argsort isoformat how w.
  destruct (engine_effect format_float total_seconds argsort isoformat
              how w) as (C & added & P & L & G & J).
  cbv zeta. split; [exact C|]. exists added. split; [exact P|].
  rewrite J, G, L.
  destruct (match metrics_csv w with
            | Some file => main format_float total_seconds argsort file
            | None => None
            end) as [[|a l]|].
  - right. left. repeat split; auto. intros [H _]. now contradiction H.
  - destruct how.
    + left. repeat split; discriminate.
    + right. left. repeat split; auto. intros [_ H]. discriminate H.
    + right. right. repeat split; try discriminate.
      intros [_ H]. discriminate H.
  - right. left. repeat split; auto. intros [H _]. now contradiction H.
Qed.

(** X18.  A run that finds nothing, or cannot read the store, neither
    writes nor removes [anomaly_report.json]: a report left by an earlier
    run is still in place afterwards. *)
Theorem clean_run_keeps_earlier_report :
  forall (format_float : string -> float -> str)
         (total_seconds : Z -> float)
         (argsort : list Z -> list nat)
         (isoformat : Z -> str)
         (how : json_result) (w : world),
    match metrics_csv w with
    | Some file => main format_float total_seconds argsort file = Some []
                   \/ main format_float total_seconds argsort file = None
    | None => True
    end ->
    report_json
      (engine format_float total_seconds argsort isoformat how w)
    = report_json w.
Proof.
  intros format_float total_seconds argsort isoformat how w H.
  destruct (engine_effect format_float total_seconds argsort isoformat
              how w) as (_ & added & _ & _ & _ & J).
  rewrite J. destruct (metrics_csv w) as [file|]; [|reflexivity].
  destruct H as [-> | ->]; reflexivity.
Qed.

Lemma clean_run_keeps_earlier_report_witness :
  let earlier :=
    Report
      [mkJson (lit "2025-01-01T00:00:05") HEARTBEAT_LOSS CRITICAL
              (lit "No data received for 5.0 seconds. Device may be offline.")]
  in
  report_json
    (engine python_format seconds_by_division argsort_stable
            (fun _ => []) Dumped
            (mkWorld (Some (Header columns_of_store
                            :: map Row gap_of_four))
                     (Some earlier) []))
  = Some earlier.
Proof.
  intros earlier.
  apply (clean_run_keeps_earlier_report python_format seconds_by_division
           argsort_stable (fun _ => []) Dumped
           (mkWorld (Some (Header columns_of_store :: map Row gap_of_four))
                    (Some earlier) [])).
  left. vm_compute. reflexivity.
Defined.

End DetectorExtras.

(* ================================================================== *)
(** * Further properties: from the emulator to the store *)
(* ================================================================== *)

Module EmulatorExtras.
Import Py Store Emulator.

Local Open Scope N_scope.

(** ** Text handling *)

Lemma lstrip_head sp c s : sp c = false -> lstrip_with sp (c :: s) = c :: s.
Proof. intros H. cbn [lstrip_with]. now rewrite H. Qed.

Lemma strip_with_id sp c s :
  sp c = false -> ends_well sp (c :: s) ->
  strip_with sp (c :: s) = c :: s.
Proof.
  intros Hc He. unfold strip_with. rewrite (lstrip_head sp c s Hc).
  unfold ends_well in He. destruct (rev (c :: s)) as [|x r] eqn:E.
  - apply (f_equal (@rev _)) in E. rewrite rev_involutive in E. exact (eq_sym E).
  - rewrite (lstrip_head sp x r He), <- E. apply rev_involutive.
Qed.

Lemma strip_line c s :
  isspace c = false -> ends_well isspace (c :: s) ->
  strip ((c :: s) ++ [10]) = c :: s.
Proof.
  intros Hc He. unfold strip, strip_with.
  rewrite <- app_comm_cons, (lstrip_head isspace c _ Hc), app_comm_cons.
  remember (c :: s) as l eqn:El.
  rewrite rev_app_distr.
  change (rev [10] ++ rev l) with (10 :: rev l).
  change (lstrip_with isspace (10 :: rev l))
    with (lstrip_with isspace (rev l)).
  unfold ends_well in He. destruct (rev l) as [|x r] eqn:E.
  - apply (f_equal (@rev _)) in E. rewrite rev_involutive in E.
    subst l. discriminate.
  - rewrite (lstrip_head isspace x r He), <- E. apply rev_involutive.
Qed.

Lemma split_one sep s :
  Forall (fun c => c <> sep) s -> split sep s = [s].
Proof.
  induction 1 as [|c r Hc Hr IH]; [reflexivity|].
  cbn [split]. apply N.eqb_neq in Hc. now rewrite Hc, IH.
Qed.

Lemma split_at sep a b :
  Forall (fun c => c <> sep) a ->
  split sep (a ++ sep :: b) = a :: split sep b.
Proof.
  induction 1 as [|c r Hc Hr IH]; cbn [app split].
  - now rewrite N.eqb_refl.
  - apply N.eqb_neq in Hc. now rewrite Hc, IH.
Qed.

Lemma until_colon_id s :
  Forall (fun c => c <> 58) s -> Logger.until_colon s = s.
Proof.
  induction 1 as [|c r Hc Hr IH]; [reflexivity|].
  cbn [Logger.until_colon]. apply N.eqb_neq in Hc.
  change (Logger.chr ":") with 58. now rewrite Hc, IH.
Qed.


Lemma strip_with_all sp s :
  Forall (fun c => sp c = false) s -> strip_with sp s = s.
Proof.
  intros H. destruct s as [|c r]; [reflexivity|].
  apply strip_with_id.
  - now inversion H.
  - unfold ends_well. destruct (rev (c :: r)) as [|x l] eqn:E; [exact I|].
    rewrite Forall_forall in H. apply H. apply in_rev. rewrite E. now left.
Qed.

Lemma transform_ascii s :
  Forall (fun c => c < 127) s -> transform_decimal_and_space s = s.
Proof.
  induction 1 as [|c r Hc Hr IH]; [reflexivity|].
  cbn [transform_decimal_and_space]. apply N.ltb_lt in Hc.
  now rewrite Hc, IH.
Qed.

Lemma remove_underscores_none_to_remove s :
  forall prev,
    prev <> 95 -> Forall (fun c => c <> 95) s ->
    remove_underscores prev s = Some s.
Proof.
  induction s as [|c r IH]; intros prev Hp H; cbn [remove_underscores].
  - apply N.eqb_neq in Hp. now rewrite Hp.
  - inversion H as [|? ? Hc Hr]; subst.
    pose proof Hc as Hc'. apply N.eqb_neq in Hc'. rewrite Hc'.
    pose proof Hp as Hp'. apply N.eqb_neq in Hp'. rewrite Hp'.
    cbn [andb]. now rewrite (IH c Hc Hr).
Qed.

Lemma span_digits_all s rest :
  forallb is_digit s = true ->
  match rest with [] => True | c :: _ => is_digit c = false end ->
  span_digits (s ++ rest) = (digit_values s, rest).
Proof.
  intros H Hr. induction s as [|c r IH]; cbn [app].
  - destruct rest as [|c r]; [reflexivity|].
    cbn [span_digits]. now rewrite Hr.
  - cbn [forallb] in H. apply andb_true_iff in H as [Hc Hs].
    cbn [span_digits]. rewrite Hc, (IH Hs). reflexivity.
Qed.

Lemma str_eqb_head a s b t :
  a <> b -> str_eqb (a :: s) (b :: t) = false.
Proof.
  intros H. unfold str_eqb.
  destruct (list_eq_dec N.eq_dec (a :: s) (b :: t)) as [E|]; [|reflexivity].
  congruence.
Qed.

Lemma digit_range c : is_digit c = true -> 48 <= c <= 57.
Proof.
  unfold is_digit, in_range. intros H.
  apply andb_true_iff in H as [A B].
  apply N.leb_le in A, B. lia.
Qed.

Lemma lower_digit c : is_digit c = true -> lower c = c.
Proof.
  intros H. apply digit_range in H. unfold lower, in_range.
  replace (65 <=? c) with false by (symmetry; apply N.leb_gt; lia).
  reflexivity.
Qed.

Lemma inf_or_nan_digit neg c s :
  is_digit c = true -> inf_or_nan neg (c :: s) = None.
Proof.
  intros H. unfold inf_or_nan. cbn [map]. rewrite (lower_digit c H).
  apply digit_range in H.
  change (lit "inf") with (105 :: [110; 102]).
  change (lit "infinity") with (105 :: [110; 102; 105; 110; 105; 116; 121]).
  change (lit "nan") with (110 :: [97; 110]).
  rewrite !str_eqb_head by lia.
  reflexivity.
Qed.

Lemma digits_value_acc ds :
  forall a,
    fold_left (fun acc d => (10 * acc + Z.of_N d)%Z) ds a
    = (a * 10 ^ Z.of_nat (length ds) + digits_value ds)%Z.
Proof.
  unfold digits_value.
  induction ds as [|d r IH]; intros a; cbn [fold_left length].
  - cbn. lia.
  - rewrite IH, (IH (10 * 0 + Z.of_N d)%Z).
    rewrite Nat2Z.inj_succ, Z.pow_succ_r by lia. lia.
Qed.

Lemma digits_value_app a b :
  digits_value (a ++ b)
  = (digits_value a * 10 ^ Z.of_nat (length b) + digits_value b)%Z.
Proof.
  unfold digits_value at 1. rewrite fold_left_app.
  fold (digits_value a). apply digits_value_acc.
Qed.

(** The text sign, digits, point, digits is read as the decimal it
    writes. *)
Lemma float_of_decimal_text (s : bool) (ip fp : str) :
  ip <> [] ->
  forallb is_digit ip = true ->
  forallb is_digit fp = true ->
  float_of_str (Detector.minus s ++ ip ++ 46 :: fp)
  = Some (decimal_to_float s
            (digits_value (digit_values ip ++ digit_values fp))
            (- Z.of_nat (length fp))).
Proof.
  intros Hne Hip Hfp.
  assert (Dig : forall l, forallb is_digit l = true ->
                          Forall (fun c => 48 <= c <= 57) l).
  { intros l H. rewrite forallb_forall in H. rewrite Forall_forall.
    intros c Hc. apply digit_range. now apply H. }
  pose proof (Dig ip Hip) as Rip. pose proof (Dig fp Hfp) as Rfp.
  assert (Chars : Forall (fun c => 45 <= c <= 57)
                         (Detector.minus s ++ ip ++ 46 :: fp)).
  { apply Forall_app. split.
    - destruct s; cbn; repeat constructor; lia.
    - apply Forall_app. split.
      + eapply Forall_impl; [|exact Rip]. intros; cbv beta in *; lia.
      + constructor; [lia|].
        eapply Forall_impl; [|exact Rfp]. intros; cbv beta in *; lia. }
  unfold float_of_str.
  rewrite transform_ascii
    by (eapply Forall_impl; [|exact Chars]; intros; cbv beta in *; lia).
  rewrite strip_with_all.
  2:{ eapply Forall_impl; [|exact Chars]. intros c Hc. cbv beta in Hc.
      unfold ascii_isspace, in_range.
      replace (c <=? 13) with false by (symmetry; apply N.leb_gt; lia).
      replace (c =? 32) with false by (symmetry; apply N.eqb_neq; lia).
      now rewrite andb_false_r. }
  rewrite remove_underscores_none_to_remove;
    [|discriminate
     |eapply Forall_impl; [|exact Chars]; intros; cbv beta in *; lia].
  destruct ip as [|d ip']; [contradiction|].
  cbn [forallb] in Hip. apply andb_true_iff in Hip as [Hd Hip'].
  pose proof (digit_range d Hd) as Rd.
  assert (Sign : parse_sign (Detector.minus s ++ (d :: ip') ++ 46 :: fp)
                 = (s, (d :: ip') ++ 46 :: fp)).
  { destruct s; [reflexivity|]. cbn [Detector.minus app parse_sign].
    destruct d as [|p]; [lia|].
    do 7 (destruct p as [p|p|]; try reflexivity; try lia). }
  unfold string_to_double. rewrite Sign.
  rewrite <- app_comm_cons, (inf_or_nan_digit s d _ Hd), app_comm_cons.
  rewrite (span_digits_all (d :: ip') (46 :: fp));
    [|cbn [forallb]; now rewrite Hd, Hip'|reflexivity].
  assert (Sfp : span_digits fp = (digit_values fp, [])).
  { rewrite <- (app_nil_r fp) at 1. now apply span_digits_all. }
  rewrite Sfp.
  unfold digit_values at 3. rewrite length_map.
  unfold digit_values at 1. cbn [map app parse_exponent].
  reflexivity.
Qed.

Local Open Scope Z_scope.

Lemma digit_of_mod n : is_digit (48 + Z.to_N (n mod 10))%N = true.
Proof.
  pose proof (Z.mod_pos_bound n 10 ltac:(lia)) as B.
  unfold is_digit, in_range. apply andb_true_iff.
  split; apply N.leb_le; lia.
Qed.

Lemma digits_of_digits fuel :
  forall n acc,
    forallb is_digit acc = true ->
    forallb is_digit (Detector.digits_of fuel n acc) = true.
Proof.
  induction fuel as [|f IH]; intros n acc H; cbn [Detector.digits_of];
    [exact H|].
  assert (H' : forallb is_digit ((48 + Z.to_N (n mod 10))%N :: acc) = true)
    by (cbn [forallb]; now rewrite digit_of_mod, H).
  destruct (n <? 10); [exact H'|]. now apply IH.
Qed.

Lemma digit_values_cons_mod n acc :
  digit_values ((48 + Z.to_N (n mod 10))%N :: acc)
  = Z.to_N (n mod 10) :: digit_values acc.
Proof.
  unfold digit_values. cbn [map]. f_equal. lia.
Qed.

Lemma digits_of_value fuel :
  forall n acc,
    0 <= n < 10 ^ Z.of_nat fuel ->
    digits_value (digit_values (Detector.digits_of fuel n acc))
    = n * 10 ^ Z.of_nat (length acc) + digits_value (digit_values acc).
Proof.
  induction fuel as [|f IH]; intros n acc Hn; cbn [Detector.digits_of].
  - cbn in Hn. assert (n = 0) by lia. subst n. lia.
  - pose proof (Z.mod_pos_bound n 10 ltac:(lia)) as B.
    pose proof (Z.div_mod n 10 ltac:(lia)) as D.
    assert (V : digits_value
                  (digit_values ((48 + Z.to_N (n mod 10))%N :: acc))
                = (n mod 10) * 10 ^ Z.of_nat (length acc)
                  + digits_value (digit_values acc)).
    { rewrite digit_values_cons_mod.
      change (Z.to_N (n mod 10) :: digit_values acc)
        with ([Z.to_N (n mod 10)] ++ digit_values acc).
      rewrite digits_value_app. unfold digit_values at 1.
      rewrite length_map. unfold digits_value at 1. cbn [fold_left].
      rewrite Z2N.id by lia. f_equal. }
    destruct (n <? 10) eqn:E.
    + apply Z.ltb_lt in E. rewrite V.
      rewrite (Z.mod_small n 10) by lia. reflexivity.
    + apply Z.ltb_ge in E. rewrite IH.
      * rewrite V. cbn [length]. rewrite Nat2Z.inj_succ, Z.pow_succ_r by lia.
        nia.
      * rewrite Nat2Z.inj_succ, Z.pow_succ_r in Hn by lia.
        split; [apply Z.div_pos; lia|].
        apply Z.div_lt_upper_bound; lia.
Qed.

Lemma fuel_suffices n :
  0 <= n -> n < 10 ^ Z.of_nat (S (Z.to_nat (Z.log2 n))).
Proof.
  intros Hn. rewrite Nat2Z.inj_succ, Z2Nat.id by apply Z.log2_nonneg.
  destruct (Z.eq_dec n 0) as [->|Hz]; [cbn; lia|].
  pose proof (Z.log2_spec n ltac:(lia)) as [_ Hu].
  pose proof (Z.log2_nonneg n) as Hl.
  eapply Z.lt_le_trans; [exact Hu|].
  apply Z.pow_le_mono_l. lia.
Qed.

Lemma decimal_digits_spec n :
  0 <= n ->
  forallb is_digit (Detector.decimal_digits n) = true
  /\ digits_value (digit_values (Detector.decimal_digits n)) = n.
Proof.
  intros Hn. unfold Detector.decimal_digits. split.
  - now apply digits_of_digits.
  - rewrite digits_of_value by (split; [exact Hn|now apply fuel_suffices]).
    cbn. lia.
Qed.

Lemma digits_value_zeros k l :
  digits_value (repeat 0%N k ++ l) = digits_value l.
Proof.
  rewrite digits_value_app.
  assert (Z0 : digits_value (repeat 0%N k) = 0).
  { induction k as [|k IH]; [reflexivity|].
    change (repeat 0%N (S k)) with ([0%N] ++ repeat 0%N k).
    rewrite digits_value_app, IH. cbn. lia. }
  rewrite Z0. lia.
Qed.

(** The text of a count of hundredths: digits, a point, two digits,
    which read back as the count. *)
Lemma place_point_2 q :
  0 <= q ->
  exists ip fp,
    Detector.place_point 2 q = ip ++ 46%N :: fp
    /\ ip <> [] /\ length fp = 2%nat
    /\ forallb is_digit ip = true /\ forallb is_digit fp = true
    /\ digits_value (digit_values ip ++ digit_values fp) = q.
Proof.
  intros Hq. destruct (decimal_digits_spec q Hq) as [Hd Hv].
  unfold Detector.place_point.
  set (dd := Detector.decimal_digits q) in *.
  set (ds := repeat 48%N (3 - length dd) ++ dd).
  assert (Lds : (3 <= length ds)%nat).
  { unfold ds. rewrite length_app, repeat_length.
    change (@length N dd) with (@length char dd). lia. }
  assert (Dds : forallb is_digit ds = true).
  { unfold ds. rewrite forallb_app. apply andb_true_iff. split; [|exact Hd].
    apply forallb_forall. intros c Hc. apply repeat_spec in Hc. now subst c. }
  exists (firstn (length ds - 2) ds), (skipn (length ds - 2) ds).
  split; [reflexivity|].
  assert (Dsplit : forallb is_digit (firstn (length ds - 2) ds) = true
                   /\ forallb is_digit (skipn (length ds - 2) ds) = true).
  { rewrite <- (firstn_skipn (length ds - 2) ds) in Dds at 1.
    rewrite forallb_app in Dds. now apply andb_true_iff in Dds. }
  destruct Dsplit as [D1 D2].
  repeat split; auto.
  - intros E. apply (f_equal (@length _)) in E.
    rewrite length_firstn in E. cbn [length] in E. lia.
  - rewrite length_skipn. lia.
  - unfold digit_values. rewrite <- map_app, firstn_skipn.
    fold (digit_values ds). unfold ds, digit_values. rewrite map_app.
    rewrite map_repeat. change (48 - 48)%N with 0%N.
    rewrite digits_value_zeros. exact Hv.
Qed.

Lemma round_half_even_nonneg num den :
  0 <= num -> 0 < den -> 0 <= Detector.round_half_even num den.
Proof.
  intros Hn Hd. unfold Detector.round_half_even.
  pose proof (Z.div_pos num den Hn Hd).
  destruct (2 * (num mod den) ?= den); [destruct (Z.even _)| |]; lia.
Qed.

Lemma hundredths_nonneg m e : 0 <= hundredths m e.
Proof.
  unfold hundredths. destruct (0 <=? e) eqn:E.
  - apply Z.leb_le in E. pose proof (Z.pow_pos_nonneg 2 e ltac:(lia) E). nia.
  - apply Z.leb_gt in E. apply round_half_even_nonneg; [lia|].
    apply Z.pow_pos_nonneg; lia.
Qed.

(** What is sent with two decimals is read back as the nearest float. *)
Lemma float_of_format_2f (x : float) :
  float_of_str (format_2f x) = Some (two_decimals x).
Proof.
  unfold format_2f.
  assert (F : forall s q,
             0 <= q ->
             float_of_str (Detector.minus s ++ Detector.place_point 2 q)
             = Some (decimal_to_float s q (-2))).
  { intros s q Hq.
    destruct (place_point_2 q Hq) as (ip & fp & E & Hne & L & D1 & D2 & V).
    rewrite E.
    refine (eq_trans (float_of_decimal_text s ip fp Hne D1 D2) _).
    apply f_equal. apply f_equal2; [exact V|].
    exact (f_equal (fun n => - Z.of_nat n) L). }
  destruct x as [s|s| |s m e].
  - cbn [Detector.format_fixed two_decimals]. rewrite (F s 0) by lia.
    reflexivity.
  - destruct s; vm_compute; reflexivity.
  - vm_compute. reflexivity.
  - cbn [Detector.format_fixed two_decimals].
    fold (hundredths m e). apply F. apply hundredths_nonneg.
Qed.

Local Open Scope N_scope.

Ltac numeric_chars :=
  cbn; repeat (apply Forall_cons; [unfold numeric; lia|]); apply Forall_nil.

Lemma format_2f_numeric (x : float) : Forall numeric (format_2f x).
Proof.
  unfold format_2f.
  assert (F : forall s q, (0 <= q)%Z ->
                          Forall numeric
                                 (Detector.minus s ++ Detector.place_point 2 q)).
  { intros s q Hq.
    destruct (place_point_2 q Hq) as (ip & fp & E & _ & _ & D1 & D2 & _).
    rewrite E. apply Forall_app. split.
    - destruct s; numeric_chars.
    - assert (D : forall l : str, forallb is_digit l = true ->
                                  Forall numeric l).
      { intros l H. rewrite forallb_forall in H. rewrite Forall_forall.
        intros c Hc. pose proof (digit_range c (H c Hc)). left. lia. }
      apply Forall_app. split; [now apply D|].
      constructor; [left; lia|now apply D]. }
  destruct x as [s|s| |s m e].
  - cbn [Detector.format_fixed]. apply F. lia.
  - destruct s; numeric_chars.
  - numeric_chars.
  - cbn [Detector.format_fixed]. fold (hundredths m e).
    apply F. apply hundredths_nonneg.
Qed.

Lemma plain_spec c :
  plain c = true -> scalar c = true /\ c <> 44 /\ c <> 58 /\ c <> 10.
Proof.
  unfold plain. intros H.
  apply andb_true_iff in H as [H H10].
  apply andb_true_iff in H as [H H58].
  apply andb_true_iff in H as [Hs H44].
  apply negb_true_iff in H10, H58, H44.
  apply N.eqb_neq in H10, H58, H44. auto.
Qed.

Lemma numeric_spec c :
  numeric c -> scalar c = true /\ c <> 44 /\ c <> 58 /\ c <> 10.
Proof.
  unfold numeric, scalar, in_range. intros H.
  replace (c <=? 0x10FFFF) with true by (symmetry; apply N.leb_le; lia).
  replace (0xD800 <=? c) with false by (symmetry; apply N.leb_gt; lia).
  cbn. repeat split; lia.
Qed.

Lemma Forall_spec (P : char -> Prop) (s : str) :
  Forall (fun c => scalar c = true /\ c <> 44 /\ c <> 58 /\ c <> 10) s ->
  forallb scalar s = true
  /\ Forall (fun c => c <> 44) s /\ Forall (fun c => c <> 58) s.
Proof.
  intros H. repeat split.
  - apply forallb_forall. rewrite Forall_forall in H.
    intros c Hc. now apply H.
  - eapply Forall_impl; [|exact H]. cbv beta. tauto.
  - eapply Forall_impl; [|exact H]. cbv beta. tauto.
Qed.

Section Trip.
Variables (temp voltage : float) (status : str).
Hypothesis clean : clean_status status = true.

Let f1 := format_2f temp.
Let f2 := format_2f voltage.

Lemma status_chars :
  Forall (fun c => scalar c = true /\ c <> 44 /\ c <> 58 /\ c <> 10) status.
Proof.
  unfold clean_status in clean. apply andb_true_iff in clean as [H _].
  rewrite forallb_forall in H. rewrite Forall_forall.
  intros c Hc. apply plain_spec. now apply H.
Qed.

Lemma number_chars (x : float) :
  Forall (fun c => scalar c = true /\ c <> 44 /\ c <> 58 /\ c <> 10)
         (format_2f x).
Proof.
  eapply Forall_impl; [|apply format_2f_numeric]. apply numeric_spec.
Qed.

Lemma line_shape :
  line_of temp voltage status
  = (lit "T:" ++ f1) ++ 44 :: (lit "V:" ++ f2) ++ 44 :: (lit "S:" ++ status).
Proof.
  unfold line_of, f1, f2.
  change (lit ",V:") with (44 :: lit "V:").
  change (lit ",S:") with (44 :: lit "S:").
  rewrite <- ?app_assoc. reflexivity.
Qed.

Lemma line_fields :
  split (Logger.chr ",") (line_of temp voltage status)
  = [lit "T:" ++ f1; lit "V:" ++ f2; lit "S:" ++ status].
Proof.
  change (Logger.chr ",") with 44. rewrite line_shape.
  destruct (Forall_spec (fun _ => True) _ (number_chars temp)) as (_ & C1 & _).
  destruct (Forall_spec (fun _ => True) _ (number_chars voltage))
    as (_ & C2 & _).
  destruct (Forall_spec (fun _ => True) _ status_chars) as (_ & C3 & _).
  rewrite split_at, split_at, split_one; [reflexivity| | |].
  - apply Forall_app. split; [|exact C3].
    cbn. repeat (apply Forall_cons; [lia|]). apply Forall_nil.
  - apply Forall_app. split; [|exact C2].
    cbn. repeat (apply Forall_cons; [lia|]). apply Forall_nil.
  - apply Forall_app. split; [|exact C1].
    cbn. repeat (apply Forall_cons; [lia|]). apply Forall_nil.
Qed.

Lemma value_of_field (a : char) (v : str) :
  Forall (fun c => c <> 58) v ->
  Logger.value_of ([a; 58] ++ v) = v.
Proof.
  intros H. unfold Logger.value_of, Logger.remainder. cbn [app skipn].
  now apply until_colon_id.
Qed.

Lemma startswith_prefix (p s : str) : startswith (p ++ s) p = true.
Proof.
  induction p as [|a p IH]; [now destruct s|].
  cbn [app startswith]. now rewrite N.eqb_refl, IH.
Qed.

Lemma line_parses :
  Logger.parse_fields (line_of temp voltage status)
  = Logger.Ok (two_decimals temp, two_decimals voltage, status).
Proof.
  assert (W : Logger.well_shaped (line_of temp voltage status) = true).
  { unfold Logger.well_shaped. rewrite line_fields.
    now rewrite !startswith_prefix. }
  rewrite (LoggerProperties.parse_fields_well_shaped _ W).
  unfold Logger.field. rewrite line_fields. cbn [nth].
  destruct (Forall_spec (fun _ => True) _ (number_chars temp)) as (_ & _ & C1).
  destruct (Forall_spec (fun _ => True) _ (number_chars voltage))
    as (_ & _ & C2).
  destruct (Forall_spec (fun _ => True) _ status_chars) as (_ & _ & C3).
  change (lit "T:") with [84; 58]. change (lit "V:") with [86; 58].
  change (lit "S:") with [83; 58].
  rewrite !value_of_field by assumption.
  unfold Logger.float, f1, f2. rewrite !float_of_format_2f. reflexivity.
Qed.

Lemma line_head :
  line_of temp voltage status
  = 84 :: (58 :: f1 ++ lit ",V:" ++ f2 ++ lit ",S:" ++ status).
Proof. reflexivity. Qed.

Lemma line_ends_well : ends_well isspace (line_of temp voltage status).
Proof.
  unfold ends_well, line_of.
  rewrite !app_assoc, rev_app_distr.
  unfold clean_status in clean. apply andb_true_iff in clean as [_ H].
  destruct (rev status) as [|c l].
  - rewrite app_nil_l, rev_app_distr. reflexivity.
  - cbn [app]. now apply negb_true_iff.
Qed.

Lemma data_string_line :
  data_string temp voltage status = line_of temp voltage status ++ [10].
Proof.
  unfold data_string, line_of. now rewrite <- !app_assoc.
Qed.

Lemma data_string_scalar :
  forallb scalar (data_string temp voltage status) = true.
Proof.
  unfold data_string.
  destruct (Forall_spec (fun _ => True) _ (number_chars temp)) as (S1 & _).
  destruct (Forall_spec (fun _ => True) _ (number_chars voltage)) as (S2 & _).
  destruct (Forall_spec (fun _ => True) _ status_chars) as (S3 & _).
  fold f1 f2. rewrite !forallb_app. fold f1 f2 in S1, S2.
  rewrite S1, S2, S3. reflexivity.
Qed.

(** A reading sent by [send_data] and what the logger makes of it. *)
Lemma sent_line_is_stored (now : Z) (st : Logger.state) :
  exists data,
    send_data temp voltage status
    = Some [Write data; Print_sent (line_of temp voltage status); Sleep 1]
    /\ Logger.iteration (Logger.Readline data now Logger.no_faults) st
       = (Logger.print
            (Logger.Logged (mkRow now (two_decimals temp)
                                  (two_decimals voltage) status))
            (Logger.write_csv
               (Row (mkRow now (two_decimals temp)
                           (two_decimals voltage) status))
               (Logger.write_raw
                  (Logger.mkRaw now (line_of temp voltage status)) st)),
          None).
Proof.
  destruct (PyExtras.utf8_encodes_and_decodes _ data_string_scalar)
    as (data & E & D).
  assert (S : strip (data_string temp voltage status)
              = line_of temp voltage status).
  { rewrite data_string_line, line_head. apply strip_line; [reflexivity|].
    exact line_ends_well. }
  exists data. split.
  - unfold send_data. now rewrite E, S.
  - cbn [Logger.iteration]. rewrite D, S.
    destruct (line_of temp voltage status) as [|c l] eqn:L;
      [rewrite line_head in L; discriminate|].
    rewrite <- L.
    rewrite (LoggerProperties.parse_and_store_ok _ _ _ _ _ _ _ line_parses).
    reflexivity.
Qed.
End Trip.


(** X19.  What the emulator sends, the logger stores: for any values and
    any status token without comma, colon or line feed that does not end
    in white space, [send_data] writes one chunk, and the logger, reading
    it with no sink failing, appends the line to the raw log and one
    record to the store whose status is the token sent and whose
    temperature and voltage are the values sent, rounded to two decimals
    (infinities and NaN unchanged); it records no parse error. *)
Theorem reading_sent_is_record_stored :
  forall (temp voltage : float) (status : str) (now : Z)
         (st : Logger.state),
    clean_status status = true ->
    exists data,
      send_data temp voltage status
      = Some [Write data; Print_sent (line_of temp voltage status); Sleep 1]
      /\ Logger.iteration (Logger.Readline data now Logger.no_faults) st
         = (Logger.print
              (Logger.Logged (mkRow now (two_decimals temp)
                                    (two_decimals voltage) status))
              (Logger.write_csv
                 (Row (mkRow now (two_decimals temp)
                             (two_decimals voltage) status))
                 (Logger.write_raw
                    (Logger.mkRaw now (line_of temp voltage status)) st)),
            None).
Proof.
  intros temp voltage status now st clean.
  now apply sent_line_is_stored.
Qed.

Lemma reading_sent_is_record_stored_witness :
  exists data,
    send_data (float_lit "48.126") (float_lit "5.04") (lit "NORMAL")
    = Some [Write data;
            Print_sent (lit "T:48.13,V:5.04,S:NORMAL"); Sleep 1]
    /\ Logger.csv_file
         (fst (Logger.iteration
                 (Logger.Readline data 7 Logger.no_faults) Logger.fresh))
       = [Row (mkRow 7 (float_lit "48.13") (float_lit "5.04")
                     (lit "NORMAL"))].
Proof.
  destruct (reading_sent_is_record_stored
              (float_lit "48.126") (float_lit "5.04") (lit "NORMAL")
              7 Logger.fresh eq_refl) as (data & S & I).
  exists data. split.
  - rewrite S. vm_compute. reflexivity.
  - rewrite I. vm_compute. reflexivity.
Defined.

(** ** The forced failure sequence *)

Lemma accepted_is_stored data reading now st :
  accepted data reading ->
  Logger.iteration (Logger.Readline data now Logger.no_faults) st
  = (Logger.print
       (Logger.Logged (stamped (now, reading)))
       (Logger.write_csv (Row (stamped (now, reading)))
          (Logger.write_raw
             (Logger.mkRaw now (strip (match decode_utf8 data with
                                       | Some text => text
                                       | None => []
                                       end))) st)),
     None).
Proof.
  unfold accepted, outcome. intros A. destruct reading as [[t v] s].
  cbn [Logger.iteration].
  destruct (decode_utf8 data) as [text|]; [|discriminate A].
  destruct (strip text) as [|c l]; [discriminate A|].
  assert (P : Logger.parse_fields (c :: l) = Logger.Ok (t, v, s))
    by congruence.
  now rewrite (LoggerProperties.parse_and_store_ok _ _ _ _ _ _ _ P).
Qed.

Lemma accepted_all_stored (chunks : list bytes) :
  forall (readings : list (float * float * str)) (clock : list Z)
         (st : Logger.state),
    map outcome chunks = map (fun r => Some (Logger.Ok r)) readings ->
    length clock = length chunks ->
    snd (Logger.loop (received chunks clock) st) = None
    /\ Logger.csv_file (fst (Logger.loop (received chunks clock) st))
       = Logger.csv_file st ++ map Row (map stamped (combine clock readings))
    /\ Logger.error_log (fst (Logger.loop (received chunks clock) st))
       = Logger.error_log st.
Proof.
  induction chunks as [|d ds IH]; intros readings clock st F L.
  - destruct readings; [|discriminate F]. destruct clock; [|discriminate].
    cbn. now rewrite app_nil_r.
  - destruct readings as [|r rs]; [discriminate F|].
    cbn [map] in F.
    assert (A : accepted d r) by (unfold accepted; congruence).
    assert (Fs : map outcome ds = map (fun r => Some (Logger.Ok r)) rs)
      by congruence.
    destruct clock as [|now clock]; [discriminate|].
    cbn [length] in L. injection L as L.
    unfold received. cbn [combine map Logger.loop fst snd].
    rewrite (accepted_is_stored d r now st A).
    fold (received ds clock).
    destruct (IH rs clock
                 (Logger.print
                    (Logger.Logged (stamped (now, r)))
                    (Logger.write_csv (Row (stamped (now, r)))
                       (Logger.write_raw
                          (Logger.mkRaw now
                             (strip (match decode_utf8 d with
                                     | Some text => text
                                     | None => []
                                     end))) st))) Fs L)
      as (E & C & G).
    rewrite E, C, G. cbn. now rewrite <- app_assoc.
Qed.

Lemma forced_chunks_count : length (written (main true)) = 6%nat.
Proof. vm_compute. reflexivity. Qed.

Lemma forced_chunks_accepted :
  map outcome (written (main true))
  = map (fun r => Some (Logger.Ok r)) readings_sent.
Proof. vm_compute. reflexivity. Qed.

(** X20.  The forced failure sequence reaches the store in full: run
    against an open port the emulator writes six chunks, and a logger
    that reads them at any six clock readings with no sink failing keeps
    running, records no parse error and appends six records, in order,
    whose values and status tokens are exactly those of the six calls of
    [send_data]. *)
Theorem forced_sequence_is_stored_in_full :
  forall (clock : list Z) (st : Logger.state),
    length clock = 6%nat ->
    length (written (main true)) = 6%nat
    /\ snd (Logger.loop (received (written (main true)) clock) st) = None
    /\ Logger.csv_file
         (fst (Logger.loop (received (written (main true)) clock) st))
       = Logger.csv_file st
         ++ map Row (map stamped (combine clock readings_sent))
    /\ Logger.error_log
         (fst (Logger.loop (received (written (main true)) clock) st))
       = Logger.error_log st.
Proof.
  intros clock st L.
  split; [exact forced_chunks_count|].
  apply (accepted_all_stored (written (main true)) readings_sent clock st).
  - exact forced_chunks_accepted.
  - rewrite forced_chunks_count. exact L.
Qed.

Lemma forced_sequence_is_stored_in_full_witness :
  length [1; 2; 3; 4; 5; 11]%Z = 6%nat
  /\ length (written (main true)) = 6%nat
  /\ snd (Logger.loop
            (received (written (main true)) [1; 2; 3; 4; 5; 11]%Z)
            Logger.fresh) = None
  /\ Logger.csv_file
       (fst (Logger.loop
               (received (written (main true)) [1; 2; 3; 4; 5; 11]%Z)
               Logger.fresh))
     = Logger.csv_file Logger.fresh
       ++ map Row (map stamped
                       (combine [1; 2; 3; 4; 5; 11]%Z readings_sent))
  /\ Logger.error_log
       (fst (Logger.loop
               (received (written (main true)) [1; 2; 3; 4; 5; 11]%Z)
               Logger.fresh))
     = Logger.error_log Logger.fresh.
Proof.
  split; [reflexivity|].
  exact (forced_sequence_is_stored_in_full
           [1; 2; 3; 4; 5; 11]%Z Logger.fresh eq_refl).
Defined.

End EmulatorExtras.

(* ================================================================== *)
(** * Further properties: from the emulator to the report *)
(* ================================================================== *)

Module PipelineExtras.
Import Py Store Detector DetectorProperties.

Local Open Scope Z_scope.

(** ** Sorting commutes with a projection that keeps the key *)

Lemma insert_map {A B : Type} (f : A -> B) (k : A -> Z) (k' : B -> Z)
  (before : Z -> Z -> bool) (a : A) (l : list A) :
  (forall x, k' (f x) = k x) ->
  map f (insert k before a l) = insert k' before (f a) (map f l).
Proof.
  intros H. induction l as [|b r IH]; [reflexivity|].
  cbn [insert map]. rewrite !H.
  destruct (before (k a) (k b)); [reflexivity|].
  cbn [map]. now rewrite IH.
Qed.

Lemma isort_map {A B : Type} (f : A -> B) (k : A -> Z) (k' : B -> Z)
  (before : Z -> Z -> bool) (l : list A) :
  (forall x, k' (f x) = k x) ->
  map f (isort k before l) = isort k' before (map f l).
Proof.
  intros H. induction l as [|a r IH]; [reflexivity|].
  cbn [isort map]. now rewrite (insert_map f k k' before a _ H), IH.
Qed.

Lemma report_map {B : Type} (f : anomaly -> B) (k' : B -> Z)
  (found : list anomaly) :
  (forall x, k' (f x) = anomaly_timestamp x) ->
  map f (report found) = isort k' Z.leb (map f found).
Proof.
  intros H. destruct found as [|a r]; [reflexivity|].
  unfold report, sort_by_timestamp. now apply isort_map.
Qed.

(** Decides the comparisons of an insertion sort from the hypotheses. *)
Ltac order_keys :=
  repeat (cbn [isort insert fst app];
          match goal with
          | |- context [Z.leb ?a ?b] =>
            first [ replace (Z.leb a b) with true
                      by (symmetry; apply Z.leb_le; lia)
                  | replace (Z.leb a b) with false
                      by (symmetry; apply Z.leb_gt; lia) ]
          end).

Ltac decide_gaps :=
  repeat match goal with
         | |- context [Z.ltb ?a ?b] =>
           first [ replace (Z.ltb a b) with true
                     by (symmetry; apply Z.ltb_lt; lia)
                 | replace (Z.ltb a b) with false
                     by (symmetry; apply Z.ltb_ge; lia) ]
         end.

(** X21.  The forced failure sequence is detected as intended.  On the
    frame of the six records of the sequence, stamped at increasing
    times, the first five no more than four seconds apart and the last
    more than four seconds after the fifth, the detectors report exactly
    seven anomalies: the temperature breach and a rapid change at the
    third record, the voltage breach and a rapid change at the fourth, a
    rapid change at the fifth, and a rapid change and the heartbeat loss
    at the sixth, in this order, whichever sorting algorithm the library
    uses. *)
Theorem forced_sequence_is_detected :
  forall (format_float : string -> float -> str)
         (total_seconds : Z -> float)
         (argsort : list Z -> list nat)
         (c1 c2 c3 c4 c5 c6 : Z),
    argsort_contract argsort ->
    0 < c2 - c1 <= 4 * 1000000000 ->
    0 < c3 - c2 <= 4 * 1000000000 ->
    0 < c4 - c3 <= 4 * 1000000000 ->
    0 < c5 - c4 <= 4 * 1000000000 ->
    4 * 1000000000 < c6 - c5 ->
    let stored :=
      map Emulator.stamped
          (combine [c1; c2; c3; c4; c5; c6] Emulator.readings_sent) in
    map occurrence
        (report (anomalies_found format_float total_seconds
                   (sort_values argsort stored)))
    = [(c3, THRESHOLD_BREACH_TEMP); (c3, RAPID_CHANGE_TEMP);
       (c4, THRESHOLD_BREACH_VOLTAGE); (c4, RAPID_CHANGE_TEMP);
       (c5, RAPID_CHANGE_TEMP);
       (c6, RAPID_CHANGE_TEMP); (c6, HEARTBEAT_LOSS)].
Proof.
  intros ff ts argsort c1 c2 c3 c4 c5 c6 C G1 G2 G3 G4 G5 stored.
  assert (O : sort_values argsort stored = stored).
  { destruct (sort_values_sorted_permutation argsort C stored) as [P A].
    apply DetectorExtras.ascending_arrangement_unique; [|exact A|exact P].
    unfold stored.
    repeat (apply SSorted_cons;
            [|repeat (apply Forall_cons; [cbn; lia|]); apply Forall_nil]).
    apply SSorted_nil. }
  rewrite O.
  rewrite (report_map occurrence fst) by reflexivity.
  unfold anomalies_found. rewrite !map_app.
  assert (T : map occurrence (temp_detector ff stored)
              = [(c3, THRESHOLD_BREACH_TEMP)])
    by (vm_compute; reflexivity).
  assert (V : map occurrence (voltage_detector ff stored)
              = [(c4, THRESHOLD_BREACH_VOLTAGE)])
    by (vm_compute; reflexivity).
  assert (R : map occurrence (roc_detector ff stored)
              = [(c3, RAPID_CHANGE_TEMP); (c4, RAPID_CHANGE_TEMP);
                 (c5, RAPID_CHANGE_TEMP); (c6, RAPID_CHANGE_TEMP)])
    by (vm_compute; reflexivity).
  assert (H : map occurrence (heartbeat_detector ff ts stored)
              = [(c6, HEARTBEAT_LOSS)]).
  { unfold stored.
    cbv [Emulator.readings_sent Emulator.forced_failure_sequence flat_map app
         combine map Emulator.stamped heartbeat_detector heartbeat_anomalies
         with_time_diff time_diff time_diff_from timestamp filter
         exceeds_timeout snd fst timedelta HEARTBEAT_TIMEOUT_SECONDS].
    decide_gaps. reflexivity. }
  rewrite T, V, R, H.
  order_keys. reflexivity.
Qed.

Lemma forced_sequence_is_detected_witness :
  map occurrence
      (report (anomalies_found python_format seconds_by_division
                 (sort_values argsort_stable
                    (map Emulator.stamped
                         (combine [seconds 1; seconds 2; seconds 3;
                                   seconds 4; seconds 5; seconds 11]
                                  Emulator.readings_sent)))))
  = [(seconds 3, THRESHOLD_BREACH_TEMP); (seconds 3, RAPID_CHANGE_TEMP);
     (seconds 4, THRESHOLD_BREACH_VOLTAGE); (seconds 4, RAPID_CHANGE_TEMP);
     (seconds 5, RAPID_CHANGE_TEMP);
     (seconds 11, RAPID_CHANGE_TEMP); (seconds 11, HEARTBEAT_LOSS)].
Proof.
  apply (forced_sequence_is_detected
           python_format seconds_by_division argsort_stable
           (seconds 1) (seconds 2) (seconds 3) (seconds 4) (seconds 5)
           (seconds 11) argsort_stable_contract);
    vm_compute; try split; congruence.
Defined.

End PipelineExtras.
